(** * go-threads: the sync server and its per-thread semaphore

  A shallow embedding of [net/util/util.go]: the counting semaphore of
  package [util] and the gRPC handlers of the [net] server ([GetLogs],
  [PushLog], [GetRecords], [PushRecord], [ExchangeEdges]) together with
  their helpers ([verifyRequest], [checkServiceKey], [headsChanged],
  [localEdges]).

  The logstore, the call queues, the status registry, the codec and the
  signature primitives are collaborators that live outside this file of
  the repository; they appear as an interface ([Collaborators]) whose
  answers the handlers consume.  What a handler does to them is kept as
  an ordered list of [Event]s next to the value it returns. *)

From Stdlib Require Import ZArith Lia.
From stdpp Require Import base option list strings gmap.

Local Open Scope Z_scope.
Set Warnings "-clear-no-such-hyp".

(** ** Package [util]: the semaphore *)

Module Util.

(** [Semaphore] wraps [inner chan struct{}].  Of a Go channel only three
    numbers matter here: the capacity given to [make], the number of unit
    tokens in its buffer, and the number of goroutines parked in a
    blocking send. *)
Record Semaphore := mkSemaphore {
  capacity : nat;
  tokens   : nat;
  parked   : nat
}.

(** [make(chan struct{}, capacity)] panics on a negative capacity. *)
Definition NewSemaphore (cap : Z) : option Semaphore :=
  if cap <? 0 then None
  else Some {| capacity := Z.to_nat cap; tokens := 0; parked := 0 |}.

Inductive Acquired :=
| AcqReturned (s : Semaphore)
| AcqParked (s : Semaphore).

(** [s.inner <- struct{}{}]: the send completes when the buffer has room
    and parks the caller otherwise (nothing here ever waits to receive). *)
Definition Acquire (s : Semaphore) : Acquired :=
  if (tokens s <? capacity s)%nat
  then AcqReturned {| capacity := capacity s; tokens := S (tokens s); parked := parked s |}
  else AcqParked {| capacity := capacity s; tokens := tokens s; parked := S (parked s) |}.

(** [select { case s.inner <- struct{}{}: return true; default: return false }] *)
Definition TryAcquire (s : Semaphore) : bool * Semaphore :=
  if (tokens s <? capacity s)%nat
  then (true, {| capacity := capacity s; tokens := S (tokens s); parked := parked s |})
  else (false, s).

Inductive Released :=
| RelDone (s : Semaphore)
| RelPanic (msg : string).

(** [select { case <-s.inner: default: panic(...) }].  The receive is ready
    when the buffer holds a token or a sender is parked; a parked sender
    then completes its send (refilling the buffer, or handing its token
    over directly on an unbuffered channel). *)
Definition Release (s : Semaphore) : Released :=
  match tokens s, parked s with
  | S n, O => RelDone {| capacity := capacity s; tokens := n; parked := O |}
  | S n, S p => RelDone {| capacity := capacity s; tokens := S n; parked := p |}
  | O, S p => RelDone {| capacity := capacity s; tokens := O; parked := p |}
  | O, O => RelPanic "thread semaphore inconsistency: release before acquire!"
  end.

Definition panics (r : Released) : bool :=
  match r with RelPanic _ => true | RelDone _ => false end.

(** A history of calls on one semaphore, and the state it leads to.  The
    second component counts the acquires that no release has matched yet:
    every [Acquire] call and every [TryAcquire] that answered [true] adds
    one, every [Release] that returned takes one away. *)
Inductive Call := CallAcquire | CallTryAcquire | CallRelease.

Definition step (c : Call) (st : Semaphore * nat) : option (Semaphore * nat) :=
  let '(s, n) := st in
  match c with
  | CallAcquire =>
      match Acquire s with
      | AcqReturned s' | AcqParked s' => Some (s', S n)
      end
  | CallTryAcquire =>
      let '(ok, s') := TryAcquire s in
      Some (s', if ok then S n else n)
  | CallRelease =>
      match Release s with
      | RelDone s' => Some (s', Nat.pred n)
      | RelPanic _ => None
      end
  end.

Fixpoint run (h : list Call) (st : Semaphore * nat) : option (Semaphore * nat) :=
  match h with
  | [] => Some st
  | c :: h' =>
      match step c st with
      | Some st' => run h' st'
      | None => None
      end
  end.

(** What every reachable state satisfies. *)
Definition consistent (st : Semaphore * nat) : Prop :=
  let '(s, n) := st in
  n = (tokens s + parked s)%nat /\
  (tokens s <= capacity s)%nat /\
  ((0 < parked s)%nat -> tokens s = capacity s).

End Util.

(** ** Package [net]: data *)

Module Net.

Definition bytes := list Byte.byte.

#[global] Instance byte_eq_dec : EqDecision Byte.byte := Byte.byte_eq_dec.

(** [thread.ID] and [peer.ID] are Go string types; a [cid.Cid] is a struct
    around one string, [cid.Undef] being the zero value. *)
Definition ThreadID := string.
Definition PeerID := string.
Definition Cid := string.
Definition Undef : Cid := EmptyString.

Definition PubKey := bytes.
Definition Multiaddr := string.

(** A [sym.Key], by what [Bytes()] returns. *)
Definition SymKey := bytes.

(** gRPC status codes the server uses ([codes.OK] is the absence of an
    error). *)
Inductive Code := InvalidArgument | Unauthenticated | NotFound | Internal.

(** Go [error] values.  The four sentinels are compared by identity in the
    source; [Errorf] is [fmt.Errorf("...: %w", err)], which [errors.Is] sees
    through; [StatusMsg c m] is [status.Error(c, m)] on a literal and
    [StatusErr c e] is [status.Error(c, e.Error())]. *)
Inductive error :=
| ErrThreadNotFound
| ErrOffsetIsMissing
| errNoAddrsEdge
| errNoHeadsEdge
| ErrOther (what : string)
| Errorf (prefix : string) (e : error)
| StatusMsg (c : Code) (msg : string)
| StatusErr (c : Code) (e : error).

#[global] Instance Code_eq_dec : EqDecision Code.
Proof. solve_decision. Defined.

#[global] Instance error_eq_dec : EqDecision error.
Proof. solve_decision. Defined.

(** [errors.Is(e, target)] for a sentinel [target]. *)
Fixpoint errors_Is (e target : error) : bool :=
  if decide (e = target) then true
  else match e with
       | Errorf _ e' => errors_Is e' target
       | _ => false
       end.

Definition codeOf (e : error) : option Code :=
  match e with
  | StatusMsg c _ | StatusErr c _ => Some c
  | _ => None
  end.

(** A Go [(value, err)] pair whose value is looked at only when [err] is
    nil. *)
Definition Result (A : Type) := (A + error)%type.

(** A call either returns or ends in a run-time panic (here always the
    dereference of a nil pointer), which unwinds through its callers. *)
Inductive Outcome (A : Type) :=
| Returns (a : A)
| Panics.
Arguments Returns {A}.
Arguments Panics {A}.

(** Modelled from the spec: the type [thread.Key] of package [core/thread]
    with its methods [Defined] and [CanRead].  A thread's key set is
    {service-key?, read-key?}; a thread known only by its service key is
    followable but not readable. *)
Record ThreadKey := mkThreadKey {
  sk : option SymKey;
  rk : option SymKey
}.

(** Modelled from the spec: [Key.Defined], true when the service key is
    there. *)
Definition Defined (k : ThreadKey) : bool := bool_decide (is_Some (sk k)).

(** Modelled from the spec: [Key.CanRead], true when the read key is
    there. *)
Definition CanRead (k : ThreadKey) : bool := bool_decide (is_Some (rk k)).

(** [thread.LogInfo] and [thread.Info], by the fields the server reads. *)
Record LogInfo := mkLogInfo {
  li_ID     : PeerID;
  li_PubKey : PubKey;
  li_Addrs  : list Multiaddr;
  li_Head   : Cid
}.

Record Info := mkInfo {
  Key  : ThreadKey;
  Logs : list LogInfo
}.

Definition zeroInfo : Info := {| Key := {| sk := None; rk := None |}; Logs := [] |}.

(** [util.LogHead] *)
Record LogHead := mkLogHead {
  lh_Head  : Cid;
  lh_LogID : PeerID
}.

(** *** Wire messages ([net/pb])

    The messages are taken as the handlers read them.  The sub-messages a
    handler tests for nil before use are optional here, and so are
    [req.Header], [req.Body] and the [Log] of a [PushLog] body; the other
    pointers (the [PubKey] of a header, [ThreadID], [LogID], [Offset],
    [Record], the entries of [Logs] and [Threads]) stand for what they
    point to, a request being taken to carry them.  A [pbLog] is a [Log]
    whose [ID], [PubKey] and [Head] are there. *)

Record ProtoKey := mkProtoKey { pk_Key : option SymKey }.

Record ProtoAddr := mkProtoAddr { pa_Multiaddr : Multiaddr }.

Record pbLog := mkPbLog {
  pl_ID     : PeerID;
  pl_PubKey : PubKey;
  pl_Addrs  : list ProtoAddr;
  pl_Head   : Cid
}.

Record Log_Record := mkLogRecord {
  RecordNode : bytes;
  EventNode  : bytes;
  HeaderNode : bytes;
  BodyNode   : bytes
}.

Record Header := mkHeader {
  h_PubKey    : PubKey;
  h_Signature : bytes
}.

(** [req.Header] and [req.Body] are pointers; either may be nil. *)
Record Request (B : Type) := mkRequest {
  req_Header : option Header;
  req_Body   : option B
}.
Arguments mkRequest {B}.
Arguments req_Header {B}.
Arguments req_Body {B}.

Record GetLogsRequest_Body := mkGetLogsBody {
  gl_ThreadID   : ThreadID;
  gl_ServiceKey : option ProtoKey
}.

Record GetLogsReply := mkGetLogsReply { glr_Logs : list pbLog }.

(** [Log] is a pointer that [PushLog] hands to [logFromProto] without a
    test, after the key pick-up: [None] is a [Log] that is nil or lacks one
    of the sub-messages [logFromProto] dereferences.  The key pointers are
    tested before use. *)
Record PushLogRequest_Body := mkPushLogBody {
  pl_ThreadID   : ThreadID;
  pl_Log        : option pbLog;
  pl_ServiceKey : option ProtoKey;
  pl_ReadKey    : option ProtoKey
}.

Inductive PushLogReply := mkPushLogReply.

Record GetRecordsRequest_Body_LogEntry := mkReqLogEntry {
  le_LogID  : PeerID;
  le_Offset : Cid;
  le_Limit  : Z
}.

Record GetRecordsRequest_Body := mkGetRecordsBody {
  gr_ThreadID   : ThreadID;
  gr_ServiceKey : option ProtoKey;
  gr_Logs       : list GetRecordsRequest_Body_LogEntry
}.

Record GetRecordsReply_LogEntry := mkReplyLogEntry {
  rl_LogID   : PeerID;
  rl_Records : list Log_Record;
  rl_Log     : option pbLog
}.

Record GetRecordsReply := mkGetRecordsReply { grr_Logs : list GetRecordsReply_LogEntry }.

Record PushRecordRequest_Body := mkPushRecordBody {
  pr_ThreadID : ThreadID;
  pr_LogID    : PeerID;
  pr_Record   : Log_Record
}.

Inductive PushRecordReply := mkPushRecordReply.

Record ExchangeEdgesRequest_Body_ThreadEntry := mkThreadEntry {
  te_ThreadID    : ThreadID;
  te_AddressEdge : Z;
  te_HeadsEdge   : Z
}.

Record ExchangeEdgesRequest_Body := mkExchangeEdgesBody {
  ee_Threads : list ExchangeEdgesRequest_Body_ThreadEntry
}.

Record ExchangeEdgesReply_ThreadEdges := mkThreadEdges {
  ed_ThreadID    : ThreadID;
  ed_Exists      : bool;
  ed_AddressEdge : Z;
  ed_HeadsEdge   : Z
}.

Record ExchangeEdgesReply := mkExchangeEdgesReply {
  eer_Edges : list ExchangeEdgesReply_ThreadEdges
}.

(** *** What the handlers do to the queues, the registry and the store *)

Inductive Queue := queueGetLogs | queueGetRecords.

Inductive Priority := callPriorityLow | callPriorityHigh.

(** The functions handed to [Schedule]: the two methods of [net], and the
    closure that [ExchangeEdges] builds for a thread it does not know. *)
Inductive BgFn := updateLogsFromPeer | updateRecordsFromPeer | updateLogsThenSubscribe.

Inductive ThreadStatus :=
| threadStatusDownloadStarted
| threadStatusDownloadDone
| threadStatusDownloadFailed
| threadStatusUploadDone.

Inductive Event :=
| Schedule (q : Queue) (p : PeerID) (t : ThreadID) (prio : Priority) (fn : BgFn)
| Apply (p : PeerID) (t : ThreadID) (st : ThreadStatus)
| AddServiceKey (t : ThreadID) (k : SymKey)
| AddReadKey (t : ThreadID) (k : SymKey)
| CreateExternalLogsIfNotExist (t : ThreadID) (lgs : list LogInfo)
| PutRecord (t : ThreadID) (l : PeerID) (c : Cid)
| GetLocalRecords (t : ThreadID) (l : PeerID) (offset : Cid) (limit : Z).

#[global] Instance Queue_eq_dec : EqDecision Queue.
Proof. solve_decision. Defined.
#[global] Instance Priority_eq_dec : EqDecision Priority.
Proof. solve_decision. Defined.
#[global] Instance BgFn_eq_dec : EqDecision BgFn.
Proof. solve_decision. Defined.
#[global] Instance ThreadStatus_eq_dec : EqDecision ThreadStatus.
Proof. solve_decision. Defined.
#[global] Instance LogInfo_eq_dec : EqDecision LogInfo.
Proof. solve_decision. Defined.
#[global] Instance Event_eq_dec : EqDecision Event.
Proof. solve_decision. Defined.

(** What the queue worker runs when it calls a scheduled function with
    [(p, t)]: which collaborator calls are made, in order. *)
Inductive BgCall :=
| CallUpdateLogsFromPeer (p : PeerID) (t : ThreadID)
| CallUpdateRecordsFromPeer (p : PeerID) (t : ThreadID)
| CallPubSubAdd (t : ThreadID).

(** The server value: whether [s.net.tStat] and [s.ps] are non-nil. *)
Record server := mkServer {
  tStat : bool;
  ps    : bool
}.

Definition invoke (s : server) (answer : BgCall -> option error)
    (fn : BgFn) (p : PeerID) (t : ThreadID) : list BgCall * option error :=
  match fn with
  | updateLogsFromPeer => ([CallUpdateLogsFromPeer p t], answer (CallUpdateLogsFromPeer p t))
  | updateRecordsFromPeer => ([CallUpdateRecordsFromPeer p t], answer (CallUpdateRecordsFromPeer p t))
  | updateLogsThenSubscribe =>
      match answer (CallUpdateLogsFromPeer p t) with
      | Some err => ([CallUpdateLogsFromPeer p t], Some err)
      | None =>
          if ps s
          then ([CallUpdateLogsFromPeer p t; CallPubSubAdd t], answer (CallPubSubAdd t))
          else ([CallUpdateLogsFromPeer p t], None)
      end
  end.

(** *** Conversions *)

Definition addrsToProto (mas : list Multiaddr) : list ProtoAddr :=
  map (fun a => {| pa_Multiaddr := a |}) mas.

Definition addrsFromProto (pa : list ProtoAddr) : list Multiaddr :=
  map pa_Multiaddr pa.

Definition logToProto (l : LogInfo) : pbLog :=
  {| pl_ID := li_ID l; pl_PubKey := li_PubKey l;
     pl_Addrs := addrsToProto (li_Addrs l); pl_Head := li_Head l |}.

Definition logFromProto (l : pbLog) : LogInfo :=
  {| li_ID := pl_ID l; li_PubKey := pl_PubKey l;
     li_Addrs := addrsFromProto (pl_Addrs l); li_Head := pl_Head l |}.

Definition minInt (x y : Z) : Z := if x <? y then x else y.

(** [int32] arithmetic as [atomic.AddInt32] does it. *)
Definition wrap32 (z : Z) : Z := (z + 2^31) mod 2^32 - 2^31.

(** *** The collaborators *)

(** [proto.Marshaler] *)
Class Marshaler (B : Type) := Marshal : B -> Result bytes.

(** Everything the server calls that is not in its own file: the public-key
    operations, the record codec ([cbor]), the logstore ([lstore.Logstore]),
    [util.ComputeHeadsEdge] and the methods of [net].  [W] is the state of
    the store and of the DAG service; [R] is [thread.Record]. *)
Class Collaborators (W R : Type) := mkCollaborators {
  pubkey_Verify : PubKey -> bytes -> bytes -> bool * option error;
  IDFromPublicKey : PubKey -> Result PeerID;
  RecordFromProto : Log_Record -> option SymKey -> Result R;
  RecordToProto : W -> R -> Result Log_Record;
  rec_Cid : R -> Cid;
  rec_Verify : R -> PubKey -> option error;
  store_GetThread : W -> ThreadID -> Info * option error;
  store_ServiceKey : W -> ThreadID -> Result (option SymKey);
  store_PubKey : W -> ThreadID -> PeerID -> Result (option PubKey);
  store_AddrsEdge : W -> ThreadID -> Result Z;
  store_HeadsEdge : W -> ThreadID -> Result Z;
  store_AddServiceKey : W -> ThreadID -> SymKey -> W * option error;
  store_AddReadKey : W -> ThreadID -> SymKey -> W * option error;
  ComputeHeadsEdge : list LogHead -> Z;
  net_isKnown : W -> Cid -> Result bool;
  net_PutRecord : W -> ThreadID -> PeerID -> R -> W * option error;
  net_createExternalLogsIfNotExist : W -> ThreadID -> list LogInfo -> W * option error;
  net_getLocalRecords : W -> ThreadID -> PeerID -> Cid -> Z -> list R * option error
}.

(** ** Package [net]: the server *)

Section Server.

Context {W R : Type} `{!Collaborators W R}.
Context `{!Marshaler GetLogsRequest_Body} `{!Marshaler PushLogRequest_Body}
        `{!Marshaler GetRecordsRequest_Body} `{!Marshaler PushRecordRequest_Body}
        `{!Marshaler ExchangeEdgesRequest_Body}.

(** The package variable [MaxPullLimit] and the receiver [s]. *)
Variable MaxPullLimit : Z.
Variable s : server.

(** A handler returns Go's [(reply, err)], leaves the store in a new state
    and has made calls on the queues, the registry and the store. *)
Definition Ret (A : Type) := (option A * option error)%type.

(** No [return] of a handler gives a nil reply together with a nil error;
    that pair stands for a handler that did not return: a panic unwound
    through it. *)
Definition panicked {A} : Ret A := (None, None).

Definition Handler (A : Type) := W -> Ret A * W * list Event.

(** Code inside a handler: it runs on to a value of type [A], or leaves the
    function with a [return] of type [X]. *)
Definition M (X A : Type) : Type := W -> (A + X) * W * list Event.

#[global] Instance M_ret {X} : MRet (M X) := fun A a w => (inl a, w, []).

#[global] Instance M_bind {X} : MBind (M X) := fun A B f m w =>
  match m w with
  | (inl a, w1, t1) => let '(r, w2, t2) := f a w1 in (r, w2, t1 ++ t2)
  | (inr x, w1, t1) => (inr x, w1, t1)
  end.

Definition exit {X A} (x : X) : M X A := fun w => (inr x, w, []).

Definition ask {X A} (f : W -> A) : M X A := fun w => (inl (f w), w, []).

Definition emit {X} (e : Event) : M X unit := fun w => (inl tt, w, [e]).

(** A call that changes the store: the call is recorded, then made. *)
Definition call {X A} (e : Event) (f : W -> W * A) : M X A :=
  fun w => let '(w', a) := f w in (inl a, w', [e]).

Definition handler {A} (m : M (Ret A) (Ret A)) : Handler A :=
  fun w => match m w with
           | (inl r, w', t) | (inr r, w', t) => (r, w', t)
           end.

(** [verifyRequest].  Its [body] is a value of the interface type
    [proto.Marshaler]: the nil interface ([None]), or an interface that
    holds a pointer to a message, and that pointer may itself be nil
    ([Some None]).  Only the nil interface is caught by [body == nil];
    [Marshal] called on a nil pointer dereferences it. *)
Definition verifyRequest {B} `{!Marshaler B}
    (header : option Header) (body : option (option B)) : Outcome (Result PeerID) :=
  match header, body with
  | Some h, Some ptr =>
      match ptr with
      | None => Panics
      | Some b =>
          match Marshal b with
          | inr err => Returns (inr (StatusErr Internal err))
          | inl payload =>
              match pubkey_Verify (h_PubKey h) payload (h_Signature h) with
              | (true, None) =>
                  match IDFromPublicKey (h_PubKey h) with
                  | inr err => Returns (inr (StatusErr InvalidArgument err))
                  | inl pid => Returns (inl pid)
                  end
              | _ => Returns (inr (StatusMsg Unauthenticated "bad signature"))
              end
          end
      end
  | _, _ => Returns (inr (StatusMsg InvalidArgument "bad request"))
  end.

(** The first lines of every handler: [verifyRequest(req.Header, req.Body)],
    where the pointer [req.Body] becomes a non-nil interface whether it is
    nil or not, then the first read of a field of [req.Body]. *)
Definition verified {A B} `{!Marshaler B} (req : Request B) : M (Ret A) (PeerID * B) :=
  match verifyRequest (req_Header req) (Some (req_Body req)) with
  | Panics => exit panicked
  | Returns (inr err) => exit (None, Some err)
  | Returns (inl pid) =>
      match req_Body req with
      | Some body => mret (pid, body)
      | None => exit panicked
      end
  end.

(** [checkServiceKey] *)
Definition checkServiceKey (id : ThreadID) (k : option ProtoKey) (w : W) : option error :=
  match k with
  | None | Some {| pk_Key := None |} =>
      Some (StatusMsg Unauthenticated "a service-key is required to get logs")
  | Some {| pk_Key := Some key |} =>
      match store_ServiceKey w id with
      | inr err => Some (StatusErr Internal err)
      | inl None => Some (StatusErr NotFound ErrThreadNotFound)
      | inl (Some sk) =>
          if bool_decide (key = sk) then None
          else Some (StatusMsg Unauthenticated "invalid service-key")
      end
  end.

(** [headsChanged] *)
Definition headsChanged (body : GetRecordsRequest_Body) (w : W) : bool * option error :=
  let reqHeads :=
    map (fun l => {| lh_Head := le_Offset l; lh_LogID := le_LogID l |}) (gr_Logs body) in
  match store_HeadsEdge w (gr_ThreadID body) with
  | inl currEdge => (negb (ComputeHeadsEdge reqHeads =? currEdge), None)
  | inr err =>
      if errors_Is err ErrThreadNotFound then (true, None) else (false, Some err)
  end.

(** [localEdges] *)
Definition localEdges (tid : ThreadID) (w : W) : Z * Z * option error :=
  match store_AddrsEdge w tid with
  | inr err =>
      if errors_Is err ErrThreadNotFound then (0, 0, Some errNoAddrsEdge)
      else (0, 0, Some (Errorf "address edge" err))
  | inl addrsEdge =>
      match store_HeadsEdge w tid with
      | inr err =>
          if errors_Is err ErrThreadNotFound then (addrsEdge, 0, Some errNoHeadsEdge)
          else (addrsEdge, 0, Some (Errorf "heads edge" err))
      | inl headsEdge => (addrsEdge, headsEdge, None)
      end
  end.

(** [registry.Apply], guarded by [registry != nil]. *)
Definition applyStatus {X} (p : PeerID) (t : ThreadID) (st : ThreadStatus) : M X unit :=
  if tStat s then emit (Apply p t st) else mret tt.

(** [GetLogs] *)
Definition GetLogs (req : Request GetLogsRequest_Body) : Handler GetLogsReply :=
  handler (
    '(pid, body) ← verified req;
    let pblgs := {| glr_Logs := [] |} in
    chk ← ask (checkServiceKey (gl_ThreadID body) (gl_ServiceKey body));
    match chk with
    | Some err => exit (Some pblgs, Some err)
    | None =>
        '(info, gerr) ← ask (fun w => store_GetThread w (gl_ThreadID body));
        match gerr with
        | Some err => exit (None, Some (StatusErr Internal err))
        | None => mret (Some {| glr_Logs := map logToProto (Logs info) |}, None)
        end
    end).

(** [PushLog]: the key pick-up. *)
Definition pickUpKeys (body : PushLogRequest_Body) (info : Info) : M (Ret PushLogReply) unit :=
  let tid := pl_ThreadID body in
  if negb (Defined (Key info)) then
    match pl_ServiceKey body with
    | Some {| pk_Key := Some key |} =>
        aerr ← call (AddServiceKey tid key) (fun w => store_AddServiceKey w tid key);
        match aerr with
        | Some err => exit (None, Some (StatusErr Internal err))
        | None => mret tt
        end
    | _ => exit (None, Some (StatusErr NotFound ErrThreadNotFound))
    end
  else if negb (CanRead (Key info)) then
    match pl_ReadKey body with
    | Some {| pk_Key := Some key |} =>
        aerr ← call (AddReadKey tid key) (fun w => store_AddReadKey w tid key);
        match aerr with
        | Some err => exit (None, Some (StatusErr Internal err))
        | None => mret tt
        end
    | _ => mret tt
    end
  else mret tt.

(** [PushLog] *)
Definition PushLog (req : Request PushLogRequest_Body) : Handler PushLogReply :=
  handler (
    '(pid, body) ← verified req;
    let tid := pl_ThreadID body in
    '(info, gerr) ← ask (fun w => store_GetThread w tid);
    match gerr with
    | Some err =>
        if negb (errors_Is err ErrThreadNotFound)
        then exit (None, Some (StatusErr Internal err)) else mret tt
    | None => mret tt
    end;;
    pickUpKeys body info;;
    match pl_Log body with
    | None => exit panicked
    | Some l =>
        let lg := logFromProto l in
        cerr ← call (CreateExternalLogsIfNotExist tid [lg])
                    (fun w => net_createExternalLogsIfNotExist w tid [lg]);
        match cerr with
        | Some err => exit (None, Some (StatusErr Internal err))
        | None =>
            emit (Schedule queueGetRecords pid tid callPriorityLow updateRecordsFromPeer);;
            mret (Some mkPushLogReply, None)
        end
    end).

(** [if err != nil { return nil, status.Error(c, err.Error()) }] *)
Definition orStatus {A B} (c : Code) (r : Result A) : M (Ret B) A :=
  match r with
  | inl a => mret a
  | inr err => exit (None, Some (StatusErr c err))
  end.

(** [GetRecords]: what the per-log goroutines share. *)
Record Shared := mkShared {
  failures  : Z;
  replyLogs : list GetRecordsReply_LogEntry
}.

(** The conversion loop of a goroutine: records are appended to [prs] until
    one fails to convert; the flag tells whether one did. *)
Fixpoint convertRecords (w : W) (recs : list R) (prs : list Log_Record)
    : list Log_Record * bool :=
  match recs with
  | [] => (prs, false)
  | r :: rest =>
      match RecordToProto w r with
      | inr _ => (prs, true)
      | inl pr => convertRecords w rest (prs ++ [pr])
      end
  end.

(** One goroutine of [GetRecords], run to its end against the shared
    counter and reply. *)
Definition fetchTask (pid : PeerID) (tid : ThreadID) (lid : PeerID) (off : Cid) (lim : Z)
    (pblg : option pbLog) (w : W) (sh : Shared) : Shared * list Event :=
  let '(recs, err) := net_getLocalRecords w tid lid off lim in
  let '(failures1, scheduled) :=
    match err with
    | Some e =>
        (wrap32 (failures sh + 1),
         if decide (e = ErrOffsetIsMissing)
         then [Schedule queueGetRecords pid tid callPriorityHigh updateRecordsFromPeer]
         else [])
    | None => (failures sh, [])
    end in
  let '(prs, broke) := convertRecords w recs [] in
  let failures2 := if broke then wrap32 (failures1 + 1) else failures1 in
  let events := GetLocalRecords tid lid off lim :: scheduled in
  if bool_decide (pblg = None) && bool_decide (length prs = 0%nat)
  then ({| failures := failures2; replyLogs := replyLogs sh |}, events)
  else ({| failures := failures2;
           replyLogs := replyLogs sh ++
             [{| rl_LogID := lid; rl_Records := prs; rl_Log := pblg |}] |}, events).

(** The choice of offset, limit and descriptor made for one local log. *)
Definition fetchArgs (reqd : gmap PeerID GetRecordsRequest_Body_LogEntry)
    (logRecordLimit : Z) (lg : LogInfo) : Cid * Z * option pbLog :=
  match reqd !! li_ID lg with
  | Some opts => (le_Offset opts, minInt (le_Limit opts) logRecordLimit, None)
  | None => (Undef, logRecordLimit, Some (logToProto lg))
  end.

(** The [for _, lg := range info.Logs] loop up to [wg.Wait()].  The
    goroutines only read the store and meet at the counter and at the
    reply, so they are run here one after the other, in the order of the
    loop. *)
Fixpoint fetchAll (pid : PeerID) (tid : ThreadID)
    (reqd : gmap PeerID GetRecordsRequest_Body_LogEntry) (logRecordLimit : Z)
    (logs : list LogInfo) (w : W) (sh : Shared) : Shared * list Event :=
  match logs with
  | [] => (sh, [])
  | lg :: rest =>
      let '(off, lim, pblg) := fetchArgs reqd logRecordLimit lg in
      let '(sh1, ev1) := fetchTask pid tid (li_ID lg) off lim pblg w sh in
      let '(sh2, ev2) := fetchAll pid tid reqd logRecordLimit rest w sh1 in
      (sh2, ev1 ++ ev2)
  end.

Definition requested (logs : list GetRecordsRequest_Body_LogEntry)
    : gmap PeerID GetRecordsRequest_Body_LogEntry :=
  foldl (fun reqd l => <[le_LogID l := l]> reqd) ∅ logs.

(** [GetRecords] *)
Definition GetRecords (req : Request GetRecordsRequest_Body) : Handler GetRecordsReply :=
  handler (
    '(pid, body) ← verified req;
    let tid := gr_ThreadID body in
    let pbrecs := {| grr_Logs := [] |} in
    chk ← ask (checkServiceKey tid (gr_ServiceKey body));
    match chk with
    | Some err => exit (Some pbrecs, Some err)
    | None => mret tt
    end;;
    '(changed, herr) ← ask (headsChanged body);
    match herr with
    | Some err => exit (None, Some err)
    | None => if negb changed then exit (Some pbrecs, None) else mret tt
    end;;
    let reqd := requested (gr_Logs body) in
    '(info, gerr) ← ask (fun w => store_GetThread w tid);
    match gerr with
    | Some err => exit (None, Some err)
    | None => if bool_decide (length (Logs info) = 0%nat) then exit (Some pbrecs, None) else mret tt
    end;;
    let logRecordLimit := MaxPullLimit ÷ Z.of_nat (length (Logs info)) in
    sh ← (fun w =>
            let '(sh, ev) :=
              fetchAll pid tid reqd logRecordLimit (Logs info) w
                       {| failures := 0; replyLogs := [] |} in
            (inl sh, w, ev));
    (if failures sh =? 0 then applyStatus pid tid threadStatusUploadDone else mret tt);;
    mret (Some {| grr_Logs := replyLogs sh |}, None)).

(** [PushRecord] from [var final = threadStatusDownloadFailed] on: the
    deferred [registry.Apply(pid, tid, final)] runs on the way out, with the
    value [final] has by then. *)
Definition putAndReport (pid : PeerID) (tid : ThreadID) (lid : PeerID) (rec : R)
    : M (Ret PushRecordReply) (Ret PushRecordReply) := fun w =>
  let final := threadStatusDownloadFailed in
  let started := if tStat s then [Apply pid tid threadStatusDownloadStarted] else [] in
  let deferred (final : ThreadStatus) := if tStat s then [Apply pid tid final] else [] in
  let '(w', perr) := net_PutRecord w tid lid rec in
  match perr with
  | Some err =>
      (inr (None, Some (StatusErr Internal err)), w',
       started ++ [PutRecord tid lid (rec_Cid rec)] ++ deferred final)
  | None =>
      let final := threadStatusDownloadDone in
      (inl (Some mkPushRecordReply, None), w',
       started ++ [PutRecord tid lid (rec_Cid rec)] ++ deferred final)
  end.

(** [PushRecord] *)
Definition PushRecord (req : Request PushRecordRequest_Body) : Handler PushRecordReply :=
  handler (
    '(pid, body) ← verified req;
    let tid := pr_ThreadID body in
    logpk ← ask (fun w => store_PubKey w tid (pr_LogID body)) ≫= orStatus Internal;
    match logpk with
    | None => exit (None, Some (StatusMsg NotFound "log not found"))
    | Some logpk =>
        key ← ask (fun w => store_ServiceKey w tid) ≫= orStatus Internal;
        rec ← orStatus Internal (RecordFromProto (pr_Record body) key);
        knownRecord ← ask (fun w => net_isKnown w (rec_Cid rec)) ≫= orStatus Internal;
        if knownRecord : bool then
          applyStatus pid tid threadStatusDownloadDone;;
          mret (Some mkPushRecordReply, None)
        else
          match rec_Verify rec logpk with
          | Some err => exit (None, Some (StatusErr Unauthenticated err))
          | None => putAndReport pid tid (pr_LogID body) rec
          end
    end).

(** [ExchangeEdges]: the body of the loop, for one entry. *)
Definition exchangeEntry (pid : PeerID) (entry : ExchangeEdgesRequest_Body_ThreadEntry)
    : M (Ret ExchangeEdgesReply) ExchangeEdgesReply_ThreadEdges :=
  let tid := te_ThreadID entry in
  '(addrsEdgeLocal, headsEdgeLocal, err) ← ask (localEdges tid);
  match err with
  | None =>
      let addrsEdgeRemote := te_AddressEdge entry in
      let headsEdgeRemote := te_HeadsEdge entry in
      (if negb (addrsEdgeLocal =? addrsEdgeRemote)
       then emit (Schedule queueGetLogs pid tid callPriorityLow updateLogsFromPeer)
       else mret tt);;
      (if negb (headsEdgeLocal =? headsEdgeRemote)
       then emit (Schedule queueGetRecords pid tid callPriorityLow updateRecordsFromPeer)
       else (applyStatus pid tid threadStatusDownloadDone;;
             applyStatus pid tid threadStatusUploadDone));;
      mret {| ed_ThreadID := tid; ed_Exists := true;
              ed_AddressEdge := addrsEdgeLocal; ed_HeadsEdge := headsEdgeLocal |}
  | Some e =>
      if decide (e = errNoAddrsEdge) then
        emit (Schedule queueGetLogs pid tid callPriorityHigh updateLogsThenSubscribe);;
        mret {| ed_ThreadID := tid; ed_Exists := false;
                ed_AddressEdge := 0; ed_HeadsEdge := 0 |}
      else if decide (e = errNoHeadsEdge) then
        emit (Schedule queueGetRecords pid tid callPriorityLow updateRecordsFromPeer);;
        mret {| ed_ThreadID := tid; ed_Exists := false;
                ed_AddressEdge := 0; ed_HeadsEdge := 0 |}
      else exit (None, Some (Errorf ("getting edges for " +:+ tid) e))
  end.

Fixpoint exchangeLoop (pid : PeerID) (entries : list ExchangeEdgesRequest_Body_ThreadEntry)
    (edges : list ExchangeEdgesReply_ThreadEdges)
    : M (Ret ExchangeEdgesReply) (list ExchangeEdgesReply_ThreadEdges) :=
  match entries with
  | [] => mret edges
  | entry :: rest =>
      e ← exchangeEntry pid entry;
      exchangeLoop pid rest (edges ++ [e])
  end.

(** [ExchangeEdges] *)
Definition ExchangeEdges (req : Request ExchangeEdgesRequest_Body) : Handler ExchangeEdgesReply :=
  handler (
    '(pid, body) ← verified req;
    edges ← exchangeLoop pid (ee_Threads body) [];
    mret (Some {| eer_Edges := edges |}, None)).

(** *** Words for stating what the handlers do *)

(** The request passes verification as peer [pid] and carries [body]. *)
Definition passes {Body} `{!Marshaler Body} (req : Request Body) (pid : PeerID) (body : Body)
    : Prop :=
  verifyRequest (req_Header req) (Some (req_Body req)) = Returns (inl pid) /\
  req_Body req = Some body.

(** The heads the caller supplied, as [headsChanged] builds them. *)
Definition suppliedHeads (body : GetRecordsRequest_Body) : list LogHead :=
  map (fun l => {| lh_Head := le_Offset l; lh_LogID := le_LogID l |}) (gr_Logs body).

(** What the goroutine of [GetRecords] for the local log [lg] got from
    [getLocalRecords], what its conversion loop made of it, the descriptor
    it attaches, and how many times it bumped the failure counter. *)
Definition fetched (reqd : gmap PeerID GetRecordsRequest_Body_LogEntry) (logRecordLimit : Z)
    (w : W) (tid : ThreadID) (lg : LogInfo) : list R * option error :=
  let '(off, lim, _) := fetchArgs reqd logRecordLimit lg in
  net_getLocalRecords w tid (li_ID lg) off lim.

Definition converted (reqd : gmap PeerID GetRecordsRequest_Body_LogEntry) (logRecordLimit : Z)
    (w : W) (tid : ThreadID) (lg : LogInfo) : list Log_Record * bool :=
  convertRecords w (fetched reqd logRecordLimit w tid lg).1 [].

Definition descriptor (reqd : gmap PeerID GetRecordsRequest_Body_LogEntry) (lg : LogInfo)
    : option pbLog :=
  match reqd !! li_ID lg with
  | Some _ => None
  | None => Some (logToProto lg)
  end.

Definition taskFailures (reqd : gmap PeerID GetRecordsRequest_Body_LogEntry)
    (logRecordLimit : Z) (w : W) (tid : ThreadID) (lg : LogInfo) : nat :=
  ((match (fetched reqd logRecordLimit w tid lg).2 with Some _ => 1 | None => 0 end) +
   (if (converted reqd logRecordLimit w tid lg).2 then 1 else 0))%nat.

(** In terms of the codec alone: the records [recs] convert, one by one
    and in order, to [prs]; some record of [recs] does not convert; and the
    number of failures counted for [lg], one for a failed fetch and one for
    a record that does not convert. *)
Definition convertsTo (w : W) (recs : list R) (prs : list Log_Record) : Prop :=
  Forall2 (fun r pr => RecordToProto w r = inl pr) recs prs.

Definition conversionFails (w : W) (recs : list R) : bool :=
  existsb (fun r => match RecordToProto w r with inl _ => false | inr _ => true end) recs.

Definition logFailures (reqd : gmap PeerID GetRecordsRequest_Body_LogEntry)
    (logRecordLimit : Z) (w : W) (tid : ThreadID) (lg : LogInfo) : nat :=
  ((match (fetched reqd logRecordLimit w tid lg).2 with Some _ => 1 | None => 0 end) +
   (if conversionFails w (fetched reqd logRecordLimit w tid lg).1 then 1 else 0))%nat.

(** The reply entry the goroutine for [lg] appends, if any, and the calls
    it makes. *)
Definition taskEntry (reqd : gmap PeerID GetRecordsRequest_Body_LogEntry)
    (logRecordLimit : Z) (w : W) (tid : ThreadID) (lg : LogInfo)
    : option GetRecordsReply_LogEntry :=
  let prs := (converted reqd logRecordLimit w tid lg).1 in
  match descriptor reqd lg, prs with
  | None, [] => None
  | d, _ => Some {| rl_LogID := li_ID lg; rl_Records := prs; rl_Log := d |}
  end.

Definition taskEvents (pid : PeerID) (reqd : gmap PeerID GetRecordsRequest_Body_LogEntry)
    (logRecordLimit : Z) (w : W) (tid : ThreadID) (lg : LogInfo) : list Event :=
  let '(off, lim, _) := fetchArgs reqd logRecordLimit lg in
  GetLocalRecords tid (li_ID lg) off lim ::
  match (fetched reqd logRecordLimit w tid lg).2 with
  | Some e =>
      if decide (e = ErrOffsetIsMissing)
      then [Schedule queueGetRecords pid tid callPriorityHigh updateRecordsFromPeer]
      else []
  | None => []
  end.

(** The entry of the caller's request that [reqd] keeps for a log: the last
    one that names it. *)
Definition callerEntry (logs : list GetRecordsRequest_Body_LogEntry) (lid : PeerID)
    : option GetRecordsRequest_Body_LogEntry :=
  last (filter (fun l => le_LogID l = lid) logs).

(** No entry of the request makes an edge lookup fail with anything but
    thread-not-found, which is what keeps [ExchangeEdges] out of the
    [default] branch of its switch. *)
Definition edgesAnswered (w : W) (entries : list ExchangeEdgesRequest_Body_ThreadEntry) : Prop :=
  forall entry, entry ∈ entries ->
    (forall err, store_AddrsEdge w (te_ThreadID entry) = inr err ->
                 errors_Is err ErrThreadNotFound = true) /\
    (forall al err, store_AddrsEdge w (te_ThreadID entry) = inl al ->
                    store_HeadsEdge w (te_ThreadID entry) = inr err ->
                    errors_Is err ErrThreadNotFound = true).

(** The statuses that end a download. *)
Definition terminal (e : Event) : bool :=
  match e with
  | Apply _ _ threadStatusDownloadDone | Apply _ _ threadStatusDownloadFailed => true
  | _ => false
  end.

End Server.

Arguments Ret : clear implicits.
Arguments Handler : clear implicits.

End Net.

(** ** An in-memory instance of the collaborators

    A small logstore with a record codec and signatures that can be
    computed with, so that the handlers can be run on concrete requests. *)

Module Mem.
Import Net.

(** A record: its cid, the key of the log that signed it, and whether its
    nodes can be loaded from the DAG service. *)
Record MemRecord := mkMemRecord {
  mr_cid    : Cid;
  mr_signer : PubKey
}.

Record MemThread := mkMemThread {
  mt_info    : Info;
  mt_records : list (PeerID * list MemRecord)
}.

Record MemStore := mkMemStore {
  threads : list (ThreadID * MemThread);
  blocks  : list Cid;
  faulty  : bool
}.

Definition B (str : string) : bytes := String.list_byte_of_string str.

Fixpoint lookupThread (ts : list (ThreadID * MemThread)) (tid : ThreadID) : option MemThread :=
  match ts with
  | [] => None
  | (t, th) :: rest => if decide (t = tid) then Some th else lookupThread rest tid
  end.

Fixpoint putThread (ts : list (ThreadID * MemThread)) (tid : ThreadID) (th : MemThread)
    : list (ThreadID * MemThread) :=
  match ts with
  | [] => [(tid, th)]
  | (t, th0) :: rest =>
      if decide (t = tid) then (t, th) :: rest else (t, th0) :: putThread rest tid th
  end.

Definition emptyThread : MemThread := {| mt_info := zeroInfo; mt_records := [] |}.

Definition threadOf (w : MemStore) (tid : ThreadID) : MemThread :=
  default emptyThread (lookupThread (threads w) tid).

Definition withThread (w : MemStore) (tid : ThreadID) (th : MemThread) : MemStore :=
  {| threads := putThread (threads w) tid th; blocks := blocks w; faulty := faulty w |}.

Definition writeFailed : error := ErrOther "write failed".

(** A toy 64-bit fingerprint: the xor of per-entry string hashes. *)
Definition hashString (str : string) : Z :=
  fold_left (fun h b => (h * 31 + Z.of_N (Byte.to_N b)) mod 2^64) (String.list_byte_of_string str) 7.

Definition memComputeHeadsEdge (hs : list LogHead) : Z :=
  fold_left (fun acc h => Z.lxor acc (hashString (lh_LogID h +:+ "/" +:+ lh_Head h))) hs 0.

Definition memHeads (info : Info) : list LogHead :=
  omap (fun l => if decide (li_Head l = Undef) then None
                 else Some {| lh_Head := li_Head l; lh_LogID := li_ID l |}) (Logs info).

Definition memAddrsEdge (info : Info) : Z :=
  fold_left (fun acc l =>
    Z.lxor acc (hashString (fold_left (fun a m => a +:+ "|" +:+ m) (li_Addrs l) (li_ID l))))
    (Logs info) 0.

Definition recordsOf (th : MemThread) (lid : PeerID) : list MemRecord :=
  match list_find (fun e => fst e = lid) (mt_records th) with
  | Some (_, (_, recs)) => recs
  | None => []
  end.

Fixpoint after (off : Cid) (recs : list MemRecord) : option (list MemRecord) :=
  match recs with
  | [] => None
  | r :: rest => if decide (mr_cid r = off) then Some rest else after off rest
  end.

Definition memGetLocalRecords (w : MemStore) (tid : ThreadID) (lid : PeerID)
    (off : Cid) (lim : Z) : list MemRecord * option error :=
  let recs := recordsOf (threadOf w tid) lid in
  if decide (off = Undef) then (take (Z.to_nat lim) recs, None)
  else match after off recs with
       | Some rest => (take (Z.to_nat lim) rest, None)
       | None => ([], Some ErrOffsetIsMissing)
       end.

Definition memAddKey (service : bool) (w : MemStore) (tid : ThreadID) (k : SymKey)
    : MemStore * option error :=
  if faulty w then (w, Some writeFailed)
  else
    let th := threadOf w tid in
    let key := Key (mt_info th) in
    let key' := if service then {| sk := Some k; rk := rk key |}
                else {| sk := sk key; rk := Some k |} in
    (withThread w tid {| mt_info := {| Key := key'; Logs := Logs (mt_info th) |};
                         mt_records := mt_records th |}, None).

Definition memCreateLogs (w : MemStore) (tid : ThreadID) (lgs : list LogInfo)
    : MemStore * option error :=
  if faulty w then (w, Some writeFailed)
  else
    let th := threadOf w tid in
    let known := map li_ID (Logs (mt_info th)) in
    let fresh := filter (fun l => li_ID l ∉ known) lgs in
    (withThread w tid {| mt_info := {| Key := Key (mt_info th);
                                       Logs := Logs (mt_info th) ++ fresh |};
                         mt_records := mt_records th |}, None).

Definition memPutRecord (w : MemStore) (tid : ThreadID) (lid : PeerID) (r : MemRecord)
    : MemStore * option error :=
  if faulty w then (w, Some writeFailed)
  else ({| threads := threads w; blocks := mr_cid r :: blocks w; faulty := faulty w |}, None).

#[global] Instance memCollaborators : Collaborators MemStore MemRecord := {|
  pubkey_Verify pk payload sig := (bool_decide (sig = pk ++ payload), None);
  IDFromPublicKey pk :=
    if decide (pk = []) then inr (ErrOther "empty key") else inl (String.string_of_list_byte pk);
  RecordFromProto pr key :=
    match key with
    | None => inr (ErrOther "no key to decode with")
    | Some _ => inl {| mr_cid := String.string_of_list_byte (RecordNode pr); mr_signer := HeaderNode pr |}
    end;
  RecordToProto w r :=
    if decide (mr_cid r ∈ blocks w)
    then inl {| RecordNode := String.list_byte_of_string (mr_cid r); EventNode := [];
                HeaderNode := mr_signer r; BodyNode := [] |}
    else inr (ErrOther "block not found");
  rec_Cid := mr_cid;
  rec_Verify r pk := if decide (mr_signer r = pk) then None else Some (ErrOther "bad record signature");
  store_GetThread w tid :=
    match lookupThread (threads w) tid with
    | Some th => (mt_info th, None)
    | None => (zeroInfo, Some ErrThreadNotFound)
    end;
  store_ServiceKey w tid := inl (sk (Key (mt_info (threadOf w tid))));
  store_PubKey w tid lid :=
    inl (li_PubKey <$> (snd <$> list_find (fun l => li_ID l = lid) (Logs (mt_info (threadOf w tid)))));
  store_AddrsEdge w tid :=
    match Logs (mt_info (threadOf w tid)) with
    | [] => inr ErrThreadNotFound
    | _ => inl (memAddrsEdge (mt_info (threadOf w tid)))
    end;
  store_HeadsEdge w tid :=
    match memHeads (mt_info (threadOf w tid)) with
    | [] => inr ErrThreadNotFound
    | hs => inl (memComputeHeadsEdge hs)
    end;
  store_AddServiceKey := memAddKey true;
  store_AddReadKey := memAddKey false;
  ComputeHeadsEdge := memComputeHeadsEdge;
  net_isKnown w c := inl (bool_decide (c ∈ blocks w));
  net_PutRecord := memPutRecord;
  net_createExternalLogsIfNotExist := memCreateLogs;
  net_getLocalRecords := memGetLocalRecords
|}.

(** Bodies are marshalled to the bytes of the thread ids they name. *)
#[global] Instance marshalGetLogs : Marshaler GetLogsRequest_Body :=
  fun b => inl (B (gl_ThreadID b)).
#[global] Instance marshalPushLog : Marshaler PushLogRequest_Body :=
  fun b => inl (B (pl_ThreadID b)).
#[global] Instance marshalGetRecords : Marshaler GetRecordsRequest_Body :=
  fun b => inl (B (gr_ThreadID b)).
#[global] Instance marshalPushRecord : Marshaler PushRecordRequest_Body :=
  fun b => inl (B (pr_ThreadID b)).
#[global] Instance marshalExchangeEdges : Marshaler ExchangeEdgesRequest_Body :=
  fun b => inl (concat (map (fun e => B (te_ThreadID e)) (ee_Threads b))).

(** A request signed by the peer whose public key is [pk]. *)
Definition signedBy {Body} `{!Marshaler Body} (pk : PubKey) (body : Body) : Request Body :=
  {| req_Header :=
       Some {| h_PubKey := pk;
               h_Signature := pk ++ match Marshal body with inl p => p | inr _ => [] end |};
     req_Body := Some body |}.

(** *** A store and some requests to run the handlers on *)

Definition alice : PubKey := B "alice".

Definition logA : LogInfo :=
  {| li_ID := "LA"; li_PubKey := B "pkA"; li_Addrs := ["/ip4/10.0.0.1/tcp/4006"];
     li_Head := "c2" |}.

Definition logB : LogInfo :=
  {| li_ID := "LB"; li_PubKey := B "pkB"; li_Addrs := ["/ip4/10.0.0.2/tcp/4006"];
     li_Head := Undef |}.

Definition logC : LogInfo :=
  {| li_ID := "LC"; li_PubKey := B "pkC"; li_Addrs := ["/ip4/10.0.0.3/tcp/4006"];
     li_Head := Undef |}.

(** [T1] has a service key, two logs and two records in [LA]; [T3] has a
    service key and one log that has no head yet. *)
Definition info1 : Info :=
  {| Key := {| sk := Some (B "k1"); rk := None |}; Logs := [logA; logB] |}.

Definition info3 : Info :=
  {| Key := {| sk := Some (B "k3"); rk := None |}; Logs := [logC] |}.

Definition store0 : MemStore :=
  {| threads :=
       [("T1", {| mt_info := info1;
                  mt_records := [("LA", [ {| mr_cid := "c1"; mr_signer := B "pkA" |};
                                          {| mr_cid := "c2"; mr_signer := B "pkA" |} ])] |});
        ("T3", {| mt_info := info3; mt_records := [] |})];
     blocks := ["c1"; "c2"];
     faulty := false |}.

Definition srv : server := {| tStat := true; ps := true |}.

Definition key1 : option ProtoKey := Some {| pk_Key := Some (B "k1") |}.
Definition key3 : option ProtoKey := Some {| pk_Key := Some (B "k3") |}.

Definition wireRecord (c : Cid) (signer : PubKey) : Log_Record :=
  {| RecordNode := B c; EventNode := []; HeaderNode := signer; BodyNode := [] |}.

Definition pushKnown : PushRecordRequest_Body :=
  {| pr_ThreadID := "T1"; pr_LogID := "LA"; pr_Record := wireRecord "c2" (B "pkA") |}.

Definition pushNew : PushRecordRequest_Body :=
  {| pr_ThreadID := "T1"; pr_LogID := "LA"; pr_Record := wireRecord "c3" (B "pkA") |}.

Definition getLogsNoKey : GetLogsRequest_Body :=
  {| gl_ThreadID := "T9"; gl_ServiceKey := None |}.

Definition getRecordsT3 : GetRecordsRequest_Body :=
  {| gr_ThreadID := "T3"; gr_ServiceKey := key3; gr_Logs := [] |}.

Definition getRecordsT1 : GetRecordsRequest_Body :=
  {| gr_ThreadID := "T1"; gr_ServiceKey := key1;
     gr_Logs := [ {| le_LogID := "LA"; le_Offset := "c1"; le_Limit := 5 |} ] |}.

Definition getRecordsT1Same : GetRecordsRequest_Body :=
  {| gr_ThreadID := "T1"; gr_ServiceKey := key1;
     gr_Logs := [ {| le_LogID := "LA"; le_Offset := "c2"; le_Limit := 100 |} ] |}.

(** [T4] is known by its service key alone: the store has no log of it. *)
Definition storeKeyOnly : MemStore :=
  {| threads :=
       [("T4", {| mt_info := {| Key := {| sk := Some (B "k4"); rk := None |}; Logs := [] |};
                  mt_records := [] |})];
     blocks := [];
     faulty := false |}.

Definition getRecordsT4 : GetRecordsRequest_Body :=
  {| gr_ThreadID := "T4"; gr_ServiceKey := Some {| pk_Key := Some (B "k4") |};
     gr_Logs := [ {| le_LogID := "LA"; le_Offset := "c1"; le_Limit := 5 |} ] |}.

Definition getRecordsT1Ahead : GetRecordsRequest_Body :=
  {| gr_ThreadID := "T1"; gr_ServiceKey := key1;
     gr_Logs := [ {| le_LogID := "LA"; le_Offset := "c9"; le_Limit := 5 |} ] |}.

Definition pushLogT2 : PushLogRequest_Body :=
  {| pl_ThreadID := "T2"; pl_Log := Some (logToProto logA);
     pl_ServiceKey := Some {| pk_Key := Some (B "k2") |}; pl_ReadKey := None |}.

Definition localHeads1 : Z := memComputeHeadsEdge (memHeads info1).
Definition localAddrs1 : Z := memAddrsEdge info1.

Definition exchangeThree : ExchangeEdgesRequest_Body :=
  {| ee_Threads :=
       [ {| te_ThreadID := "T1"; te_AddressEdge := 1; te_HeadsEdge := 2 |};
         {| te_ThreadID := "T9"; te_AddressEdge := 1; te_HeadsEdge := 2 |};
         {| te_ThreadID := "T3"; te_AddressEdge := 1; te_HeadsEdge := 2 |} ] |}.

Definition exchangeSameHeads : ExchangeEdgesRequest_Body :=
  {| ee_Threads :=
       [ {| te_ThreadID := "T1"; te_AddressEdge := 1; te_HeadsEdge := localHeads1 |} ] |}.

End Mem.

(** ** Package [util]: the semaphore pool and the record conversions *)

Module Pool.
Import Util.

(** [SemaphorePool]: the map from thread id to semaphore and the capacity
    given to new ones.  The map holds pointers in the source; here the
    semaphore of a thread is the state stored under its id, and a call made
    through the pointer is an update of that entry ([through]). *)
Record SemaphorePool := mkSemaphorePool {
  ss      : gmap string Semaphore;
  semaCap : Z
}.

Definition NewSemaphorePool (semaCap : Z) : SemaphorePool :=
  {| ss := ∅; semaCap := semaCap |}.

(** [GetSemaphore], run under the pool's mutex.  [None] is the panic of
    [make] when a semaphore has to be created with a negative capacity. *)
Definition GetSemaphore (p : SemaphorePool) (id : string)
    : option (Semaphore * SemaphorePool) :=
  match ss p !! id with
  | Some s => Some (s, p)
  | None =>
      match NewSemaphore (semaCap p) with
      | Some s => Some (s, {| ss := <[id := s]> (ss p); semaCap := semaCap p |})
      | None => None
      end
  end.

(** The semaphore of [id] after a call on it left it in state [s]. *)
Definition through (p : SemaphorePool) (id : string) (s : Semaphore) : SemaphorePool :=
  {| ss := <[id := s]> (ss p); semaCap := semaCap p |}.

(** Where [Stop] is: it has returned, or it waits in the [Acquire] of the
    semaphore of [id], the mutex held and the ids [rest] still to visit. *)
Inductive Stopped :=
| StopReturned (p : SemaphorePool)
| StopParked (id : string) (rest : list string) (p : SemaphorePool).

(** [Stop]: [for _, s := range p.ss { s.Acquire() }], with the mutex held.
    Go leaves the order of [range] over a map open, so the order in which
    the ids are visited is an argument.  The loop runs on while [Acquire]
    returns, and waits at the first semaphore that parks it. *)
Fixpoint StopIn (order : list string) (p : SemaphorePool) : Stopped :=
  match order with
  | [] => StopReturned p
  | id :: rest =>
      match ss p !! id with
      | None => StopIn rest p
      | Some s =>
          match Acquire s with
          | AcqReturned s' => StopIn rest (through p id s')
          | AcqParked s' => StopParked id rest (through p id s')
          end
      end
  end.

(** [Release] called by a holder of the semaphore of [id].  [None] is its
    panic (or a thread that has no semaphore). *)
Definition ReleaseOf (p : SemaphorePool) (id : string) : option SemaphorePool :=
  match ss p !! id with
  | Some s =>
      match Release s with
      | RelDone s' => Some (through p id s')
      | RelPanic _ => None
      end
  | None => None
  end.

(** A waiting [Stop] goes on once the semaphore it waits for is released:
    the receive of [Release] completes its send, and the loop visits the
    rest.  [StopReleased n st] follows [Stop] from [st] to its return while
    holders release, one after the other, the semaphores it waits for; [n]
    bounds the number of waits. *)
Fixpoint StopReleased (n : nat) (st : Stopped) : option SemaphorePool :=
  match st with
  | StopReturned p => Some p
  | StopParked id rest p =>
      match n with
      | O => None
      | S n' =>
          match ReleaseOf p id with
          | Some p' => StopReleased n' (StopIn rest p')
          | None => None
          end
      end
  end.

(** The orders [range] may take: every id of the map, once. *)
Definition rangeOrder (p : SemaphorePool) (order : list string) : Prop :=
  NoDup order /\ forall id, id ∈ order <-> is_Some (ss p !! id).

Definition hasRoom (s : Semaphore) : Prop := (tokens s < capacity s)%nat.

Definition acquired (s : Semaphore) : Semaphore :=
  {| capacity := capacity s; tokens := S (tokens s); parked := parked s |}.

(** A semaphore with [Stop] waiting on it. *)
Definition awaited (s : Semaphore) : Semaphore :=
  {| capacity := capacity s; tokens := tokens s; parked := S (parked s) |}.

(** A semaphore once [Stop] holds a place in it: one token more where there
    was room; where there was none, the place a holder gave up. *)
Definition held (s : Semaphore) : Semaphore :=
  if (tokens s <? capacity s)%nat then acquired s else s.

(** A semaphore in a state its methods lead to, with nobody waiting. *)
Definition quiet (s : Semaphore) : Prop :=
  parked s = 0%nat /\ (tokens s <= capacity s)%nat.

End Pool.

Module ApiRecord.
Import Net.

(** [apipb.Record] *)
Record Record := mkRecord {
  ar_RecordNode : bytes;
  ar_EventNode  : bytes;
  ar_HeaderNode : bytes;
  ar_BodyNode   : bytes
}.

Definition RecFromServiceRec (r : Log_Record) : Record :=
  {| ar_RecordNode := RecordNode r; ar_EventNode := EventNode r;
     ar_HeaderNode := HeaderNode r; ar_BodyNode := BodyNode r |}.

Definition RecToServiceRec (r : Record) : Log_Record :=
  {| RecordNode := ar_RecordNode r; EventNode := ar_EventNode r;
     HeaderNode := ar_HeaderNode r; BodyNode := ar_BodyNode r |}.

End ApiRecord.

(** ** Package [net]: the pubsub handler, the constructor, and more words *)

Module NetMore.
Import Net.

(** What [newServer] needs of the pubsub library and of the store:
    [pubsub.NewGossipSub], the topics of a fresh [PubSub], [PubSub.Add],
    and [Logstore.Threads]. *)
Class PubSubLib (W P : Type) := mkPubSubLib {
  NewGossipSub : option error;
  NewPubSub : P;
  ps_Add : P -> ThreadID -> P * option error;
  store_Threads : W -> Result (list ThreadID)
}.

Section More.

Context {W R : Type} `{!Collaborators W R}.
Context `{!Marshaler PushRecordRequest_Body}.
Context {P : Type} `{!PubSubLib W P}.

(** [pubsubHandler]: the record goes through [PushRecord]; an error is
    logged and nothing is returned.  The third component is the error
    logged, if any. *)
Definition pubsubHandler (s : server) (req : Request PushRecordRequest_Body) (w : W)
    : W * list Event * option error :=
  let '((_, err), w', t) := PushRecord s req w in (w', t, err).

(** The loop of [newServer] over the threads of the store: the state of the
    pubsub, the ids [Add] was called with, and the error that ended the
    loop, if any. *)
Fixpoint addAll (ts : list ThreadID) (p : P) (added : list ThreadID)
    : P * list ThreadID * option error :=
  match ts with
  | [] => (p, added, None)
  | id :: rest =>
      match ps_Add p id with
      | (p', Some err) => (p', added ++ [id], Some err)
      | (p', None) => addAll rest p' (added ++ [id])
      end
  end.

(** [newServer].  [tStatOfNet] tells whether the net it is built on has a
    status registry.  The result is the server with the state of its
    pubsub, or the error; next to it, the ids [Add] was called with.  The
    dial options and the empty connection map the server is given are not
    part of [server]: no handler reads them. *)
Definition newServer (tStatOfNet : bool) (enablePubSub : bool) (w : W)
    : Result (server * option P) * list ThreadID :=
  if enablePubSub then
    match NewGossipSub with
    | Some err => (inr err, [])
    | None =>
        match store_Threads w with
        | inr err => (inr err, [])
        | inl ts =>
            match addAll ts NewPubSub [] with
            | (_, added, Some err) => (inr err, added)
            | (p, added, None) => (inl ({| tStat := tStatOfNet; ps := true |}, Some p), added)
            end
        end
    end
  else (inl ({| tStat := tStatOfNet; ps := false |}, None), []).

(** [Add] succeeds for each of [ts] in turn, taking the pubsub from [p] to
    [q]. *)
Inductive Adds : P -> list ThreadID -> P -> Prop :=
| Adds_nil (p : P) : Adds p [] p
| Adds_cons (p p' q : P) (id : ThreadID) (rest : list ThreadID) :
    ps_Add p id = (p', None) -> Adds p' rest q -> Adds p (id :: rest) q.

End More.

(** The calls that write to the store. *)
Definition storeWrite (e : Event) : bool :=
  match e with
  | AddServiceKey _ _ | AddReadKey _ _ | CreateExternalLogsIfNotExist _ _
  | PutRecord _ _ _ => true
  | _ => false
  end.

(** Code that leaves the store as it is and makes no call that writes to
    it. *)
Definition passive {W X A} (m : @M W X A) : Prop :=
  forall w, (m w).1.2 = w /\ forall e, e ∈ (m w).2 -> storeWrite e = false.

(** A collaborator [getLocalRecords] that keeps to the limit it is given. *)
Definition keepsLimit {W R} `{!Collaborators W R} (w : W) : Prop :=
  forall tid lid off lim,
    (length (net_getLocalRecords w tid lid off lim).1 <= Z.to_nat lim)%nat.

(** The number of records a [GetRecords] reply carries. *)
Definition totalRecords (reply : GetRecordsReply) : nat :=
  sum_list ((fun e => length (rl_Records e)) <$> grr_Logs reply).

(** A pubsub for the in-memory instance: [Add] refuses the empty id and a
    topic it already has. *)
#[global] Instance memPubSub : PubSubLib Mem.MemStore (list ThreadID) := {|
  NewGossipSub := None;
  NewPubSub := [];
  ps_Add topics id :=
    if decide (id = EmptyString) then (topics, Some (ErrOther "empty topic"))
    else if decide (id ∈ topics) then (topics, Some (ErrOther "already subscribed"))
    else (topics ++ [id], None);
  store_Threads w := inl (map fst (Mem.threads w))
|}.

End NetMore.

(** *** More to run the code on *)

Module MoreData.
Import Util Pool Net Mem NetMore.

Definition free1 : Semaphore := {| capacity := 1; tokens := 0; parked := 0 |}.
Definition held1 : Semaphore := {| capacity := 1; tokens := 1; parked := 0 |}.

Definition poolTwo : SemaphorePool :=
  {| ss := <["T1" := free1]> (<["T2" := free1]> ∅); semaCap := 1 |}.

(** A pool in which the semaphore of [T2] is held. *)
Definition poolHeld : SemaphorePool :=
  {| ss := <["T1" := free1]> (<["T2" := held1]> ∅); semaCap := 1 |}.

(** The in-memory collaborators with edge lookups that fail when the store
    is faulty. *)
Definition memFailingEdges : Collaborators MemStore MemRecord := {|
  pubkey_Verify := @pubkey_Verify _ _ memCollaborators;
  IDFromPublicKey := @IDFromPublicKey _ _ memCollaborators;
  RecordFromProto := @RecordFromProto _ _ memCollaborators;
  RecordToProto := @RecordToProto _ _ memCollaborators;
  rec_Cid := @rec_Cid _ _ memCollaborators;
  rec_Verify := @rec_Verify _ _ memCollaborators;
  store_GetThread := @store_GetThread _ _ memCollaborators;
  store_ServiceKey := @store_ServiceKey _ _ memCollaborators;
  store_PubKey := @store_PubKey _ _ memCollaborators;
  store_AddrsEdge := @store_AddrsEdge _ _ memCollaborators;
  store_HeadsEdge w tid :=
    if faulty w then inr (ErrOther "read failed")
    else @store_HeadsEdge _ _ memCollaborators w tid;
  store_AddServiceKey := @store_AddServiceKey _ _ memCollaborators;
  store_AddReadKey := @store_AddReadKey _ _ memCollaborators;
  ComputeHeadsEdge := @ComputeHeadsEdge _ _ memCollaborators;
  net_isKnown := @net_isKnown _ _ memCollaborators;
  net_PutRecord := @net_PutRecord _ _ memCollaborators;
  net_createExternalLogsIfNotExist := @net_createExternalLogsIfNotExist _ _ memCollaborators;
  net_getLocalRecords := @net_getLocalRecords _ _ memCollaborators
|}.

Definition storeFaulty : MemStore :=
  {| threads := threads store0; blocks := blocks store0; faulty := true |}.

Definition pushUnknownLog : PushRecordRequest_Body :=
  {| pr_ThreadID := "T1"; pr_LogID := "LX"; pr_Record := wireRecord "c3" (B "pkX") |}.

Definition getLogsT1 : GetLogsRequest_Body :=
  {| gl_ThreadID := "T1"; gl_ServiceKey := key1 |}.

Definition exchangeT9T1 : ExchangeEdgesRequest_Body :=
  {| ee_Threads :=
       [ {| te_ThreadID := "T9"; te_AddressEdge := 1; te_HeadsEdge := 2 |};
         {| te_ThreadID := "T1"; te_AddressEdge := 1; te_HeadsEdge := 2 |};
         {| te_ThreadID := "T3"; te_AddressEdge := 1; te_HeadsEdge := 2 |} ] |}.

End MoreData.

(** * Properties *)

(** ** The semaphore *)

Module UtilSpec.
Import Util.

Lemma step_consistent c st st' :
  consistent st -> step c st = Some st' -> consistent st'.
Proof.
  destruct st as [[cap t p] n]. unfold consistent, step; simpl.
  intros (Hn & Hle & Hp) Hs. destruct c.
  - unfold Acquire in Hs; simpl in Hs.
    destruct (Nat.ltb_spec t cap); inversion Hs; subst; simpl; lia.
  - unfold TryAcquire in Hs; simpl in Hs.
    destruct (Nat.ltb_spec t cap); inversion Hs; subst; simpl; lia.
  - unfold Release in Hs; simpl in Hs.
    destruct t, p; inversion Hs; subst; simpl; lia.
Qed.

Lemma run_consistent h : forall st st',
  consistent st -> run h st = Some st' -> consistent st'.
Proof.
  induction h as [|c h IH]; simpl; intros st st' Hc Hr.
  - congruence.
  - destruct (step c st) as [st1|] eqn:E; [|discriminate].
    eapply IH; [eapply step_consistent|]; eauto.
Qed.

Lemma new_consistent cap s : NewSemaphore cap = Some s -> consistent (s, 0%nat).
Proof.
  unfold NewSemaphore. destruct (cap <? 0); [discriminate|].
  intros [= <-]. simpl. repeat split; lia.
Qed.

Lemma Release_panics_empty s :
  panics (Release s) = true <-> (tokens s + parked s = 0)%nat.
Proof.
  unfold Release. destruct (tokens s), (parked s); simpl; split; intros; (lia || congruence).
Qed.

(** C9. On a semaphore made by [NewSemaphore] and used through any history
    of [Acquire], [TryAcquire] and [Release] calls, [Release] takes its
    panic branch ("release before acquire") exactly when the number of
    acquires not yet matched by a release is zero; when at least one such
    acquire exists, and in particular when a caller holds a token, the
    panic branch is not taken. *)
Theorem Release_panics_iff_no_unreleased_acquire :
  forall (cap : Z) (s0 s : Semaphore) (h : list Call) (n : nat),
    NewSemaphore cap = Some s0 ->
    run h (s0, 0%nat) = Some (s, n) ->
    (panics (Release s) = true <-> n = 0%nat) /\
    (Release s = RelPanic "thread semaphore inconsistency: release before acquire!" <-> n = 0%nat) /\
    ((0 < n)%nat -> exists s', Release s = RelDone s') /\
    ((0 < tokens s)%nat -> exists s', Release s = RelDone s').
Proof.
  intros cap s0 s h n Hnew Hrun.
  pose proof (run_consistent h _ _ (new_consistent _ _ Hnew) Hrun) as (Hn & _ & _).
  subst n. unfold Release.
  destruct (tokens s) as [|t], (parked s) as [|p]; simpl;
    repeat split; intros; try lia; try discriminate; eauto.
Qed.

Lemma Release_panics_iff_no_unreleased_acquire_witness :
  (panics (Release {| capacity := 2; tokens := 1; parked := 0 |}) = true <-> 1%nat = 0%nat) /\
  (exists s', Release {| capacity := 2; tokens := 1; parked := 0 |} = RelDone s').
Proof.
  pose proof (Release_panics_iff_no_unreleased_acquire 2
                {| capacity := 2; tokens := 0; parked := 0 |}
                {| capacity := 2; tokens := 1; parked := 0 |}
                [CallAcquire; CallTryAcquire; CallRelease] 1%nat
                eq_refl eq_refl) as (H1 & _ & H3 & _).
  split; [exact H1 | apply H3; lia].
Defined.

End UtilSpec.

(** ** The server *)

Module NetSpec.
Import Net.

Section Properties.

Context {W R : Type} `{!Collaborators W R}.
Context `{!Marshaler GetLogsRequest_Body} `{!Marshaler PushLogRequest_Body}
        `{!Marshaler GetRecordsRequest_Body} `{!Marshaler PushRecordRequest_Body}
        `{!Marshaler ExchangeEdgesRequest_Body}.

Variable MaxPullLimit : Z.
Variable s : server.

Ltac step_handler :=
  unfold handler, mbind, M_bind, mret, M_ret, ask, exit, emit, call, orStatus, applyStatus;
  simpl.

Ltac list_cases :=
  repeat match goal with
         | H : _ ∈ _ |- _ => progress (rewrite ?elem_of_cons, ?elem_of_nil, ?elem_of_app in H)
         end;
  rewrite ?elem_of_cons, ?elem_of_nil, ?elem_of_app;
  naive_solver.

Ltac in_list :=
  repeat (rewrite ?elem_of_cons, ?elem_of_nil, ?elem_of_app in * );
  try solve [intuition (congruence || discriminate)].

Lemma verified_passes {A Body} `{!Marshaler Body} (req : Request Body) pid body (w : W) :
  passes req pid body ->
  verified (A := A) req w = (inl (pid, body), w, []).
Proof. intros [Hv Hb]. unfold verified. rewrite Hv, Hb. reflexivity. Qed.

Lemma verifyRequest_needs_body {Body} `{!Marshaler Body} (h : option Header) (b : option Body) pid :
  verifyRequest h (Some b) = Returns (inl pid) -> is_Some h /\ is_Some b.
Proof. unfold verifyRequest. destruct h, b; try discriminate. eauto. Qed.

(** *** [PushRecord] *)

Lemma PushRecord_reaches_put req pid body logpk key rec (w : W) :
  passes req pid body ->
  store_PubKey w (pr_ThreadID body) (pr_LogID body) = inl (Some logpk) ->
  store_ServiceKey w (pr_ThreadID body) = inl key ->
  RecordFromProto (pr_Record body) key = inl rec ->
  net_isKnown w (rec_Cid rec) = inl false ->
  rec_Verify rec logpk = None ->
  PushRecord s req w =
    handler (putAndReport s pid (pr_ThreadID body) (pr_LogID body) rec) w.
Proof.
  intros Hp Hpk Hsk Hrec Hknown Hver.
  unfold PushRecord. step_handler. rewrite (verified_passes _ _ _ _ Hp).
  rewrite Hpk; simpl. rewrite Hsk; simpl. rewrite Hrec; simpl. rewrite Hknown; simpl.
  rewrite Hver.
  destruct (putAndReport s pid (pr_ThreadID body) (pr_LogID body) rec w) as [[[r|r] w'] t];
    rewrite ?app_nil_r; reflexivity.
Qed.

(** C1. A [PushRecord] request that reaches the known-record check with a
    record whose cid is already stored locally gets the empty reply and no
    error; [PutRecord] is not called and the store is left as it was; the
    only call made is [registry.Apply(pid, tid, threadStatusDownloadDone)],
    and it is made exactly when the registry is present. *)
Theorem PushRecord_known_record_idempotent :
  forall (req : Request PushRecordRequest_Body) (pid : PeerID)
         (body : PushRecordRequest_Body) (logpk : PubKey) (key : option SymKey)
         (rec : R) (w : W),
    passes req pid body ->
    store_PubKey w (pr_ThreadID body) (pr_LogID body) = inl (Some logpk) ->
    store_ServiceKey w (pr_ThreadID body) = inl key ->
    RecordFromProto (pr_Record body) key = inl rec ->
    net_isKnown w (rec_Cid rec) = inl true ->
    PushRecord s req w =
      ((Some mkPushRecordReply, None), w,
       if tStat s then [Apply pid (pr_ThreadID body) threadStatusDownloadDone] else []) /\
    (forall t l c, PutRecord t l c ∉ (PushRecord s req w).2).
Proof.
  intros req pid body logpk key rec w Hp Hpk Hsk Hrec Hknown.
  assert (PushRecord s req w =
      ((Some mkPushRecordReply, None), w,
       if tStat s then [Apply pid (pr_ThreadID body) threadStatusDownloadDone] else [])) as E.
  { unfold PushRecord. step_handler. rewrite (verified_passes _ _ _ _ Hp).
    rewrite Hpk; simpl. rewrite Hsk; simpl. rewrite Hrec; simpl. rewrite Hknown; simpl.
    destruct (tStat s); reflexivity. }
  split; [exact E|].
  intros t l c. rewrite E; simpl. destruct (tStat s); in_list.
Qed.

(** C6. With the registry present, a [PushRecord] request that gets past
    the known-record check and the signature check emits
    [threadStatusDownloadStarted], calls [PutRecord], and emits exactly one
    terminal status after it: [threadStatusDownloadFailed] when [PutRecord]
    fails, the RPC then returning [Internal], and
    [threadStatusDownloadDone] when it succeeds, the RPC then returning the
    empty reply. *)
Theorem PushRecord_one_terminal_status :
  forall (req : Request PushRecordRequest_Body) (pid : PeerID)
         (body : PushRecordRequest_Body) (logpk : PubKey) (key : option SymKey)
         (rec : R) (w : W),
    tStat s = true ->
    passes req pid body ->
    store_PubKey w (pr_ThreadID body) (pr_LogID body) = inl (Some logpk) ->
    store_ServiceKey w (pr_ThreadID body) = inl key ->
    RecordFromProto (pr_Record body) key = inl rec ->
    net_isKnown w (rec_Cid rec) = inl false ->
    rec_Verify rec logpk = None ->
    let tid := pr_ThreadID body in
    let lid := pr_LogID body in
    let put := net_PutRecord w tid lid rec in
    let final := match put.2 with
                 | Some _ => threadStatusDownloadFailed
                 | None => threadStatusDownloadDone
                 end in
    PushRecord s req w =
      (match put.2 with
       | Some err => (None, Some (StatusErr Internal err))
       | None => (Some mkPushRecordReply, None)
       end,
       put.1,
       [Apply pid tid threadStatusDownloadStarted;
        PutRecord tid lid (rec_Cid rec);
        Apply pid tid final]) /\
    filter (fun e => terminal e = true) (PushRecord s req w).2 = [Apply pid tid final].
Proof.
  intros req pid body logpk key rec w Hreg Hp Hpk Hsk Hrec Hknown Hver tid lid put final.
  assert (PushRecord s req w =
      (match put.2 with
       | Some err => (None, Some (StatusErr Internal err))
       | None => (Some mkPushRecordReply, None)
       end,
       put.1,
       [Apply pid tid threadStatusDownloadStarted;
        PutRecord tid lid (rec_Cid rec);
        Apply pid tid final])) as E.
  { rewrite (PushRecord_reaches_put _ _ _ _ _ _ _ Hp Hpk Hsk Hrec Hknown Hver).
    unfold handler, putAndReport. rewrite Hreg. subst final put tid lid.
    destruct (net_PutRecord w (pr_ThreadID body) (pr_LogID body) rec) as [w' [err|]];
      reflexivity. }
  split; [exact E|].
  rewrite E. subst final. simpl. destruct (put.2); reflexivity.
Qed.

(** *** [checkServiceKey], [GetLogs] and the first steps of [GetRecords] *)

Lemma GetLogs_refused req pid body err (w : W) :
  passes req pid body ->
  checkServiceKey (gl_ThreadID body) (gl_ServiceKey body) w = Some err ->
  GetLogs req w = ((Some {| glr_Logs := [] |}, Some err), w, []).
Proof.
  intros Hp Hc. unfold GetLogs. step_handler.
  rewrite (verified_passes _ _ _ _ Hp). rewrite Hc. reflexivity.
Qed.

Lemma GetRecords_refused req pid body err (w : W) :
  passes req pid body ->
  checkServiceKey (gr_ThreadID body) (gr_ServiceKey body) w = Some err ->
  GetRecords MaxPullLimit s req w = ((Some {| grr_Logs := [] |}, Some err), w, []).
Proof.
  intros Hp Hc. unfold GetRecords. step_handler.
  rewrite (verified_passes _ _ _ _ Hp). rewrite Hc. reflexivity.
Qed.

Lemma checkServiceKey_None id k (w : W) :
  checkServiceKey id k w = None <->
  exists key, k = Some {| pk_Key := Some key |} /\ store_ServiceKey w id = inl (Some key).
Proof.
  unfold checkServiceKey. split.
  - destruct k as [[[key|]]|]; try discriminate.
    destruct (store_ServiceKey w id) as [[sk|]|err]; try discriminate.
    case_bool_decide; [|discriminate]. subst. eauto.
  - intros (key & -> & ->). rewrite bool_decide_eq_true_2; reflexivity.
Qed.

(** C3 (amended). [checkServiceKey] lets a request through exactly when it
    supplies a key and the store holds a service key for the thread with the
    same bytes.  Of the refusals: a request that supplies no key is refused
    [Unauthenticated], whatever the store holds; a request that supplies a
    key is refused [NotFound] when the store holds no service key for the
    thread and [Unauthenticated] when it holds a different one; a store
    error is refused [Internal].  A verified [GetLogs] or [GetRecords]
    request that is refused fails with that very error. *)
Theorem checkServiceKey_outcomes :
  forall (id : ThreadID) (k : option ProtoKey) (w : W),
    (checkServiceKey id k w = None <->
       exists key, k = Some {| pk_Key := Some key |} /\
                   store_ServiceKey w id = inl (Some key)) /\
    (k = None \/ k = Some {| pk_Key := None |} ->
       checkServiceKey id k w =
         Some (StatusMsg Unauthenticated "a service-key is required to get logs")) /\
    (forall key, k = Some {| pk_Key := Some key |} ->
       (store_ServiceKey w id = inl None ->
          checkServiceKey id k w = Some (StatusErr NotFound ErrThreadNotFound)) /\
       (forall sk, store_ServiceKey w id = inl (Some sk) -> key <> sk ->
          checkServiceKey id k w = Some (StatusMsg Unauthenticated "invalid service-key")) /\
       (forall err, store_ServiceKey w id = inr err ->
          checkServiceKey id k w = Some (StatusErr Internal err))) /\
    (forall req pid body err,
       passes req pid body -> gl_ThreadID body = id -> gl_ServiceKey body = k ->
       checkServiceKey id k w = Some err ->
       GetLogs req w = ((Some {| glr_Logs := [] |}, Some err), w, [])) /\
    (forall req pid body err,
       passes req pid body -> gr_ThreadID body = id -> gr_ServiceKey body = k ->
       checkServiceKey id k w = Some err ->
       GetRecords MaxPullLimit s req w = ((Some {| grr_Logs := [] |}, Some err), w, [])).
Proof.
  intros id k w. split; [apply checkServiceKey_None|].
  split; [intros [-> | ->]; reflexivity|].
  split.
  - intros key ->. unfold checkServiceKey. repeat split.
    + intros ->. reflexivity.
    + intros sk -> Hne. rewrite bool_decide_eq_false_2; [reflexivity|exact Hne].
    + intros err ->. reflexivity.
  - split.
    + intros req pid body err Hp <- <- Hc. eapply GetLogs_refused; eauto.
    + intros req pid body err Hp <- <- Hc. eapply GetRecords_refused; eauto.
Qed.

Lemma GetRecords_after_check req pid body (w : W) :
  passes req pid body ->
  checkServiceKey (gr_ThreadID body) (gr_ServiceKey body) w = None ->
  GetRecords MaxPullLimit s req w =
    match headsChanged body w with
    | (_, Some err) => ((None, Some err), w, [])
    | (false, None) => ((Some {| grr_Logs := [] |}, None), w, [])
    | (true, None) =>
        match store_GetThread w (gr_ThreadID body) with
        | (_, Some err) => ((None, Some err), w, [])
        | (info, None) =>
            if bool_decide (length (Logs info) = 0%nat)
            then ((Some {| grr_Logs := [] |}, None), w, [])
            else
              let '(sh, ev) :=
                fetchAll pid (gr_ThreadID body) (requested (gr_Logs body))
                  (MaxPullLimit ÷ Z.of_nat (length (Logs info))) (Logs info) w
                  {| failures := 0; replyLogs := [] |} in
              ((Some {| grr_Logs := replyLogs sh |}, None), w,
               ev ++ (if failures sh =? 0
                      then (if tStat s
                            then [Apply pid (gr_ThreadID body) threadStatusUploadDone]
                            else [])
                      else []))
        end
    end.
Proof.
  intros Hp Hc. unfold GetRecords. step_handler.
  rewrite (verified_passes _ _ _ _ Hp). rewrite Hc. simpl.
  destruct (headsChanged body w) as [[|] [herr|]]; simpl; try reflexivity.
  destruct (store_GetThread w (gr_ThreadID body)) as [info [gerr|]]; [reflexivity|].
  case_bool_decide; simpl; [reflexivity|].
  destruct (fetchAll _ _ _ _ _ _ _) as [sh ev]. simpl.
  destruct (failures sh =? 0); simpl; [destruct (tStat s)|]; simpl;
    rewrite ?app_nil_r; reflexivity.
Qed.

(** C4. For a [GetRecords] request that passes verification and the
    service-key check: if the heads edge computed from the offsets the
    caller supplied equals the stored heads edge, the reply is empty and
    nothing is fetched; and if the thread is unknown locally, the store
    holding no log of it (whether its heads-edge lookup answers with an
    edge or with thread-not-found), the reply is likewise empty and nothing
    is fetched. *)
Theorem GetRecords_fast_path :
  forall (req : Request GetRecordsRequest_Body) (pid : PeerID)
         (body : GetRecordsRequest_Body) (w : W),
    passes req pid body ->
    checkServiceKey (gr_ThreadID body) (gr_ServiceKey body) w = None ->
    (forall edge,
       store_HeadsEdge w (gr_ThreadID body) = inl edge ->
       ComputeHeadsEdge (suppliedHeads body) = edge ->
       GetRecords MaxPullLimit s req w = ((Some {| grr_Logs := [] |}, None), w, [])) /\
    (forall info,
       (forall err, store_HeadsEdge w (gr_ThreadID body) = inr err ->
                    errors_Is err ErrThreadNotFound = true) ->
       store_GetThread w (gr_ThreadID body) = (info, None) ->
       Logs info = [] ->
       GetRecords MaxPullLimit s req w = ((Some {| grr_Logs := [] |}, None), w, [])).
Proof.
  intros req pid body w Hp Hc. split.
  - intros edge He Heq.
    rewrite (GetRecords_after_check _ _ _ _ Hp Hc).
    unfold headsChanged. fold (suppliedHeads body). rewrite He, Heq, Z.eqb_refl.
    reflexivity.
  - intros info Hnf Hg Hl.
    rewrite (GetRecords_after_check _ _ _ _ Hp Hc), Hg, Hl.
    unfold headsChanged.
    destruct (store_HeadsEdge w (gr_ThreadID body)) as [edge|err].
    + destruct (negb _); reflexivity.
    + rewrite (Hnf err eq_refl). reflexivity.
Qed.

(** *** [PushLog] *)

Lemma PushLog_after_GetThread req pid body info gerr (w : W) :
  passes req pid body ->
  store_GetThread w (pl_ThreadID body) = (info, gerr) ->
  (forall err, gerr = Some err -> errors_Is err ErrThreadNotFound = true) ->
  PushLog req w =
    match pickUpKeys body info w with
    | (inr r, w1, t1) => (r, w1, t1)
    | (inl _, w1, t1) =>
        match pl_Log body with
        | None => (panicked, w1, t1)
        | Some l =>
            let lg := logFromProto l in
            let '(w2, cerr) := net_createExternalLogsIfNotExist w1 (pl_ThreadID body) [lg] in
            match cerr with
            | Some err =>
                ((None, Some (StatusErr Internal err)), w2,
                 t1 ++ [CreateExternalLogsIfNotExist (pl_ThreadID body) [lg]])
            | None =>
                ((Some mkPushLogReply, None), w2,
                 t1 ++ [CreateExternalLogsIfNotExist (pl_ThreadID body) [lg];
                        Schedule queueGetRecords pid (pl_ThreadID body) callPriorityLow
                                 updateRecordsFromPeer])
            end
        end
    end.
Proof.
  intros Hp Hg Hnf. unfold PushLog. step_handler.
  rewrite (verified_passes _ _ _ _ Hp). rewrite Hg.
  assert (forall X (k : M (Ret PushLogReply) X),
    (match
       (match gerr with
        | Some err =>
            if negb (errors_Is err ErrThreadNotFound)
            then (fun w0 => (inr (None, Some (StatusErr Internal err)), w0, []))
            else (fun w0 => (inl (), w0, []))
        | None => (fun w0 => (inl (), w0, []))
        end : M (Ret PushLogReply) unit) w
     with
     | (inl a, w1, t1) => let '(r, w2, t2) := k w1 in (r, w2, t1 ++ t2)
     | (inr x, w1, t1) => (inr x, w1, t1)
     end) = k w) as Hskip.
  { intros X k. destruct gerr as [err|].
    - rewrite (Hnf err eq_refl). simpl. destruct (k w) as [[r w2] t2]. reflexivity.
    - destruct (k w) as [[r w2] t2]. reflexivity. }
  rewrite Hskip. clear Hskip.
  destruct (pickUpKeys body info w) as [[[[]|r] w1] t1]; simpl; [|reflexivity].
  destruct (pl_Log body) as [l|]; simpl; [|rewrite app_nil_r; reflexivity].
  destruct (net_createExternalLogsIfNotExist w1 (pl_ThreadID body) _) as [w2 [err|]];
    simpl; rewrite ?app_nil_r; reflexivity.
Qed.

Lemma pickUpKeys_adds_service body info key (w : W) :
  AddServiceKey (pl_ThreadID body) key ∈ (pickUpKeys body info w).2 <->
  Defined (Key info) = false /\ pl_ServiceKey body = Some {| pk_Key := Some key |}.
Proof.
  unfold pickUpKeys. step_handler.
  destruct (Defined (Key info)); simpl.
  - destruct (CanRead (Key info)); simpl; [in_list|].
    destruct (pl_ReadKey body) as [[[k|]]|]; simpl; [|in_list..].
    destruct (store_AddReadKey w (pl_ThreadID body) k) as [w1 [e1|]]; simpl; in_list.
  - destruct (pl_ServiceKey body) as [[[k|]]|]; simpl; [|in_list..].
    destruct (store_AddServiceKey w (pl_ThreadID body) k) as [w1 [e1|]]; simpl; in_list.
Qed.

Lemma pickUpKeys_adds_read body info key (w : W) :
  AddReadKey (pl_ThreadID body) key ∈ (pickUpKeys body info w).2 <->
  Defined (Key info) = true /\ CanRead (Key info) = false /\
  pl_ReadKey body = Some {| pk_Key := Some key |}.
Proof.
  unfold pickUpKeys. step_handler.
  destruct (Defined (Key info)); simpl.
  - destruct (CanRead (Key info)); simpl; [in_list|].
    destruct (pl_ReadKey body) as [[[k|]]|]; simpl; [|in_list..].
    destruct (store_AddReadKey w (pl_ThreadID body) k) as [w1 [e1|]]; simpl; in_list.
  - destruct (pl_ServiceKey body) as [[[k|]]|]; simpl; [|in_list..].
    destruct (store_AddServiceKey w (pl_ThreadID body) k) as [w1 [e1|]]; simpl; in_list.
Qed.

(** C5. For a verified [PushLog] request, once [GetThread] has answered
    (with the thread, or with thread-not-found): [AddServiceKey] is called
    with a supplied service key exactly when the thread has no service key
    locally, and [AddReadKey] with a supplied read key exactly when the
    thread has a service key but no read key.  A thread that has no service
    key and is sent none makes the RPC fail [NotFound], nothing being
    written.  In every other case, the store accepting the writes, the log
    the request provides (its id, its public key, its addresses and its
    head, as sent) is handed to [createExternalLogsIfNotExist], then
    [updateRecordsFromPeer] is scheduled at low priority for the caller and
    the thread on the records queue, and the empty reply is returned.  A
    request that provides no log makes the handler panic at that point,
    after the key has been persisted and before anything is scheduled. *)
Theorem PushLog_key_uptake_and_schedule :
  forall (req : Request PushLogRequest_Body) (pid : PeerID)
         (body : PushLogRequest_Body) (info : Info) (gerr : option error) (w : W),
    passes req pid body ->
    store_GetThread w (pl_ThreadID body) = (info, gerr) ->
    (forall err, gerr = Some err -> errors_Is err ErrThreadNotFound = true) ->
    let tid := pl_ThreadID body in
    let upsert_and_schedule (plog : pbLog) :=
      [CreateExternalLogsIfNotExist tid
         [ {| li_ID := pl_ID plog; li_PubKey := pl_PubKey plog;
              li_Addrs := map pa_Multiaddr (pl_Addrs plog); li_Head := pl_Head plog |} ];
       Schedule queueGetRecords pid tid callPriorityLow updateRecordsFromPeer] in
    let upserted (plog : pbLog) (w1 w2 : W) :=
      net_createExternalLogsIfNotExist w1 tid
        [ {| li_ID := pl_ID plog; li_PubKey := pl_PubKey plog;
             li_Addrs := map pa_Multiaddr (pl_Addrs plog); li_Head := pl_Head plog |} ]
      = (w2, None) in
    (forall key, AddServiceKey tid key ∈ (PushLog req w).2 <->
       Defined (Key info) = false /\ pl_ServiceKey body = Some {| pk_Key := Some key |}) /\
    (forall key, AddReadKey tid key ∈ (PushLog req w).2 <->
       Defined (Key info) = true /\ CanRead (Key info) = false /\
       pl_ReadKey body = Some {| pk_Key := Some key |}) /\
    (Defined (Key info) = false ->
     pl_ServiceKey body = None \/ pl_ServiceKey body = Some {| pk_Key := None |} ->
     PushLog req w = ((None, Some (StatusErr NotFound ErrThreadNotFound)), w, [])) /\
    (forall key w1,
       Defined (Key info) = false ->
       pl_ServiceKey body = Some {| pk_Key := Some key |} ->
       store_AddServiceKey w tid key = (w1, None) ->
       (forall plog w2, pl_Log body = Some plog -> upserted plog w1 w2 ->
          PushLog req w =
            ((Some mkPushLogReply, None), w2,
             AddServiceKey tid key :: upsert_and_schedule plog)) /\
       (pl_Log body = None ->
          PushLog req w = (panicked, w1, [AddServiceKey tid key]))) /\
    (forall key w1,
       Defined (Key info) = true -> CanRead (Key info) = false ->
       pl_ReadKey body = Some {| pk_Key := Some key |} ->
       store_AddReadKey w tid key = (w1, None) ->
       (forall plog w2, pl_Log body = Some plog -> upserted plog w1 w2 ->
          PushLog req w =
            ((Some mkPushLogReply, None), w2,
             AddReadKey tid key :: upsert_and_schedule plog)) /\
       (pl_Log body = None ->
          PushLog req w = (panicked, w1, [AddReadKey tid key]))) /\
    (Defined (Key info) = true ->
     CanRead (Key info) = true \/ pl_ReadKey body = None \/
       pl_ReadKey body = Some {| pk_Key := None |} ->
     (forall plog w2, pl_Log body = Some plog -> upserted plog w w2 ->
        PushLog req w = ((Some mkPushLogReply, None), w2, upsert_and_schedule plog)) /\
     (pl_Log body = None -> PushLog req w = (panicked, w, []))).
Proof.
  intros req pid body info gerr w Hp Hg Hnf tid ups upd.
  pose proof (PushLog_after_GetThread _ _ _ _ _ _ Hp Hg Hnf) as E.
  fold tid in E. subst ups upd. cbv beta.
  assert (forall ev : Event,
    (forall t lgs, ev <> CreateExternalLogsIfNotExist t lgs) ->
    (forall q p t pr fn, ev <> Schedule q p t pr fn) ->
    ev ∈ (PushLog req w).2 <-> ev ∈ (pickUpKeys body info w).2) as Hin.
  { intros ev Hc Hs. rewrite E.
    destruct (pickUpKeys body info w) as [[[[]|r] w1] t1]; simpl; [|tauto].
    destruct (pl_Log body) as [l|]; simpl; [|tauto].
    destruct (net_createExternalLogsIfNotExist w1 tid _) as [w2 [e|]]; simpl;
      rewrite elem_of_app, ?elem_of_cons, elem_of_nil;
      (split; [|tauto]); intros [Ht|Hx]; try assumption.
    - destruct Hx as [->|[]]. exfalso. eapply Hc; reflexivity.
    - destruct Hx as [->|[->|[]]]; exfalso; [eapply Hc|eapply Hs]; reflexivity. }
  split; [|split; [|split; [|split; [|split]]]].
  - intros key. rewrite Hin by (intros; discriminate). apply pickUpKeys_adds_service.
  - intros key. rewrite Hin by (intros; discriminate). apply pickUpKeys_adds_read.
  - intros Hd Hk. rewrite E. unfold pickUpKeys. rewrite Hd. simpl.
    destruct Hk as [-> | ->]; reflexivity.
  - intros key w1 Hd Hk Ha.
    assert (pickUpKeys body info w = (inl tt, w1, [AddServiceKey tid key])) as Hpick.
    { unfold pickUpKeys. rewrite Hd, Hk. simpl. fold tid. step_handler.
      rewrite Ha. reflexivity. }
    rewrite E, Hpick. split.
    + intros plog w2 -> Hc. unfold logFromProto, addrsFromProto. rewrite Hc. reflexivity.
    + intros ->. reflexivity.
  - intros key w1 Hd Hr Hk Ha.
    assert (pickUpKeys body info w = (inl tt, w1, [AddReadKey tid key])) as Hpick.
    { unfold pickUpKeys. rewrite Hd, Hr, Hk. simpl. fold tid. step_handler.
      rewrite Ha. reflexivity. }
    rewrite E, Hpick. split.
    + intros plog w2 -> Hc. unfold logFromProto, addrsFromProto. rewrite Hc. reflexivity.
    + intros ->. reflexivity.
  - intros Hd Hr.
    assert (pickUpKeys body info w = (inl tt, w, [])) as Hpick.
    { unfold pickUpKeys. rewrite Hd. simpl.
      destruct Hr as [-> | [-> | ->]]; simpl; [reflexivity| |];
        destruct (CanRead (Key info)); reflexivity. }
    rewrite E, Hpick. split.
    + intros plog w2 -> Hc. unfold logFromProto, addrsFromProto. rewrite Hc. reflexivity.
    + intros ->. reflexivity.
Qed.

(** *** [ExchangeEdges] *)

Lemma exchangeEntry_both pid entry al hl (w : W) :
  store_AddrsEdge w (te_ThreadID entry) = inl al ->
  store_HeadsEdge w (te_ThreadID entry) = inl hl ->
  exchangeEntry s pid entry w =
    (inl {| ed_ThreadID := te_ThreadID entry; ed_Exists := true;
            ed_AddressEdge := al; ed_HeadsEdge := hl |}, w,
     (if negb (al =? te_AddressEdge entry)
      then [Schedule queueGetLogs pid (te_ThreadID entry) callPriorityLow updateLogsFromPeer]
      else []) ++
     (if negb (hl =? te_HeadsEdge entry)
      then [Schedule queueGetRecords pid (te_ThreadID entry) callPriorityLow
                     updateRecordsFromPeer]
      else if tStat s
           then [Apply pid (te_ThreadID entry) threadStatusDownloadDone;
                 Apply pid (te_ThreadID entry) threadStatusUploadDone]
           else [])).
Proof.
  intros Ha Hh. unfold exchangeEntry, localEdges. step_handler. rewrite Ha, Hh. simpl.
  destruct (al =? te_AddressEdge entry), (hl =? te_HeadsEdge entry), (tStat s); reflexivity.
Qed.

Lemma exchangeEntry_no_addrs pid entry err (w : W) :
  store_AddrsEdge w (te_ThreadID entry) = inr err ->
  errors_Is err ErrThreadNotFound = true ->
  exchangeEntry s pid entry w =
    (inl {| ed_ThreadID := te_ThreadID entry; ed_Exists := false;
            ed_AddressEdge := 0; ed_HeadsEdge := 0 |}, w,
     [Schedule queueGetLogs pid (te_ThreadID entry) callPriorityHigh updateLogsThenSubscribe]).
Proof.
  intros Ha His. unfold exchangeEntry, localEdges. step_handler. rewrite Ha, His. reflexivity.
Qed.

Lemma exchangeEntry_no_heads pid entry al err (w : W) :
  store_AddrsEdge w (te_ThreadID entry) = inl al ->
  store_HeadsEdge w (te_ThreadID entry) = inr err ->
  errors_Is err ErrThreadNotFound = true ->
  exchangeEntry s pid entry w =
    (inl {| ed_ThreadID := te_ThreadID entry; ed_Exists := false;
            ed_AddressEdge := 0; ed_HeadsEdge := 0 |}, w,
     [Schedule queueGetRecords pid (te_ThreadID entry) callPriorityLow updateRecordsFromPeer]).
Proof.
  intros Ha Hh His. unfold exchangeEntry, localEdges. step_handler.
  rewrite Ha, Hh, His. reflexivity.
Qed.

Lemma exchangeEntry_answered pid entry (w : W) :
  edgesAnswered w [entry] ->
  exists e tr, exchangeEntry s pid entry w = (inl e, w, tr).
Proof.
  intros Hans. destruct (Hans entry) as [Ha Hh]; [apply list_elem_of_singleton; reflexivity|].
  destruct (store_AddrsEdge w (te_ThreadID entry)) as [al|err] eqn:Ea.
  - destruct (store_HeadsEdge w (te_ThreadID entry)) as [hl|err] eqn:Eh.
    + rewrite (exchangeEntry_both _ _ _ _ _ Ea Eh). eauto.
    + rewrite (exchangeEntry_no_heads _ _ _ _ _ Ea Eh (Hh _ _ eq_refl eq_refl)). eauto.
  - rewrite (exchangeEntry_no_addrs _ _ _ _ Ea (Ha _ eq_refl)). eauto.
Qed.

Lemma exchangeLoop_runs pid (w : W) entries :
  edgesAnswered w entries ->
  forall acc,
  exists outs : list (ExchangeEdgesReply_ThreadEdges * list Event),
    exchangeLoop s pid entries acc w = (inl (acc ++ outs.*1), w, concat outs.*2) /\
    Forall2 (fun entry out => exchangeEntry s pid entry w = (inl out.1, w, out.2)) entries outs.
Proof.
  induction entries as [|entry rest IH]; intros Hans acc.
  - exists []. simpl. rewrite app_nil_r. split; [reflexivity|constructor].
  - destruct (exchangeEntry_answered pid entry w) as (e & tr & He).
    { intros x Hx. apply Hans. apply list_elem_of_singleton in Hx. subst. left. }
    destruct (IH (fun x Hx => Hans x (list_elem_of_further _ _ _ Hx)) (acc ++ [e]))
      as (outs & Hloop & Hall).
    exists ((e, tr) :: outs). split.
    + simpl. unfold mbind, M_bind. rewrite He, Hloop. simpl.
      rewrite <- app_assoc. reflexivity.
    + constructor; [exact He|exact Hall].
Qed.

Lemma ExchangeEdges_runs req pid body (w : W) :
  passes req pid body ->
  edgesAnswered w (ee_Threads body) ->
  exists outs : list (ExchangeEdgesReply_ThreadEdges * list Event),
    ExchangeEdges s req w = ((Some {| eer_Edges := outs.*1 |}, None), w, concat outs.*2) /\
    Forall2 (fun entry out => exchangeEntry s pid entry w = (inl out.1, w, out.2))
            (ee_Threads body) outs.
Proof.
  intros Hp Hans.
  destruct (exchangeLoop_runs pid w _ Hans []) as (outs & Hloop & Hall).
  exists outs. split; [|exact Hall].
  unfold ExchangeEdges. step_handler. rewrite (verified_passes _ _ _ _ Hp).
  rewrite Hloop. simpl. rewrite app_nil_r. reflexivity.
Qed.

(** C2. In a verified [ExchangeEdges] request none of whose entries runs
    into a store failure, the [i]-th entry gets the [i]-th reply entry and
    its own stretch of the calls made, and for it:
    - when both local edges are computable, the reply entry has
      [Exists = true] and carries the local addrs and heads edges; a
      low-priority [updateLogsFromPeer] is scheduled iff the addrs edges
      differ, a low-priority [updateRecordsFromPeer] iff the heads edges
      differ, and nothing else is scheduled;
    - when the thread has no local addrs edge, the reply entry has
      [Exists = false] and the one call made schedules, at high priority,
      the function that runs [updateLogsFromPeer] and, if that succeeds and
      pubsub is on, subscribes the thread's topic;
    - when the addrs edge exists but the heads edge does not, the reply
      entry has [Exists = false] and the one call made schedules a
      low-priority [updateRecordsFromPeer]. *)
Theorem ExchangeEdges_per_entry :
  forall (req : Request ExchangeEdgesRequest_Body) (pid : PeerID)
         (body : ExchangeEdgesRequest_Body) (w : W),
    passes req pid body ->
    edgesAnswered w (ee_Threads body) ->
    exists outs : list (ExchangeEdgesReply_ThreadEdges * list Event),
      ExchangeEdges s req w = ((Some {| eer_Edges := outs.*1 |}, None), w, concat outs.*2) /\
      length outs = length (ee_Threads body) /\
      forall i entry, ee_Threads body !! i = Some entry ->
        exists e tr, outs !! i = Some (e, tr) /\
          let tid := te_ThreadID entry in
          (forall al hl,
             store_AddrsEdge w tid = inl al -> store_HeadsEdge w tid = inl hl ->
             e = {| ed_ThreadID := tid; ed_Exists := true;
                    ed_AddressEdge := al; ed_HeadsEdge := hl |} /\
             (Schedule queueGetLogs pid tid callPriorityLow updateLogsFromPeer ∈ tr <->
                al <> te_AddressEdge entry) /\
             (Schedule queueGetRecords pid tid callPriorityLow updateRecordsFromPeer ∈ tr <->
                hl <> te_HeadsEdge entry) /\
             (forall q p t prio fn, Schedule q p t prio fn ∈ tr ->
                p = pid /\ t = tid /\ prio = callPriorityLow /\
                ((q = queueGetLogs /\ fn = updateLogsFromPeer) \/
                 (q = queueGetRecords /\ fn = updateRecordsFromPeer)))) /\
          (forall err,
             store_AddrsEdge w tid = inr err ->
             e = {| ed_ThreadID := tid; ed_Exists := false;
                    ed_AddressEdge := 0; ed_HeadsEdge := 0 |} /\
             tr = [Schedule queueGetLogs pid tid callPriorityHigh updateLogsThenSubscribe] /\
             (forall answer,
                (invoke s answer updateLogsThenSubscribe pid tid).1 !! 0%nat =
                  Some (CallUpdateLogsFromPeer pid tid) /\
                (CallPubSubAdd tid ∈ (invoke s answer updateLogsThenSubscribe pid tid).1 <->
                   answer (CallUpdateLogsFromPeer pid tid) = None /\ ps s = true))) /\
          (forall al err,
             store_AddrsEdge w tid = inl al -> store_HeadsEdge w tid = inr err ->
             e = {| ed_ThreadID := tid; ed_Exists := false;
                    ed_AddressEdge := 0; ed_HeadsEdge := 0 |} /\
             tr = [Schedule queueGetRecords pid tid callPriorityLow updateRecordsFromPeer]).
Proof.
  intros req pid body w Hp Hans.
  destruct (ExchangeEdges_runs _ _ _ _ Hp Hans) as (outs & Hrun & Hall).
  exists outs. split; [exact Hrun|]. split; [symmetry; eapply Forall2_length; eauto|].
  intros i entry Hi.
  destruct (Forall2_lookup_l _ _ _ _ _ Hall Hi) as ([e tr] & Ho & He). simpl in He.
  exists e, tr. split; [exact Ho|]. intros tid.
  destruct (Hans entry) as [Hna Hnh]; [eapply list_elem_of_lookup_2; eauto|].
  fold tid in Hna, Hnh.
  split; [|split].
  - intros al hl Ea Eh. rewrite (exchangeEntry_both _ _ _ _ _ Ea Eh) in He.
    fold tid in He. injection He as <- <-.
    split; [reflexivity|].
    destruct (Z.eqb_spec al (te_AddressEdge entry)), (Z.eqb_spec hl (te_HeadsEdge entry)),
      (tStat s); simpl; repeat split; intros; list_cases.
  - intros err Ea. rewrite (exchangeEntry_no_addrs _ _ _ _ Ea (Hna _ Ea)) in He.
    fold tid in He. injection He as <- <-.
    split; [reflexivity|]. split; [reflexivity|].
    intros answer. unfold invoke.
    destruct (answer (CallUpdateLogsFromPeer pid tid)) as [e|]; simpl.
    + split; [reflexivity|]. in_list.
    + destruct (ps s); simpl; (split; [reflexivity|]); in_list.
  - intros al err Ea Eh. rewrite (exchangeEntry_no_heads _ _ _ _ _ Ea Eh (Hnh _ _ Ea Eh)) in He.
    fold tid in He. injection He as <- <-. split; reflexivity.
Qed.

(** C10. In a verified [ExchangeEdges] request none of whose entries runs
    into a store failure, for every entry whose thread has both local edges:
    [threadStatusDownloadDone] and [threadStatusUploadDone] are applied for
    the caller and the thread exactly when the registry is present and the
    local heads edge equals the remote one.  This holds also when the addrs
    edges differ: the calls made for the entry are then the low-priority
    [updateLogsFromPeer] followed by the two statuses. *)
Theorem ExchangeEdges_done_iff_heads_equal :
  forall (req : Request ExchangeEdgesRequest_Body) (pid : PeerID)
         (body : ExchangeEdgesRequest_Body) (w : W),
    passes req pid body ->
    edgesAnswered w (ee_Threads body) ->
    exists outs : list (ExchangeEdgesReply_ThreadEdges * list Event),
      ExchangeEdges s req w = ((Some {| eer_Edges := outs.*1 |}, None), w, concat outs.*2) /\
      forall i entry al hl,
        ee_Threads body !! i = Some entry ->
        store_AddrsEdge w (te_ThreadID entry) = inl al ->
        store_HeadsEdge w (te_ThreadID entry) = inl hl ->
        exists e tr, outs !! i = Some (e, tr) /\
          let tid := te_ThreadID entry in
          (Apply pid tid threadStatusDownloadDone ∈ tr <->
             tStat s = true /\ hl = te_HeadsEdge entry) /\
          (Apply pid tid threadStatusUploadDone ∈ tr <->
             tStat s = true /\ hl = te_HeadsEdge entry) /\
          (al <> te_AddressEdge entry -> hl = te_HeadsEdge entry ->
             tr = Schedule queueGetLogs pid tid callPriorityLow updateLogsFromPeer ::
                  (if tStat s
                   then [Apply pid tid threadStatusDownloadDone;
                         Apply pid tid threadStatusUploadDone]
                   else [])).
Proof.
  intros req pid body w Hp Hans.
  destruct (ExchangeEdges_runs _ _ _ _ Hp Hans) as (outs & Hrun & Hall).
  exists outs. split; [exact Hrun|].
  intros i entry al hl Hi Ea Eh.
  destruct (Forall2_lookup_l _ _ _ _ _ Hall Hi) as ([e tr] & Ho & He). simpl in He.
  exists e, tr. split; [exact Ho|]. intros tid.
  rewrite (exchangeEntry_both _ _ _ _ _ Ea Eh) in He. fold tid in He.
  injection He as <- <-.
  destruct (Z.eqb_spec al (te_AddressEdge entry)), (Z.eqb_spec hl (te_HeadsEdge entry)),
    (tStat s); simpl; repeat split; intros; list_cases.
Qed.

(** *** [GetRecords]: the per-log fetches *)

Lemma wrap32_small z : - 2^31 <= z < 2^31 -> wrap32 z = z.
Proof. intros Hz. unfold wrap32. rewrite Z.mod_small; lia. Qed.

Lemma wrap32_add a b : wrap32 (wrap32 a + b) = wrap32 (a + b).
Proof.
  unfold wrap32.
  replace ((a + 2^31) mod 2^32 - 2^31 + b + 2^31) with ((a + 2^31) mod 2^32 + b) by lia.
  rewrite Z.add_mod_idemp_l by lia. f_equal. f_equal. lia.
Qed.

Lemma wrap32_idem z : wrap32 (wrap32 z) = wrap32 z.
Proof. pose proof (wrap32_add z 0) as H. rewrite !Z.add_0_r in H. exact H. Qed.

Lemma minInt_min x y : minInt x y = Z.min x y.
Proof. unfold minInt. destruct (Z.ltb_spec x y); lia. Qed.

Lemma requested_snoc logs l :
  requested (logs ++ [l]) = <[le_LogID l := l]> (requested logs).
Proof. unfold requested. rewrite foldl_snoc. reflexivity. Qed.

Lemma requested_lookup logs lid :
  requested logs !! lid = callerEntry logs lid.
Proof.
  unfold callerEntry. induction logs as [|l logs IH] using rev_ind.
  - reflexivity.
  - rewrite requested_snoc, filter_app.
    destruct (decide (le_LogID l = lid)) as [E|N].
    + rewrite E, lookup_insert_eq.
      rewrite (filter_cons_True _ l []) by exact E.
      rewrite filter_nil, last_snoc. reflexivity.
    + rewrite lookup_insert_ne by exact N.
      rewrite (filter_cons_False _ l []) by exact N.
      rewrite filter_nil, app_nil_r. exact IH.
Qed.

Lemma callerEntry_absent logs lid :
  (forall l, l ∈ logs -> le_LogID l <> lid) -> callerEntry logs lid = None.
Proof.
  intros Habs. unfold callerEntry.
  induction logs as [|l logs IH]; [reflexivity|].
  rewrite filter_cons_False by (apply Habs; left).
  apply IH. intros x Hx. apply Habs. right. exact Hx.
Qed.

Lemma callerEntry_names logs lid opts :
  callerEntry logs lid = Some opts -> opts ∈ logs /\ le_LogID opts = lid.
Proof.
  unfold callerEntry. intros Hl. apply last_Some_elem_of in Hl.
  apply list_elem_of_filter in Hl. tauto.
Qed.

Lemma NoDup_fmap_same {A K} (f : A -> K) (l : list A) x y :
  NoDup (f <$> l) -> x ∈ l -> y ∈ l -> f x = f y -> x = y.
Proof.
  induction l as [|a l IH]; intros Hnd Hx Hy Hf; [inversion Hx|].
  rewrite fmap_cons in Hnd. apply NoDup_cons in Hnd as [Hna Hnd].
  apply elem_of_cons in Hx as [->|Hx]; apply elem_of_cons in Hy as [->|Hy].
  - reflexivity.
  - exfalso. apply Hna. rewrite Hf. apply list_elem_of_fmap_2, Hy.
  - exfalso. apply Hna. rewrite <- Hf. apply list_elem_of_fmap_2, Hx.
  - apply IH; assumption.
Qed.

Lemma callerEntry_present logs lid l :
  l ∈ logs -> le_LogID l = lid ->
  exists opts, callerEntry logs lid = Some opts /\ opts ∈ logs /\ le_LogID opts = lid /\
               (NoDup (le_LogID <$> logs) -> opts = l).
Proof.
  intros Hl Hid. unfold callerEntry.
  assert (l ∈ filter (fun l => le_LogID l = lid) logs) as Hf
    by (apply list_elem_of_filter; tauto).
  destruct (last (filter (fun l => le_LogID l = lid) logs)) as [opts|] eqn:Hlast.
  - exists opts. split; [reflexivity|].
    destruct (callerEntry_names logs lid opts Hlast) as [Ho Hoid].
    repeat split; try assumption.
    intros Hnd. eapply NoDup_fmap_same; eauto. congruence.
  - apply last_None in Hlast. rewrite Hlast in Hf. inversion Hf.
Qed.

Section Fetch.

Variables (pid : PeerID) (tid : ThreadID).
Variable reqd : gmap PeerID GetRecordsRequest_Body_LogEntry.
Variable limit : Z.
Variable w : W.

Lemma fetchTask_spec lg sh :
  wrap32 (failures sh) = failures sh ->
  fetchTask pid tid (li_ID lg) (fetchArgs reqd limit lg).1.1 (fetchArgs reqd limit lg).1.2
            (fetchArgs reqd limit lg).2 w sh =
    ({| failures := wrap32 (failures sh + Z.of_nat (taskFailures reqd limit w tid lg));
        replyLogs := replyLogs sh ++ option_list (taskEntry reqd limit w tid lg) |},
     taskEvents pid reqd limit w tid lg).
Proof.
  intros Hr.
  unfold fetchTask, taskEvents, taskEntry, taskFailures, converted, fetched, descriptor, fetchArgs.
  destruct (reqd !! li_ID lg) as [opts|]; simpl;
    destruct (net_getLocalRecords w tid (li_ID lg) _ _) as [recs [e|]]; simpl;
    destruct (convertRecords w recs []) as [[|pr prs] [|]]; simpl;
    rewrite ?wrap32_add, ?Z.add_0_r, ?Hr, ?app_nil_r; try reflexivity;
    rewrite <- Z.add_assoc; reflexivity.
Qed.

Lemma fetchAll_spec logs : forall sh,
  wrap32 (failures sh) = failures sh ->
  fetchAll pid tid reqd limit logs w sh =
    ({| failures :=
          wrap32 (failures sh + Z.of_nat (sum_list (taskFailures reqd limit w tid <$> logs)));
        replyLogs := replyLogs sh ++ omap (taskEntry reqd limit w tid) logs |},
     concat (taskEvents pid reqd limit w tid <$> logs)).
Proof.
  induction logs as [|lg rest IH]; intros sh Hr.
  - simpl. rewrite Z.add_0_r, Hr, app_nil_r. destruct sh; reflexivity.
  - simpl fetchAll.
    pose proof (fetchTask_spec lg sh Hr) as Ht.
    destruct (fetchArgs reqd limit lg) as [[off lim] pblg]. simpl in Ht. rewrite Ht.
    rewrite IH by (simpl; apply wrap32_idem).
    simpl. rewrite wrap32_add. f_equal. f_equal.
    + rewrite Nat2Z.inj_add, Z.add_assoc. reflexivity.
    + rewrite <- app_assoc. f_equal.
      destruct (taskEntry reqd limit w tid lg); reflexivity.
Qed.

Lemma taskFailures_le lg : (taskFailures reqd limit w tid lg <= 2)%nat.
Proof.
  unfold taskFailures.
  destruct ((fetched reqd limit w tid lg).2), ((converted reqd limit w tid lg).2); lia.
Qed.

Lemma sum_taskFailures_le logs :
  (sum_list (taskFailures reqd limit w tid <$> logs) <= 2 * length logs)%nat.
Proof.
  induction logs as [|lg rest IH]; simpl; [lia|].
  pose proof (taskFailures_le lg). unfold fmap in *. lia.
Qed.

Lemma sum_taskFailures_zero logs :
  sum_list (taskFailures reqd limit w tid <$> logs) = 0%nat <->
  forall lg, lg ∈ logs -> taskFailures reqd limit w tid lg = 0%nat.
Proof.
  induction logs as [|lg rest IH]; simpl.
  - split; [intros _ lg Hl; inversion Hl|reflexivity].
  - unfold fmap in *. split.
    + intros Hs x Hx. apply elem_of_cons in Hx as [->|Hx]; [lia|].
      apply IH; [lia|exact Hx].
    + intros Hall. rewrite (Hall lg) by left.
      apply IH. intros x Hx. apply Hall. right. exact Hx.
Qed.

End Fetch.

Lemma elem_of_concat {A} (x : A) (ls : list (list A)) :
  x ∈ concat ls <-> exists l, x ∈ l /\ l ∈ ls.
Proof.
  induction ls as [|l0 ls IH]; simpl.
  - split; [intros Hx; inversion Hx|intros (l & _ & Hl); inversion Hl].
  - rewrite elem_of_app, IH. split.
    + intros [Hx|(l & Hx & Hl)]; [exists l0; split; [exact Hx|left]|].
      exists l. split; [exact Hx|right; exact Hl].
    + intros (l & Hx & Hl). apply elem_of_cons in Hl as [->|Hl]; [left; exact Hx|].
      right. eauto.
Qed.

Lemma GetRecords_slow_path req pid body info (w : W) :
  passes req pid body ->
  checkServiceKey (gr_ThreadID body) (gr_ServiceKey body) w = None ->
  headsChanged body w = (true, None) ->
  store_GetThread w (gr_ThreadID body) = (info, None) ->
  Logs info <> [] ->
  let tid := gr_ThreadID body in
  let reqd := requested (gr_Logs body) in
  let limit := MaxPullLimit ÷ Z.of_nat (length (Logs info)) in
  GetRecords MaxPullLimit s req w =
    ((Some {| grr_Logs := omap (taskEntry reqd limit w tid) (Logs info) |}, None), w,
     concat (taskEvents pid reqd limit w tid <$> Logs info) ++
     (if wrap32 (Z.of_nat (sum_list (taskFailures reqd limit w tid <$> Logs info))) =? 0
      then (if tStat s then [Apply pid tid threadStatusUploadDone] else [])
      else [])).
Proof.
  intros Hp Hc Hh Hg Hne tid reqd limit.
  rewrite (GetRecords_after_check _ _ _ _ Hp Hc), Hh, Hg.
  rewrite bool_decide_eq_false_2 by (destruct (Logs info); [congruence|discriminate]).
  fold tid reqd limit.
  rewrite fetchAll_spec by reflexivity. simpl. reflexivity.
Qed.

Lemma elem_of_taskEvents_fetch pid reqd limit (w : W) tid logs t l off lim :
  GetLocalRecords t l off lim ∈ concat (taskEvents pid reqd limit w tid <$> logs) <->
  exists lg, lg ∈ logs /\ t = tid /\ l = li_ID lg /\
             off = (fetchArgs reqd limit lg).1.1 /\ lim = (fetchArgs reqd limit lg).1.2.
Proof.
  rewrite elem_of_concat. split.
  - intros (evs & Hin & Hevs). apply list_elem_of_fmap in Hevs as (lg & -> & Hlg).
    exists lg. split; [exact Hlg|].
    unfold taskEvents in Hin. destruct (fetchArgs reqd limit lg) as [[o m] d]. simpl.
    apply elem_of_cons in Hin as [Heq|Hin]; [injection Heq as -> -> -> ->; tauto|].
    destruct ((fetched reqd limit w tid lg).2) as [e|]; [|inversion Hin].
    destruct (decide (e = ErrOffsetIsMissing)); list_cases.
  - intros (lg & Hlg & -> & -> & -> & ->).
    exists (taskEvents pid reqd limit w tid lg). split.
    + unfold taskEvents. destruct (fetchArgs reqd limit lg) as [[o m] d]. simpl. left.
    + apply list_elem_of_fmap. eauto.
Qed.

Lemma elem_of_taskEvents_schedule pid reqd limit (w : W) tid logs :
  Schedule queueGetRecords pid tid callPriorityHigh updateRecordsFromPeer
    ∈ concat (taskEvents pid reqd limit w tid <$> logs) <->
  exists lg, lg ∈ logs /\ (fetched reqd limit w tid lg).2 = Some ErrOffsetIsMissing.
Proof.
  rewrite elem_of_concat. split.
  - intros (evs & Hin & Hevs). apply list_elem_of_fmap in Hevs as (lg & -> & Hlg).
    exists lg. split; [exact Hlg|].
    unfold taskEvents in Hin. destruct (fetchArgs reqd limit lg) as [[o m] d].
    apply elem_of_cons in Hin as [Heq|Hin]; [discriminate|].
    destruct ((fetched reqd limit w tid lg).2) as [e|]; [|inversion Hin].
    destruct (decide (e = ErrOffsetIsMissing)) as [->|]; [reflexivity|inversion Hin].
  - intros (lg & Hlg & Hf).
    exists (taskEvents pid reqd limit w tid lg). split.
    + unfold taskEvents. destruct (fetchArgs reqd limit lg) as [[o m] d].
      rewrite Hf. rewrite decide_True by reflexivity. right. left.
    + apply list_elem_of_fmap. eauto.
Qed.

Lemma not_elem_of_taskEvents_apply pid reqd limit (w : W) tid logs p t st :
  Apply p t st ∉ concat (taskEvents pid reqd limit w tid <$> logs).
Proof.
  rewrite elem_of_concat. intros (evs & Hin & Hevs).
  apply list_elem_of_fmap in Hevs as (lg & -> & Hlg).
  unfold taskEvents in Hin. destruct (fetchArgs reqd limit lg) as [[o m] d].
  apply elem_of_cons in Hin as [Heq|Hin]; [discriminate|].
  destruct ((fetched reqd limit w tid lg).2) as [e|]; [|inversion Hin].
  destruct (decide (e = ErrOffsetIsMissing)); list_cases.
Qed.

Lemma convertRecords_all (w : W) recs prs :
  convertsTo w recs prs -> forall acc, convertRecords w recs acc = (acc ++ prs, false).
Proof.
  unfold convertsTo. induction 1 as [|r pr recs prs Hr _ IH]; intros acc; simpl.
  - rewrite app_nil_r. reflexivity.
  - rewrite Hr, IH, <- app_assoc. reflexivity.
Qed.

Lemma convertRecords_stop (w : W) recs : forall k r e prs acc,
  recs !! k = Some r -> RecordToProto w r = inr e ->
  convertsTo w (take k recs) prs ->
  convertRecords w recs acc = (acc ++ prs, true).
Proof.
  unfold convertsTo.
  induction recs as [|r0 rest IH]; intros k r e prs acc Hk Hr Hc; [discriminate|].
  destruct k as [|k]; simpl in *.
  - injection Hk as ->. rewrite Hr. apply Forall2_nil_inv_l in Hc as ->.
    rewrite app_nil_r. reflexivity.
  - apply Forall2_cons_inv_l in Hc as (pr0 & prs' & Hr0 & Hc & ->).
    rewrite Hr0, (IH k r e prs' _ Hk Hr Hc), <- app_assoc. reflexivity.
Qed.

Lemma convertRecords_fails (w : W) recs : forall acc,
  (convertRecords w recs acc).2 = conversionFails w recs.
Proof.
  unfold conversionFails. induction recs as [|r rest IH]; intros acc; simpl; [reflexivity|].
  destruct (RecordToProto w r); simpl; [apply IH|reflexivity].
Qed.

Lemma conversionFails_false (w : W) recs :
  conversionFails w recs = false <->
  forall r, r ∈ recs -> exists pr, RecordToProto w r = inl pr.
Proof.
  unfold conversionFails. induction recs as [|r0 rest IH]; simpl.
  - split; [intros _ r Hr; inversion Hr|reflexivity].
  - rewrite orb_false_iff, IH. split.
    + intros [H0 Hrest] r Hr. apply elem_of_cons in Hr as [->|Hr]; [|auto].
      destruct (RecordToProto w r0); [eauto|discriminate].
    + intros Hall. split.
      * destruct (Hall r0) as [pr ->]; [left|reflexivity].
      * intros r Hr. apply Hall. right. exact Hr.
Qed.

Lemma taskFailures_logFailures reqd limit (w : W) tid lg :
  taskFailures reqd limit w tid lg = logFailures reqd limit w tid lg.
Proof.
  unfold taskFailures, logFailures, converted. rewrite convertRecords_fails. reflexivity.
Qed.

Lemma logFailures_zero reqd limit (w : W) tid lg :
  logFailures reqd limit w tid lg = 0%nat <->
  (fetched reqd limit w tid lg).2 = None /\
  forall r, r ∈ (fetched reqd limit w tid lg).1 -> exists pr, RecordToProto w r = inl pr.
Proof.
  rewrite <- conversionFails_false. unfold logFailures.
  destruct ((fetched reqd limit w tid lg).2),
           (conversionFails w (fetched reqd limit w tid lg).1);
    (split; [intros ?; try lia; split; reflexivity
            |intros [? ?]; try discriminate; reflexivity]).
Qed.

Lemma taskEntry_sends reqd limit (w : W) tid lg prs :
  (converted reqd limit w tid lg).1 = prs ->
  prs <> [] \/ descriptor reqd lg <> None ->
  taskEntry reqd limit w tid lg =
    Some {| rl_LogID := li_ID lg; rl_Records := prs; rl_Log := descriptor reqd lg |}.
Proof.
  intros Hc Hsend. unfold taskEntry. rewrite Hc.
  destruct (descriptor reqd lg), prs; try reflexivity. destruct Hsend; congruence.
Qed.

(** C7. In a [GetRecords] request that gets to the per-log fetches (at
    most 2^30 local logs, so that the [int32] counter cannot wrap), once all
    of them have run: the failure counter holds the number of fetches that
    returned an error plus the number of logs with a fetched record that
    [RecordToProto] does not convert; [threadStatusUploadDone] is applied
    for the caller and the thread exactly when the registry is present, no
    fetch returned an error and every fetched record converts; the reply is
    returned all the same.  For every log whose fetched records all convert
    it holds the entry with exactly their conversions, in order, and for a
    log with a record that does not convert the entry with the conversions
    of the records before the first such one (an entry is sent when it has
    records or a descriptor).  A high-priority [updateRecordsFromPeer] is
    scheduled for the caller and the thread exactly when some fetch failed
    with offset-missing. *)
Theorem GetRecords_upload_done_iff_no_failures :
  forall (req : Request GetRecordsRequest_Body) (pid : PeerID)
         (body : GetRecordsRequest_Body) (info : Info) (w : W),
    passes req pid body ->
    checkServiceKey (gr_ThreadID body) (gr_ServiceKey body) w = None ->
    headsChanged body w = (true, None) ->
    store_GetThread w (gr_ThreadID body) = (info, None) ->
    Logs info <> [] ->
    Z.of_nat (length (Logs info)) < 2^30 ->
    let tid := gr_ThreadID body in
    let reqd := requested (gr_Logs body) in
    let limit := MaxPullLimit ÷ Z.of_nat (length (Logs info)) in
    let joined :=
      (fetchAll pid tid reqd limit (Logs info) w {| failures := 0; replyLogs := [] |}).1 in
    exists reply tr,
      GetRecords MaxPullLimit s req w = ((Some reply, None), w, tr) /\
      failures joined =
        Z.of_nat (sum_list (logFailures reqd limit w tid <$> Logs info)) /\
      (Apply pid tid threadStatusUploadDone ∈ tr <->
         tStat s = true /\
         forall lg, lg ∈ Logs info ->
           (fetched reqd limit w tid lg).2 = None /\
           forall r, r ∈ (fetched reqd limit w tid lg).1 ->
                     exists pr, RecordToProto w r = inl pr) /\
      (forall lg prs, lg ∈ Logs info ->
         convertsTo w (fetched reqd limit w tid lg).1 prs ->
         prs <> [] \/ descriptor reqd lg <> None ->
         {| rl_LogID := li_ID lg; rl_Records := prs; rl_Log := descriptor reqd lg |}
           ∈ grr_Logs reply) /\
      (forall lg k r e prs, lg ∈ Logs info ->
         (fetched reqd limit w tid lg).1 !! k = Some r ->
         RecordToProto w r = inr e ->
         convertsTo w (take k (fetched reqd limit w tid lg).1) prs ->
         (1 <= logFailures reqd limit w tid lg)%nat /\
         (prs <> [] \/ descriptor reqd lg <> None ->
          {| rl_LogID := li_ID lg; rl_Records := prs; rl_Log := descriptor reqd lg |}
            ∈ grr_Logs reply)) /\
      (Schedule queueGetRecords pid tid callPriorityHigh updateRecordsFromPeer ∈ tr <->
         exists lg, lg ∈ Logs info /\
                    (fetched reqd limit w tid lg).2 = Some ErrOffsetIsMissing).
Proof.
  intros req pid body info w Hp Hc Hh Hg Hne Hlen tid reqd limit joined.
  pose proof (GetRecords_slow_path _ _ _ _ _ Hp Hc Hh Hg Hne) as E.
  fold tid reqd limit in E.
  pose proof (sum_taskFailures_le tid reqd limit w (Logs info)) as Hsum.
  assert (wrap32 (Z.of_nat (sum_list (taskFailures reqd limit w tid <$> Logs info))) =
          Z.of_nat (sum_list (taskFailures reqd limit w tid <$> Logs info))) as Hw.
  { apply wrap32_small. lia. }
  assert (taskFailures reqd limit w tid <$> Logs info =
          logFailures reqd limit w tid <$> Logs info) as Hsame.
  { apply list_fmap_ext. intros ? lg _. apply taskFailures_logFailures. }
  eexists _, _. split; [exact E|]. split; [|split; [|split; [|split]]].
  - subst joined. rewrite fetchAll_spec by reflexivity. rewrite <- Hsame. simpl. exact Hw.
  - rewrite Hw, elem_of_app.
    assert ((forall lg, lg ∈ Logs info ->
               (fetched reqd limit w tid lg).2 = None /\
               forall r, r ∈ (fetched reqd limit w tid lg).1 ->
                         exists pr, RecordToProto w r = inl pr) <->
            sum_list (taskFailures reqd limit w tid <$> Logs info) = 0%nat) as ->.
    { rewrite sum_taskFailures_zero. split.
      - intros Hall lg Hlg. rewrite taskFailures_logFailures. apply logFailures_zero. auto.
      - intros Hall lg Hlg. apply logFailures_zero. rewrite <- taskFailures_logFailures. auto. }
    pose proof (not_elem_of_taskEvents_apply pid reqd limit w tid (Logs info)
                  pid tid threadStatusUploadDone) as Hno.
    destruct (Z.eqb_spec (Z.of_nat (sum_list (taskFailures reqd limit w tid <$> Logs info))) 0)
      as [Hz|Hz]; destruct (tStat s);
      rewrite ?elem_of_cons, ?elem_of_nil;
      (split; [intros [Hx|Hx]; [destruct (Hno Hx)|]|intros [Ht Hs]]);
      try discriminate; try tauto; try lia.
  - intros lg prs Hlg Hconv Hsend. simpl.
    apply list_elem_of_omap. exists lg. split; [exact Hlg|].
    apply taskEntry_sends; [|exact Hsend].
    unfold converted. rewrite (convertRecords_all _ _ _ Hconv). reflexivity.
  - intros lg k r e prs Hlg Hk Hr Hconv. split.
    + unfold logFailures.
      assert (conversionFails w (fetched reqd limit w tid lg).1 = true) as ->; [|lia].
      destruct (conversionFails w (fetched reqd limit w tid lg).1) eqn:Hf; [reflexivity|].
      destruct (proj1 (conversionFails_false _ _) Hf r) as [pr Hpr]; [|congruence].
      eapply list_elem_of_lookup_2; exact Hk.
    + intros Hsend. simpl.
      apply list_elem_of_omap. exists lg. split; [exact Hlg|].
      apply taskEntry_sends; [|exact Hsend].
      unfold converted. rewrite (convertRecords_stop _ _ _ _ _ _ _ Hk Hr Hconv). reflexivity.
  - rewrite elem_of_app, elem_of_taskEvents_schedule.
    destruct (_ =? 0), (tStat s); list_cases.
Qed.

Lemma fetchArgs_requested reqd limit lg opts :
  reqd !! li_ID lg = Some opts ->
  fetchArgs reqd limit lg = (le_Offset opts, Z.min (le_Limit opts) limit, None).
Proof. intros Hr. unfold fetchArgs. rewrite Hr, minInt_min. reflexivity. Qed.

Lemma fetchArgs_unrequested reqd limit lg :
  reqd !! li_ID lg = None ->
  fetchArgs reqd limit lg = (Undef, limit, Some (logToProto lg)).
Proof. intros Hr. unfold fetchArgs. rewrite Hr. reflexivity. Qed.

Lemma taskEntry_LogID reqd limit (w : W) tid lg e :
  taskEntry reqd limit w tid lg = Some e -> rl_LogID e = li_ID lg.
Proof.
  unfold taskEntry.
  destruct (descriptor reqd lg), ((converted reqd limit w tid lg).1);
    intros Heq; try discriminate; injection Heq as <-; reflexivity.
Qed.

(** C8. In a [GetRecords] request that gets to the per-log fetches, with
    [MaxPullLimit] not negative and [numLogs > 0] local logs, the per-log
    limit is [MaxPullLimit / numLogs] rounded down, and for every local log:
    if the caller's request names it, [getLocalRecords] is called with the
    offset of the caller's entry for it (the last one, should several name
    it) and the smaller of that entry's limit and the per-log limit, no
    reply entry for it carries a descriptor, and if that call yields no
    record no reply entry carries the log's id; if the caller's request
    does not name it, [getLocalRecords] is called with the undefined offset
    and the per-log limit, and the reply has an entry for the log that
    carries its full descriptor: the log's id, its public key, its addresses
    and its head.  No other fetch is made, and none asks for more than the
    per-log limit. *)
Theorem GetRecords_per_log_limit :
  forall (req : Request GetRecordsRequest_Body) (pid : PeerID)
         (body : GetRecordsRequest_Body) (info : Info) (w : W),
    0 <= MaxPullLimit ->
    passes req pid body ->
    checkServiceKey (gr_ThreadID body) (gr_ServiceKey body) w = None ->
    headsChanged body w = (true, None) ->
    store_GetThread w (gr_ThreadID body) = (info, None) ->
    Logs info <> [] ->
    let tid := gr_ThreadID body in
    let perLog := MaxPullLimit `div` Z.of_nat (length (Logs info)) in
    exists reply tr,
      GetRecords MaxPullLimit s req w = ((Some reply, None), w, tr) /\
      (forall lg, lg ∈ Logs info ->
         let lid := li_ID lg in
         (forall opts, callerEntry (gr_Logs body) lid = Some opts ->
            let lim := Z.min (le_Limit opts) perLog in
            GetLocalRecords tid lid (le_Offset opts) lim ∈ tr /\
            (forall e, e ∈ grr_Logs reply -> rl_LogID e = lid -> rl_Log e = None) /\
            ((net_getLocalRecords w tid lid (le_Offset opts) lim).1 = [] ->
             forall e, e ∈ grr_Logs reply -> rl_LogID e <> lid)) /\
         ((forall l, l ∈ gr_Logs body -> le_LogID l <> lid) ->
            GetLocalRecords tid lid Undef perLog ∈ tr /\
            exists prs,
              {| rl_LogID := lid; rl_Records := prs;
                 rl_Log := Some {| pl_ID := li_ID lg; pl_PubKey := li_PubKey lg;
                                   pl_Addrs := map (fun a => {| pa_Multiaddr := a |})
                                                   (li_Addrs lg);
                                   pl_Head := li_Head lg |} |}
                ∈ grr_Logs reply) /\
         (forall l, l ∈ gr_Logs body -> le_LogID l = lid ->
            exists opts, callerEntry (gr_Logs body) lid = Some opts /\
                         opts ∈ gr_Logs body /\ le_LogID opts = lid /\
                         (NoDup (le_LogID <$> gr_Logs body) -> opts = l))) /\
      (forall t l off lim, GetLocalRecords t l off lim ∈ tr ->
         t = tid /\ lim <= perLog /\ exists lg, lg ∈ Logs info /\ l = li_ID lg).
Proof.
  intros req pid body info w Hmax Hp Hc Hh Hg Hne tid perLog.
  pose proof (GetRecords_slow_path _ _ _ _ _ Hp Hc Hh Hg Hne) as E.
  fold tid in E.
  assert (MaxPullLimit ÷ Z.of_nat (length (Logs info)) = perLog) as Hq.
  { apply Z.quot_div_nonneg; [exact Hmax|].
    destruct (Logs info); [congruence|simpl; lia]. }
  rewrite Hq in E.
  set (reqd := requested (gr_Logs body)) in *.
  eexists _, _. split; [exact E|]. split.
  - intros lg Hlg lid. split; [|split; [|apply callerEntry_present]].
    + intros opts Hce lim.
      assert (reqd !! li_ID lg = Some opts) as Hr by (subst reqd; rewrite requested_lookup; exact Hce).
      pose proof (fetchArgs_requested _ perLog _ _ Hr) as Hargs. fold lim in Hargs.
      split; [|split].
      * rewrite elem_of_app. left. apply elem_of_taskEvents_fetch.
        exists lg. rewrite Hargs. simpl. tauto.
      * intros e He Hid. simpl in He.
        apply list_elem_of_omap in He as (lg' & Hlg' & Hentry).
        pose proof (taskEntry_LogID _ _ _ _ _ _ Hentry) as Hid'.
        assert (li_ID lg' = li_ID lg) as Hsame by (fold lid; congruence).
        unfold taskEntry, descriptor in Hentry. rewrite Hsame, Hr in Hentry.
        destruct ((converted reqd perLog w tid lg').1); [discriminate|].
        injection Hentry as <-. reflexivity.
      * intros Hempty e He Hid. simpl in He.
        apply list_elem_of_omap in He as (lg' & Hlg' & Hentry).
        pose proof (taskEntry_LogID _ _ _ _ _ _ Hentry) as Hid'.
        assert (li_ID lg' = li_ID lg) as Hsame by (fold lid; congruence).
        unfold taskEntry, descriptor, converted, fetched in Hentry.
        rewrite Hsame in Hentry. rewrite Hr in Hentry.
        unfold fetchArgs in Hentry. rewrite Hsame, Hr, minInt_min in Hentry.
        fold lim lid in Hentry. rewrite Hempty in Hentry. simpl in Hentry. discriminate.
    + intros Habs.
      assert (reqd !! li_ID lg = None) as Hr
        by (subst reqd; rewrite requested_lookup; apply callerEntry_absent, Habs).
      pose proof (fetchArgs_unrequested _ perLog _ Hr) as Hargs.
      split.
      * rewrite elem_of_app. left. apply elem_of_taskEvents_fetch.
        exists lg. rewrite Hargs. simpl. tauto.
      * exists (converted reqd perLog w tid lg).1. simpl.
        apply list_elem_of_omap. exists lg. split; [exact Hlg|].
        unfold taskEntry, descriptor. rewrite Hr. reflexivity.
  - intros t l off lim Hin. apply elem_of_app in Hin as [Hin|Hin].
    + apply elem_of_taskEvents_fetch in Hin as (lg & Hlg & -> & -> & -> & ->).
      split; [reflexivity|]. split; [|eauto].
      unfold fetchArgs. destruct (reqd !! li_ID lg); simpl; [rewrite minInt_min|]; lia.
    + destruct (_ =? 0), (tStat s); list_cases.
Qed.

End Properties.
End NetSpec.

(** ** The properties at work on the in-memory instance *)

Module Scenarios.
Import Net Mem NetSpec.

(** On a semaphore without buffer, a [Release] that finds a goroutine
    parked in [Acquire] lets it through instead of panicking. *)
Example Release_unbuffered_meets_parked_acquire :
  Util.NewSemaphore 0 = Some {| Util.capacity := 0; Util.tokens := 0; Util.parked := 0 |} /\
  Util.run [Util.CallAcquire; Util.CallRelease]
           ({| Util.capacity := 0; Util.tokens := 0; Util.parked := 0 |}, 0%nat) =
    Some ({| Util.capacity := 0; Util.tokens := 0; Util.parked := 0 |}, 0%nat).
Proof. split; reflexivity. Qed.

(** The [int32] failure counter wraps where [atomic.AddInt32] does. *)
Example wrap32_at_the_top : wrap32 (2^31 - 1 + 1) = - 2^31.
Proof. reflexivity. Qed.

(** Of two entries of a request that name the same log, [reqd] keeps the
    second. *)
Example requested_keeps_last :
  requested [ {| le_LogID := "LA"; le_Offset := "c1"; le_Limit := 5 |};
              {| le_LogID := "LA"; le_Offset := "c2"; le_Limit := 7 |} ] !! "LA" =
    Some {| le_LogID := "LA"; le_Offset := "c2"; le_Limit := 7 |}.
Proof. vm_compute. reflexivity. Qed.

(** [errors.Is] sees through [fmt.Errorf]'s wrapping, [==] does not. *)
Example errors_Is_unwraps :
  errors_Is (Errorf "heads edge" ErrThreadNotFound) ErrThreadNotFound = true /\
  Errorf "heads edge" ErrThreadNotFound <> ErrThreadNotFound.
Proof. split; [reflexivity|discriminate]. Qed.

(** A storage fault during [PutRecord]: the RPC fails [Internal] and the
    terminal status is [threadStatusDownloadFailed]. *)
Example PushRecord_put_fails :
  PushRecord srv (signedBy alice pushNew)
    {| threads := threads store0; blocks := blocks store0; faulty := true |} =
    ((None, Some (StatusErr Internal writeFailed)),
     {| threads := threads store0; blocks := blocks store0; faulty := true |},
     [Apply "alice" "T1" threadStatusDownloadStarted;
      PutRecord "T1" "LA" "c3";
      Apply "alice" "T1" threadStatusDownloadFailed]).
Proof. vm_compute. reflexivity. Qed.

Lemma PushRecord_known_record_idempotent_witness :
  PushRecord srv (signedBy alice pushKnown) store0 =
    ((Some mkPushRecordReply, None), store0,
     [Apply "alice" "T1" threadStatusDownloadDone]) /\
  (forall t l c, PutRecord t l c ∉ (PushRecord srv (signedBy alice pushKnown) store0).2).
Proof.
  apply (PushRecord_known_record_idempotent srv (signedBy alice pushKnown) "alice" pushKnown
           (B "pkA") (Some (B "k1")) {| mr_cid := "c2"; mr_signer := B "pkA" |} store0).
  - split; vm_compute; reflexivity.
  - vm_compute; reflexivity.
  - vm_compute; reflexivity.
  - vm_compute; reflexivity.
  - vm_compute; reflexivity.
Defined.

Lemma PushRecord_one_terminal_status_witness :
  PushRecord srv (signedBy alice pushNew) store0 =
    ((Some mkPushRecordReply, None),
     {| threads := threads store0; blocks := "c3" :: blocks store0; faulty := false |},
     [Apply "alice" "T1" threadStatusDownloadStarted;
      PutRecord "T1" "LA" "c3";
      Apply "alice" "T1" threadStatusDownloadDone]) /\
  filter (fun e => terminal e = true) (PushRecord srv (signedBy alice pushNew) store0).2 =
    [Apply "alice" "T1" threadStatusDownloadDone].
Proof.
  assert (passes (signedBy alice pushNew) "alice" pushNew) as Hp
    by (split; vm_compute; reflexivity).
  exact (PushRecord_one_terminal_status srv (signedBy alice pushNew) "alice" pushNew
           (B "pkA") (Some (B "k1")) {| mr_cid := "c3"; mr_signer := B "pkA" |} store0
           eq_refl Hp eq_refl eq_refl eq_refl eq_refl eq_refl).
Defined.

(** C3, as the spec has it, fails here: the store holds no service key for
    [T9], and a verified [GetLogs] for [T9] that supplies no key is refused
    [Unauthenticated], not [NotFound]. *)
Lemma GetLogs_without_key_is_not_NotFound :
  passes (signedBy alice getLogsNoKey) "alice" getLogsNoKey /\
  store_ServiceKey store0 "T9" = inl None /\
  exists err,
    GetLogs (signedBy alice getLogsNoKey) store0 =
      ((Some {| glr_Logs := [] |}, Some err), store0, []) /\
    codeOf err = Some Unauthenticated /\
    codeOf err <> Some NotFound.
Proof.
  split; [split; vm_compute; reflexivity|]. split; [reflexivity|].
  exists (StatusMsg Unauthenticated "a service-key is required to get logs").
  split; [vm_compute; reflexivity|]. split; [reflexivity|discriminate].
Qed.

Lemma checkServiceKey_outcomes_witness :
  checkServiceKey "T1" (Some {| pk_Key := Some (B "k3") |}) store0 =
    Some (StatusMsg Unauthenticated "invalid service-key") /\
  checkServiceKey "T9" (Some {| pk_Key := Some (B "k3") |}) store0 =
    Some (StatusErr NotFound ErrThreadNotFound).
Proof.
  split.
  - destruct (checkServiceKey_outcomes 10000 srv "T1" (Some {| pk_Key := Some (B "k3") |}) store0)
      as (_ & _ & Hk & _).
    destruct (Hk (B "k3") eq_refl) as (_ & Hwrong & _).
    apply (Hwrong (B "k1")); [reflexivity|vm_compute; discriminate].
  - destruct (checkServiceKey_outcomes 10000 srv "T9" (Some {| pk_Key := Some (B "k3") |}) store0)
      as (_ & _ & Hk & _).
    destruct (Hk (B "k3") eq_refl) as (Hnone & _).
    apply Hnone. reflexivity.
Defined.

(** A thread that is known locally but has no head yet: [T3] has a log, the
    store answers the heads-edge lookup for it with thread-not-found, and
    the reply carries the descriptor of the log the caller did not name. *)
Example GetRecords_thread_without_heads :
  passes (signedBy alice getRecordsT3) "alice" getRecordsT3 /\
  checkServiceKey "T3" key3 store0 = None /\
  store_HeadsEdge store0 "T3" = inr ErrThreadNotFound /\
  GetRecords 10000 srv (signedBy alice getRecordsT3) store0 =
    ((Some {| grr_Logs :=
               [ {| rl_LogID := "LC"; rl_Records := [];
                    rl_Log := Some (logToProto logC) |} ] |}, None),
     store0,
     [GetLocalRecords "T3" "LC" Undef 10000;
      Apply "alice" "T3" threadStatusUploadDone]) /\
  grr_Logs {| grr_Logs :=
               [ {| rl_LogID := "LC"; rl_Records := [];
                    rl_Log := Some (logToProto logC) |} ] |} <> [].
Proof.
  split; [split; vm_compute; reflexivity|].
  split; [vm_compute; reflexivity|].
  split; [vm_compute; reflexivity|].
  split; [vm_compute; reflexivity|discriminate].
Qed.

Lemma GetRecords_fast_path_witness :
  GetRecords 10000 srv (signedBy alice getRecordsT1Same) store0 =
    ((Some {| grr_Logs := [] |}, None), store0, []) /\
  GetRecords 10000 srv (signedBy alice getRecordsT4) storeKeyOnly =
    ((Some {| grr_Logs := [] |}, None), storeKeyOnly, []).
Proof.
  split.
  - destruct (GetRecords_fast_path 10000 srv (signedBy alice getRecordsT1Same)
                "alice" getRecordsT1Same store0) as [Hfast _].
    + split; vm_compute; reflexivity.
    + vm_compute; reflexivity.
    + apply (Hfast localHeads1); vm_compute; reflexivity.
  - destruct (GetRecords_fast_path 10000 srv (signedBy alice getRecordsT4)
                "alice" getRecordsT4 storeKeyOnly) as [_ Hunknown].
    + split; vm_compute; reflexivity.
    + vm_compute; reflexivity.
    + apply (Hunknown {| Key := {| sk := Some (B "k4"); rk := None |}; Logs := [] |}).
      * intros err Herr. vm_compute in Herr. injection Herr as <-. reflexivity.
      * vm_compute; reflexivity.
      * reflexivity.
Defined.

Lemma PushLog_key_uptake_and_schedule_witness :
  exists w2,
    PushLog (signedBy alice pushLogT2) store0 =
      ((Some mkPushLogReply, None), w2,
       [AddServiceKey "T2" (B "k2");
        CreateExternalLogsIfNotExist "T2" [logA];
        Schedule queueGetRecords "alice" "T2" callPriorityLow updateRecordsFromPeer]).
Proof.
  destruct (PushLog_key_uptake_and_schedule (signedBy alice pushLogT2) "alice" pushLogT2
              zeroInfo (Some ErrThreadNotFound) store0) as (_ & _ & _ & Hsk & _).
  - split; vm_compute; reflexivity.
  - vm_compute; reflexivity.
  - intros err [= <-]. reflexivity.
  - destruct (Hsk (B "k2") (memAddKey true store0 "T2" (B "k2")).1 eq_refl eq_refl eq_refl)
      as [Hok _].
    exists (memCreateLogs (memAddKey true store0 "T2" (B "k2")).1 "T2" [logA]).1.
    exact (Hok (logToProto logA) _ eq_refl eq_refl).
Defined.

(** A [PushLog] request without a log: the key is persisted, then the
    handler panics; nothing is upserted or scheduled. *)
Example PushLog_without_log_panics :
  PushLog (signedBy alice {| pl_ThreadID := "T2"; pl_Log := None;
                             pl_ServiceKey := Some {| pk_Key := Some (B "k2") |};
                             pl_ReadKey := None |}) store0 =
    (panicked, (memAddKey true store0 "T2" (B "k2")).1, [AddServiceKey "T2" (B "k2")]).
Proof. vm_compute. reflexivity. Qed.

Lemma ExchangeEdges_per_entry_witness :
  exists outs,
    ExchangeEdges srv (signedBy alice exchangeThree) store0 =
      ((Some {| eer_Edges := outs.*1 |}, None), store0, concat outs.*2) /\
    length outs = 3%nat.
Proof.
  destruct (ExchangeEdges_per_entry srv (signedBy alice exchangeThree) "alice" exchangeThree
              store0) as (outs & Hrun & Hlen & _).
  - split; vm_compute; reflexivity.
  - intros entry _. split.
    + intros err. simpl. destruct (Logs _); [|discriminate]. intros [= <-]. reflexivity.
    + intros al err _. simpl. destruct (memHeads _); [|discriminate]. intros [= <-]. reflexivity.
  - exists outs. split; [exact Hrun|exact Hlen].
Defined.

Lemma ExchangeEdges_done_iff_heads_equal_witness :
  exists outs tr e,
    ExchangeEdges srv (signedBy alice exchangeSameHeads) store0 =
      ((Some {| eer_Edges := outs.*1 |}, None), store0, concat outs.*2) /\
    outs !! 0%nat = Some (e, tr) /\
    tr = [Schedule queueGetLogs "alice" "T1" callPriorityLow updateLogsFromPeer;
          Apply "alice" "T1" threadStatusDownloadDone;
          Apply "alice" "T1" threadStatusUploadDone].
Proof.
  destruct (ExchangeEdges_done_iff_heads_equal srv (signedBy alice exchangeSameHeads) "alice"
              exchangeSameHeads store0) as (outs & Hrun & Hent).
  - split; vm_compute; reflexivity.
  - intros entry _. split.
    + intros err. simpl. destruct (Logs _); [|discriminate]. intros [= <-]. reflexivity.
    + intros al err _. simpl. destruct (memHeads _); [|discriminate]. intros [= <-]. reflexivity.
  - destruct (Hent 0%nat _ localAddrs1 localHeads1 eq_refl) as (e & tr & Ho & _ & _ & Htr).
    + vm_compute; reflexivity.
    + vm_compute; reflexivity.
    + exists outs, tr, e. split; [exact Hrun|]. split; [exact Ho|].
      apply Htr; [vm_compute; discriminate|reflexivity].
Defined.

Lemma GetRecords_upload_done_iff_no_failures_witness :
  exists reply tr,
    GetRecords 10000 srv (signedBy alice getRecordsT1Ahead) store0 =
      ((Some reply, None), store0, tr) /\
    (Apply "alice" "T1" threadStatusUploadDone ∉ tr) /\
    (Schedule queueGetRecords "alice" "T1" callPriorityHigh updateRecordsFromPeer ∈ tr).
Proof.
  destruct (GetRecords_upload_done_iff_no_failures 10000 srv (signedBy alice getRecordsT1Ahead)
              "alice" getRecordsT1Ahead info1 store0)
    as (reply & tr & Hrun & _ & Hdone & _ & _ & Hsched).
  - split; vm_compute; reflexivity.
  - vm_compute; reflexivity.
  - vm_compute; reflexivity.
  - vm_compute; reflexivity.
  - discriminate.
  - vm_compute; reflexivity.
  - exists reply, tr. split; [exact Hrun|]. split.
    + intros Hin. apply Hdone in Hin as [_ Hall].
      destruct (Hall logA (list_elem_of_here _ _)) as [Hfetch _].
      vm_compute in Hfetch. discriminate.
    + apply Hsched. exists logA. split; [left|vm_compute; reflexivity].
Defined.

(** A record whose nodes cannot be loaded: with the block of [c2] gone,
    the fetch for [LA] returns [c1] and [c2], [c1] is converted and sent,
    [c2] is not, and [threadStatusUploadDone] is not applied. *)
Example GetRecords_conversion_failure :
  GetRecords 10000 srv
    (signedBy alice {| gr_ThreadID := "T1"; gr_ServiceKey := key1;
                       gr_Logs := [ {| le_LogID := "LA"; le_Offset := Undef;
                                       le_Limit := 5 |} ] |})
    {| threads := threads store0; blocks := ["c1"]; faulty := false |} =
    ((Some {| grr_Logs :=
               [ {| rl_LogID := "LA"; rl_Records := [wireRecord "c1" (B "pkA")];
                    rl_Log := None |};
                 {| rl_LogID := "LB"; rl_Records := []; rl_Log := Some (logToProto logB) |} ] |},
      None),
     {| threads := threads store0; blocks := ["c1"]; faulty := false |},
     [GetLocalRecords "T1" "LA" Undef 5; GetLocalRecords "T1" "LB" Undef 5000]).
Proof. vm_compute. reflexivity. Qed.

Lemma GetRecords_per_log_limit_witness :
  exists reply tr,
    GetRecords 10000 srv (signedBy alice getRecordsT1) store0 = ((Some reply, None), store0, tr) /\
    GetLocalRecords "T1" "LA" "c1" 5 ∈ tr /\
    GetLocalRecords "T1" "LB" Undef 5000 ∈ tr.
Proof.
  destruct (GetRecords_per_log_limit 10000 srv (signedBy alice getRecordsT1)
              "alice" getRecordsT1 info1 store0)
    as (reply & tr & Hrun & Hlogs & _).
  - lia.
  - split; vm_compute; reflexivity.
  - vm_compute; reflexivity.
  - vm_compute; reflexivity.
  - vm_compute; reflexivity.
  - discriminate.
  - exists reply, tr. split; [exact Hrun|]. split.
    + destruct (Hlogs logA (list_elem_of_here _ _)) as [Hnamed _].
      destruct (Hnamed {| le_LogID := "LA"; le_Offset := "c1"; le_Limit := 5 |} eq_refl)
        as [Hin _].
      exact Hin.
    + destruct (Hlogs logB (list_elem_of_further _ _ _ (list_elem_of_here _ _)))
        as (_ & Hun & _).
      destruct Hun as [Hin _]; [|exact Hin].
      intros l Hl. apply list_elem_of_singleton in Hl as ->. discriminate.
Defined.

End Scenarios.

(** * Further properties *)

(** ** The semaphore and the pool *)

Module UtilExtra.
Import Util Pool.

Lemma step_capacity c st st' :
  step c st = Some st' -> capacity st'.1 = capacity st.1.
Proof.
  destruct st as [[cap t p] n]. unfold step; simpl. intros Hs. destruct c.
  - unfold Acquire in Hs; simpl in Hs.
    destruct (t <? cap)%nat; inversion Hs; reflexivity.
  - unfold TryAcquire in Hs; simpl in Hs.
    destruct (t <? cap)%nat; inversion Hs; reflexivity.
  - unfold Release in Hs; simpl in Hs.
    destruct t, p; inversion Hs; reflexivity.
Qed.

Lemma run_capacity h : forall st st',
  run h st = Some st' -> capacity st'.1 = capacity st.1.
Proof.
  induction h as [|c h IH]; simpl; intros st st' Hr.
  - injection Hr as <-. reflexivity.
  - destruct (step c st) as [st1|] eqn:E; [|discriminate].
    rewrite (IH _ _ Hr). eapply step_capacity; eauto.
Qed.

(** X1. Whatever calls are made on a semaphore, the number of tokens held
    never exceeds the capacity it was made with, and a goroutine is parked
    in [Acquire] only while the semaphore is full. *)
Theorem semaphore_never_over_capacity :
  forall (cap : Z) (s0 s : Semaphore) (h : list Call) (n : nat),
    NewSemaphore cap = Some s0 ->
    run h (s0, 0%nat) = Some (s, n) ->
    capacity s = Z.to_nat cap /\
    (tokens s <= capacity s)%nat /\
    ((0 < parked s)%nat -> tokens s = capacity s).
Proof.
  intros cap s0 s h n Hnew Hrun.
  pose proof (UtilSpec.run_consistent h _ _ (UtilSpec.new_consistent _ _ Hnew) Hrun)
    as (_ & Hle & Hp).
  pose proof (run_capacity h _ _ Hrun) as Hc. simpl in Hc.
  unfold NewSemaphore in Hnew. destruct (cap <? 0); [discriminate|].
  injection Hnew as <-. simpl in Hc. auto.
Qed.

(** X2. On a semaphore in use, an [Acquire] that returns, or a
    [TryAcquire] that answers [true], followed by [Release], leaves the
    semaphore exactly as it was; a [TryAcquire] that answers [false] changes
    nothing. *)
Theorem acquire_then_release_restores :
  forall (cap : Z) (s0 s : Semaphore) (h : list Call) (n : nat),
    NewSemaphore cap = Some s0 ->
    run h (s0, 0%nat) = Some (s, n) ->
    (forall s', Acquire s = AcqReturned s' -> Release s' = RelDone s) /\
    (forall s', TryAcquire s = (true, s') -> Release s' = RelDone s) /\
    (forall s', TryAcquire s = (false, s') -> s' = s /\ tokens s = capacity s).
Proof.
  intros cap s0 s h n Hnew Hrun.
  pose proof (UtilSpec.run_consistent h _ _ (UtilSpec.new_consistent _ _ Hnew) Hrun)
    as (_ & Hle & Hp).
  destruct s as [c t p]. simpl in *.
  unfold Acquire, TryAcquire, Release; simpl.
  destruct (Nat.ltb_spec t c) as [Hlt|Hge].
  - assert (p = 0%nat) as -> by (destruct p; [reflexivity|specialize (Hp ltac:(lia)); lia]).
    split; [|split]; intros s' Hs; try discriminate; injection Hs as <-; reflexivity.
  - split; [|split]; intros s' Hs; try discriminate; injection Hs as <-.
    split; [reflexivity|lia].
Qed.

Lemma run_tries n : forall c t,
  (t <= c)%nat ->
  forall k, run (replicate n CallTryAcquire) ({| capacity := c; tokens := t; parked := 0 |}, k) =
    Some ({| capacity := c; tokens := Nat.min (t + n) c; parked := 0 |},
          (k + (Nat.min (t + n) c - t))%nat).
Proof.
  induction n as [|n IH]; intros c t Hle k; simpl.
  - rewrite Nat.add_0_r, Nat.min_l by lia. do 2 f_equal. lia.
  - unfold TryAcquire; simpl. destruct (Nat.ltb_spec t c) as [Hlt|Hge].
    + rewrite IH by lia. do 2 f_equal; [f_equal; lia|lia].
    + rewrite IH by lia. do 2 f_equal; [f_equal; lia|lia].
Qed.

(** X3. Of [n] calls of [TryAcquire] on a fresh semaphore of capacity
    [cap], the first [cap] succeed and the others fail: [min n cap] tokens
    are held afterwards, and no goroutine is parked. *)
Theorem try_acquire_grants_capacity :
  forall (cap : Z) (s0 : Semaphore) (n : nat),
    NewSemaphore cap = Some s0 ->
    run (replicate n CallTryAcquire) (s0, 0%nat) =
      Some ({| capacity := Z.to_nat cap; tokens := Nat.min n (Z.to_nat cap); parked := 0 |},
            Nat.min n (Z.to_nat cap)).
Proof.
  intros cap s0 n Hnew. unfold NewSemaphore in Hnew.
  destruct (cap <? 0); [discriminate|]. injection Hnew as <-.
  rewrite run_tries by lia. simpl. do 2 f_equal. lia.
Qed.

(** X4. [GetSemaphore] makes the semaphore of a thread on first use, with
    the capacity of the pool and no token, and hands out the same one,
    state kept, on every later call; the semaphores of other threads are
    not touched.  It panics only when it has to make a semaphore and the
    capacity of the pool is negative. *)
Theorem GetSemaphore_once_per_thread :
  forall (p : SemaphorePool) (id : string),
    (GetSemaphore p id = None <-> ss p !! id = None /\ semaCap p < 0) /\
    (forall s p', GetSemaphore p id = Some (s, p') ->
       ss p' !! id = Some s /\
       semaCap p' = semaCap p /\
       (forall other, other <> id -> ss p' !! other = ss p !! other) /\
       GetSemaphore p' id = Some (s, p') /\
       (forall s1, ss p !! id = Some s1 -> s = s1 /\ p' = p) /\
       (ss p !! id = None ->
          s = {| capacity := Z.to_nat (semaCap p); tokens := 0; parked := 0 |})).
Proof.
  intros p id. unfold GetSemaphore, NewSemaphore. split.
  - destruct (ss p !! id) as [s1|]; [split; [discriminate|intros [? _]; discriminate]|].
    destruct (Z.ltb_spec (semaCap p) 0); split; try discriminate; try tauto. lia.
  - intros s p' Hg. destruct (ss p !! id) as [s1|] eqn:E.
    + injection Hg as <- <-. rewrite E. split_and!; try reflexivity.
      * intros s2 [= <-]. split; reflexivity.
      * discriminate.
    + destruct (semaCap p <? 0) eqn:Hneg; [discriminate|].
      injection Hg as <- <-. simpl. rewrite lookup_insert_eq.
      split_and!; try reflexivity; try discriminate.
      intros other Hne. rewrite lookup_insert_ne by congruence. reflexivity.
Qed.

Lemma StopIn_all_room order : forall p,
  NoDup order ->
  (forall id s, id ∈ order -> ss p !! id = Some s -> hasRoom s) ->
  exists p',
    StopIn order p = StopReturned p' /\ semaCap p' = semaCap p /\
    forall id, ss p' !! id =
      if decide (id ∈ order) then acquired <$> ss p !! id else ss p !! id.
Proof.
  induction order as [|id0 rest IH]; intros p Hnd Hroom.
  - exists p. split_and!; reflexivity.
  - apply NoDup_cons in Hnd as [Hnin Hnd]. simpl.
    destruct (ss p !! id0) as [s0|] eqn:E0.
    + assert (Acquire s0 = AcqReturned (acquired s0)) as ->.
      { unfold Acquire. pose proof (Hroom id0 s0 (list_elem_of_here _ _) E0) as Hr.
        unfold hasRoom in Hr. apply Nat.ltb_lt in Hr. rewrite Hr. reflexivity. }
      destruct (IH (through p id0 (acquired s0)) Hnd) as (p' & Hstop & Hcap & Hlook).
      { intros id s Hin Hl. simpl in Hl.
        rewrite lookup_insert_ne in Hl by (intros ->; contradiction).
        eapply Hroom; [right; exact Hin|exact Hl]. }
      exists p'. split; [exact Hstop|]. split; [exact Hcap|].
      intros id. rewrite Hlook. simpl.
      destruct (decide (id = id0)) as [->|Hne].
      * rewrite decide_False by exact Hnin. rewrite lookup_insert_eq.
        rewrite decide_True by left. rewrite E0. reflexivity.
      * rewrite lookup_insert_ne by congruence.
        destruct (decide (id ∈ rest)) as [Hin|Hout].
        -- rewrite decide_True by (right; exact Hin). reflexivity.
        -- rewrite decide_False; [reflexivity|].
           intros Hin. apply elem_of_cons in Hin as [?|?]; contradiction.
    + destruct (IH p Hnd) as (p' & Hstop & Hcap & Hlook).
      { intros id s Hin Hl. eapply Hroom; [right; exact Hin|exact Hl]. }
      exists p'. split; [exact Hstop|]. split; [exact Hcap|].
      intros id. rewrite Hlook.
      destruct (decide (id = id0)) as [->|Hne].
      * rewrite decide_False by exact Hnin. rewrite decide_True by left.
        rewrite E0. reflexivity.
      * destruct (decide (id ∈ rest)) as [Hin|Hout].
        -- rewrite decide_True by (right; exact Hin). reflexivity.
        -- rewrite decide_False; [reflexivity|].
           intros Hin. apply elem_of_cons in Hin as [?|?]; contradiction.
Qed.

Lemma StopIn_parked order : forall p id rest p',
  NoDup order ->
  StopIn order p = StopParked id rest p' ->
  exists s before,
    order = before ++ id :: rest /\ ss p !! id = Some s /\ ~ hasRoom s /\
    forall j, ss p' !! j =
      if decide (j ∈ before) then acquired <$> ss p !! j
      else if decide (j = id) then Some (awaited s) else ss p !! j.
Proof.
  induction order as [|id0 rest0 IH]; intros p id rest p' Hnd Hs; [discriminate|].
  apply NoDup_cons in Hnd as [Hnin Hnd]. simpl in Hs.
  destruct (ss p !! id0) as [s0|] eqn:E0.
  - unfold Acquire in Hs. destruct (Nat.ltb_spec (tokens s0) (capacity s0)) as [Hlt|Hge].
    + destruct (IH _ _ _ _ Hnd Hs) as (s & before & -> & Hl & Hfull & Hlook).
      assert (id <> id0) as Hne0
        by (intros ->; apply Hnin; rewrite elem_of_app, elem_of_cons; tauto).
      assert (id0 ∉ before) as Hnb
        by (intros Hb; apply Hnin; rewrite elem_of_app; tauto).
      simpl in Hl. rewrite lookup_insert_ne in Hl by congruence.
      exists s, (id0 :: before). split; [reflexivity|]. split; [exact Hl|].
      split; [exact Hfull|].
      intros j. rewrite Hlook. simpl.
      destruct (decide (j = id0)) as [->|Hne].
      * rewrite (decide_False (P := id0 ∈ before)) by exact Hnb.
        rewrite (decide_False (P := id0 = id)) by congruence.
        rewrite lookup_insert_eq, decide_True by left. rewrite E0. reflexivity.
      * rewrite lookup_insert_ne by congruence.
        destruct (decide (j ∈ before)) as [Hin|Hout].
        -- rewrite decide_True by (right; exact Hin). reflexivity.
        -- rewrite (decide_False (P := j ∈ id0 :: before)); [reflexivity|].
           intros Hin. apply elem_of_cons in Hin as [?|?]; contradiction.
    + injection Hs as <- <- <-. exists s0, []. split; [reflexivity|].
      split; [exact E0|]. split; [unfold hasRoom; lia|].
      intros j. rewrite decide_False by apply not_elem_of_nil. simpl.
      destruct (decide (j = id0)) as [->|Hne].
      * rewrite lookup_insert_eq. reflexivity.
      * rewrite lookup_insert_ne by congruence. reflexivity.
  - destruct (IH _ _ _ _ Hnd Hs) as (s & before & -> & Hl & Hfull & Hlook).
    assert (id <> id0) as Hne0 by (intros ->; congruence).
    assert (id0 ∉ before) as Hnb
      by (intros Hb; apply Hnin; rewrite elem_of_app; tauto).
    exists s, (id0 :: before). split; [reflexivity|]. split; [exact Hl|].
    split; [exact Hfull|].
    intros j. rewrite Hlook.
    destruct (decide (j = id0)) as [->|Hne].
    + rewrite (decide_False (P := id0 ∈ before)) by exact Hnb.
      rewrite (decide_False (P := id0 = id)) by congruence.
      rewrite decide_True by left. rewrite E0. reflexivity.
    + destruct (decide (j ∈ before)) as [Hin|Hout].
      * rewrite decide_True by (right; exact Hin). reflexivity.
      * rewrite (decide_False (P := j ∈ id0 :: before)); [reflexivity|].
        intros Hin. apply elem_of_cons in Hin as [?|?]; contradiction.
Qed.

Lemma Release_awaited s :
  quiet s -> ~ hasRoom s -> Release (awaited s) = RelDone s.
Proof.
  destruct s as [c t p]. unfold quiet, hasRoom, Release, awaited. simpl.
  intros [-> Hle] Hfull. destruct t; reflexivity.
Qed.

Lemma StopReleased_returned n p : StopReleased n (StopReturned p) = Some p.
Proof. destruct n; reflexivity. Qed.

Lemma StopReleased_spec order : forall p n,
  NoDup order -> (length order <= n)%nat ->
  (forall id s, id ∈ order -> ss p !! id = Some s -> quiet s) ->
  exists p',
    StopReleased n (StopIn order p) = Some p' /\ semaCap p' = semaCap p /\
    forall id, ss p' !! id =
      if decide (id ∈ order) then held <$> ss p !! id else ss p !! id.
Proof.
  induction order as [|id0 rest IH]; intros p n Hnd Hlen Hq.
  - exists p. simpl. rewrite StopReleased_returned. split_and!; reflexivity.
  - apply NoDup_cons in Hnd as [Hnin Hnd]. simpl in Hlen. simpl StopIn.
    destruct (ss p !! id0) as [s0|] eqn:E0.
    + pose proof (Hq id0 s0 (list_elem_of_here _ _) E0) as Hq0.
      unfold Acquire. destruct (Nat.ltb_spec (tokens s0) (capacity s0)) as [Hlt|Hge].
      * destruct (IH (through p id0
                   {| capacity := capacity s0; tokens := S (tokens s0); parked := parked s0 |})
                   n Hnd) as (p' & Hstop & Hcap & Hlook); [lia| |].
        { intros id s Hin Hl. simpl in Hl.
          rewrite lookup_insert_ne in Hl by (intros ->; contradiction).
          eapply Hq; [right; exact Hin|exact Hl]. }
        exists p'. split; [exact Hstop|]. split; [exact Hcap|].
        intros id. rewrite Hlook. simpl.
        destruct (decide (id = id0)) as [->|Hne].
        -- rewrite decide_False by exact Hnin. rewrite lookup_insert_eq.
           rewrite decide_True by left. rewrite E0. simpl. unfold held.
           apply Nat.ltb_lt in Hlt. rewrite Hlt. reflexivity.
        -- rewrite lookup_insert_ne by congruence.
           destruct (decide (id ∈ rest)) as [Hin|Hout].
           ++ rewrite decide_True by (right; exact Hin). reflexivity.
           ++ rewrite decide_False; [reflexivity|].
              intros Hin. apply elem_of_cons in Hin as [?|?]; contradiction.
      * destruct n as [|n]; [lia|]. simpl StopReleased.
        fold (awaited s0).
        assert (ReleaseOf (through p id0 (awaited s0)) id0 =
                Some (through p id0 s0)) as ->.
        { unfold ReleaseOf. simpl. rewrite lookup_insert_eq.
          rewrite Release_awaited by (try exact Hq0; unfold hasRoom; lia).
          unfold through. simpl. rewrite insert_insert_eq. reflexivity. }
        destruct (IH (through p id0 s0) n Hnd) as (p' & Hstop & Hcap & Hlook); [lia| |].
        { intros id s Hin Hl. simpl in Hl.
          rewrite lookup_insert_ne in Hl by (intros ->; contradiction).
          eapply Hq; [right; exact Hin|exact Hl]. }
        exists p'. split; [exact Hstop|]. split; [exact Hcap|].
        intros id. rewrite Hlook. simpl.
        destruct (decide (id = id0)) as [->|Hne].
        -- rewrite decide_False by exact Hnin. rewrite lookup_insert_eq.
           rewrite decide_True by left. rewrite E0. simpl. unfold held.
           apply Nat.ltb_ge in Hge. rewrite Hge. reflexivity.
        -- rewrite lookup_insert_ne by congruence.
           destruct (decide (id ∈ rest)) as [Hin|Hout].
           ++ rewrite decide_True by (right; exact Hin). reflexivity.
           ++ rewrite decide_False; [reflexivity|].
              intros Hin. apply elem_of_cons in Hin as [?|?]; contradiction.
    + destruct (IH p n Hnd) as (p' & Hstop & Hcap & Hlook); [lia| |].
      { intros id s Hin Hl. eapply Hq; [right; exact Hin|exact Hl]. }
      exists p'. split; [exact Hstop|]. split; [exact Hcap|].
      intros id. rewrite Hlook.
      destruct (decide (id = id0)) as [->|Hne].
      * rewrite decide_False by exact Hnin. rewrite decide_True by left.
        rewrite E0. reflexivity.
      * destruct (decide (id ∈ rest)) as [Hin|Hout].
        -- rewrite decide_True by (right; exact Hin). reflexivity.
        -- rewrite decide_False; [reflexivity|].
           intros Hin. apply elem_of_cons in Hin as [?|?]; contradiction.
Qed.

(** X5. [Stop] takes a place in every semaphore of the pool, in whatever
    order [range] visits the map.  On a pool on whose semaphores no
    goroutine is waiting when [Stop] starts, and with no other call on them
    while it runs than the releases it waits for: [Stop] returns without
    waiting when every semaphore has room, each then holding one token
    more, and only then; when it waits, mutex held, it is at a full
    semaphore, the semaphores visited before hold one token more and the
    others are as they were, and a [Release] of that semaphore by a holder
    does not panic and leaves the semaphore full, the place now being
    [Stop]'s, which goes on with the rest of the range.  Once the holders
    have released every semaphore it waits for, [Stop] has returned with a
    place in every semaphore: one token more where there was room, the
    place that was given up where there was none. *)
Theorem Stop_takes_every_semaphore :
  forall (p : SemaphorePool) (order : list string),
    rangeOrder p order ->
    (forall id s, ss p !! id = Some s -> quiet s) ->
    ((forall id s, ss p !! id = Some s -> hasRoom s) ->
       StopIn order p = StopReturned {| ss := acquired <$> ss p; semaCap := semaCap p |}) /\
    (forall p', StopIn order p = StopReturned p' ->
       forall id s, ss p !! id = Some s -> hasRoom s) /\
    (forall id rest p', StopIn order p = StopParked id rest p' ->
       exists s before,
         order = before ++ id :: rest /\
         ss p !! id = Some s /\ ~ hasRoom s /\
         (forall j, ss p' !! j =
            if decide (j ∈ before) then acquired <$> ss p !! j
            else if decide (j = id) then Some (awaited s) else ss p !! j) /\
         ReleaseOf p' id = Some (through p' id s) /\
         StopReleased (S (length rest)) (StopIn order p) =
           StopReleased (length rest) (StopIn rest (through p' id s))) /\
    StopReleased (length order) (StopIn order p) =
      Some {| ss := held <$> ss p; semaCap := semaCap p |}.
Proof.
  intros p order [Hnd Hdom] Hquiet.
  assert (forall id rest p', StopIn order p = StopParked id rest p' ->
    exists s before,
      order = before ++ id :: rest /\
      ss p !! id = Some s /\ ~ hasRoom s /\
      (forall j, ss p' !! j =
         if decide (j ∈ before) then acquired <$> ss p !! j
         else if decide (j = id) then Some (awaited s) else ss p !! j) /\
      ReleaseOf p' id = Some (through p' id s)) as Hpark.
  { intros id rest p' Hs.
    destruct (StopIn_parked order p id rest p' Hnd Hs) as (s & before & Ho & Hl & Hfull & Hlook).
    exists s, before. split_and!; try assumption.
    unfold ReleaseOf. rewrite Hlook.
    assert (id ∉ before) as Hnb.
    { subst order. apply NoDup_app in Hnd as (_ & Hdis & _).
      intros Hb. apply (Hdis id Hb). left. }
    rewrite decide_False by exact Hnb. rewrite decide_True by reflexivity.
    rewrite Release_awaited by eauto. reflexivity. }
  split_and!.
  - intros Hroom.
    destruct (StopIn_all_room order p Hnd) as (p' & Hstop & Hcap & Hlook).
    { intros id s _ Hl. eapply Hroom; eauto. }
    rewrite Hstop. f_equal. destruct p' as [m c]. simpl in *. subst c. f_equal.
    apply map_eq. intros id. rewrite Hlook, lookup_fmap.
    destruct (decide (id ∈ order)) as [Hin|Hout]; [reflexivity|].
    destruct (ss p !! id) eqn:E; [|reflexivity].
    exfalso. apply Hout, Hdom. eauto.
  - intros p' Hret id s Hl.
    destruct (Nat.lt_ge_cases (tokens s) (capacity s)) as [Hlt|Hge]; [exact Hlt|].
    exfalso.
    assert (exists id' rest p1, StopIn order p = StopParked id' rest p1) as (id' & rest & p1 & Hs).
    { assert (id ∈ order) as Hin by (apply Hdom; eauto).
      clear Hdom Hpark Hret Hquiet. revert p Hl Hin.
      induction order as [|id0 rest0 IH]; intros p Hl Hin; [inversion Hin|].
      apply NoDup_cons in Hnd as [Hnin Hnd']. simpl.
      destruct (ss p !! id0) as [s0|] eqn:E0.
      - unfold Acquire. destruct (Nat.ltb_spec (tokens s0) (capacity s0)) as [Hlt0|Hge0];
          [|eauto].
        assert (id <> id0) as Hne by (intros ->; rewrite E0 in Hl; injection Hl as ->; lia).
        apply elem_of_cons in Hin as [?|Hin]; [contradiction|].
        apply (IH Hnd'); [|exact Hin].
        simpl. rewrite lookup_insert_ne by congruence. exact Hl.
      - assert (id <> id0) as Hne by (intros ->; congruence).
        apply elem_of_cons in Hin as [?|Hin]; [contradiction|].
        apply (IH Hnd'); assumption. }
    rewrite Hs in Hret. discriminate.
  - intros id rest p' Hs.
    destruct (Hpark id rest p' Hs) as (s & before & Ho & Hl & Hfull & Hlook & Hrel).
    exists s, before. split_and!; try assumption.
    rewrite Hs. simpl. rewrite Hrel. reflexivity.
  - destruct (StopReleased_spec order p (length order) Hnd (le_n _)) as (p' & Hstop & Hcap & Hlook).
    { intros id s _ Hl. eapply Hquiet; eauto. }
    rewrite Hstop. f_equal. destruct p' as [m c]. simpl in *. subst c. f_equal.
    apply map_eq. intros id. rewrite Hlook, lookup_fmap.
    destruct (decide (id ∈ order)) as [Hin|Hout]; [reflexivity|].
    destruct (ss p !! id) eqn:E; [|reflexivity].
    exfalso. apply Hout, Hdom. eauto.
Qed.

Lemma semaphore_never_over_capacity_witness :
  capacity {| capacity := 2; tokens := 2; parked := 1 |} = Z.to_nat 2 /\
  (tokens {| capacity := 2; tokens := 2; parked := 1 |} <= 2)%nat.
Proof.
  destruct (semaphore_never_over_capacity 2
              {| capacity := 2; tokens := 0; parked := 0 |}
              {| capacity := 2; tokens := 2; parked := 1 |}
              [CallAcquire; CallTryAcquire; CallTryAcquire; CallAcquire] 3%nat
              eq_refl eq_refl) as (H1 & H2 & _).
  split; [exact H1|exact H2].
Defined.

Lemma acquire_then_release_restores_witness :
  Release {| capacity := 2; tokens := 2; parked := 0 |} =
    RelDone {| capacity := 2; tokens := 1; parked := 0 |}.
Proof.
  destruct (acquire_then_release_restores 2
              {| capacity := 2; tokens := 0; parked := 0 |}
              {| capacity := 2; tokens := 1; parked := 0 |}
              [CallAcquire] 1%nat eq_refl eq_refl) as (H1 & _).
  apply H1. reflexivity.
Defined.

Lemma try_acquire_grants_capacity_witness :
  run (replicate 5 CallTryAcquire) ({| capacity := 3; tokens := 0; parked := 0 |}, 0%nat) =
    Some ({| capacity := 3; tokens := 3; parked := 0 |}, 3%nat).
Proof.
  exact (try_acquire_grants_capacity 3 {| capacity := 3; tokens := 0; parked := 0 |} 5 eq_refl).
Defined.

End UtilExtra.

(** ** The conversions *)

Module ConvExtra.
Import Net ApiRecord.

(** X6. [RecToServiceRec] and [RecFromServiceRec] are inverse to each
    other: a record survives the trip between the API form and the service
    form, either way, with its four nodes. *)
Theorem service_record_round_trip :
  (forall r : Log_Record, RecToServiceRec (RecFromServiceRec r) = r) /\
  (forall r : Record, RecFromServiceRec (RecToServiceRec r) = r).
Proof. split; intros []; reflexivity. Qed.

(** X7. [logFromProto] undoes [logToProto] and [logToProto] undoes
    [logFromProto]; the address lists keep their length and order on the
    way. *)
Theorem log_proto_round_trip :
  (forall l : LogInfo, logFromProto (logToProto l) = l) /\
  (forall l : pbLog, logToProto (logFromProto l) = l) /\
  (forall mas, addrsFromProto (addrsToProto mas) = mas /\
               length (addrsToProto mas) = length mas) /\
  (forall pas, addrsToProto (addrsFromProto pas) = pas /\
               length (addrsFromProto pas) = length pas).
Proof.
  assert (forall mas, addrsFromProto (addrsToProto mas) = mas) as H1.
  { intros mas. unfold addrsFromProto, addrsToProto. rewrite map_map. simpl. apply map_id. }
  assert (forall pas, addrsToProto (addrsFromProto pas) = pas) as H2.
  { intros pas. unfold addrsFromProto, addrsToProto. rewrite map_map.
    induction pas as [|[a] pas IH]; simpl; [reflexivity|]. f_equal. exact IH. }
  split_and!.
  - intros [i k a h]. unfold logFromProto, logToProto. simpl. rewrite H1. reflexivity.
  - intros [i k a h]. unfold logFromProto, logToProto. simpl. rewrite H2. reflexivity.
  - intros mas. split; [apply H1|]. unfold addrsToProto. apply length_map.
  - intros pas. split; [apply H2|]. unfold addrsFromProto. apply length_map.
Qed.

End ConvExtra.

(** ** The server, further *)

Module NetExtra.
Import Net NetMore.

Section MoreProperties.

Context {W R : Type} `{!Collaborators W R}.
Context `{!Marshaler GetLogsRequest_Body} `{!Marshaler PushLogRequest_Body}
        `{!Marshaler GetRecordsRequest_Body} `{!Marshaler PushRecordRequest_Body}
        `{!Marshaler ExchangeEdgesRequest_Body}.
Context {P : Type} `{!PubSubLib W P}.

Variable MaxPullLimit : Z.
Variable s : server.

Ltac step_handler :=
  unfold handler, mbind, M_bind, mret, M_ret, ask, exit, emit, call, orStatus, applyStatus;
  simpl.

Ltac list_cases :=
  repeat match goal with
         | H : _ ∈ _ |- _ => progress (rewrite ?elem_of_cons, ?elem_of_nil, ?elem_of_app in H)
         end;
  rewrite ?elem_of_cons, ?elem_of_nil, ?elem_of_app;
  naive_solver.

(** *** [verifyRequest] *)

Lemma verified_cases {A Body} `{!Marshaler Body} (req : Request Body) (w : W) :
  (exists pid body, passes req pid body /\
                    verified (A := A) req w = (inl (pid, body), w, [])) \/
  (exists r, verified (A := A) req w = (inr r, w, []) /\
             (r = panicked \/
              exists e, r = (None, Some e) /\
                        verifyRequest (req_Header req) (Some (req_Body req)) =
                          Returns (inr e))).
Proof.
  unfold verified.
  destruct (verifyRequest (req_Header req) (Some (req_Body req))) as [[pid|e]|] eqn:Ev.
  - destruct (NetSpec.verifyRequest_needs_body _ _ _ Ev) as [_ [body Hb]].
    left. exists pid, body. rewrite Hb. split; [split; assumption|reflexivity].
  - right. eexists. split; [reflexivity|]. right. eauto.
  - right. eexists. split; [reflexivity|]. left. reflexivity.
Qed.

Lemma verified_refuses {A Body} `{!Marshaler Body} (req : Request Body) e (w : W) :
  verifyRequest (req_Header req) (Some (req_Body req)) = Returns (inr e) ->
  verified (A := A) req w = (inr (None, Some e), w, []).
Proof. intros Ev. unfold verified. rewrite Ev. reflexivity. Qed.

Lemma verified_no_header {A Body} `{!Marshaler Body} (req : Request Body) (w : W) :
  req_Header req = None ->
  verified (A := A) req w =
    (inr (None, Some (StatusMsg InvalidArgument "bad request")), w, []).
Proof. intros Hh. unfold verified, verifyRequest. rewrite Hh. reflexivity. Qed.

Lemma verified_no_body {A Body} `{!Marshaler Body} (req : Request Body) (w : W) :
  req_Header req <> None -> req_Body req = None ->
  verified (A := A) req w = (inr panicked, w, []).
Proof.
  intros Hh Hb. unfold verified, verifyRequest. rewrite Hb.
  destruct (req_Header req); [reflexivity|congruence].
Qed.

(** X9. A request that does not get past [verifyRequest] has no effect in
    any of the five handlers: the store is left as it was and no call is
    made (nothing is scheduled, reported, written or fetched).  A request
    [verifyRequest] refuses is answered with its error and no reply; a
    request without a header is so refused with [InvalidArgument], "bad
    request", whatever its body; a request with a header and a nil body is
    not answered: the handler panics inside [verifyRequest]. *)
Theorem unverified_request_has_no_effect :
  forall (w : W),
    (forall e,
       (forall req, verifyRequest (req_Header req) (Some (req_Body req)) = Returns (inr e) ->
                    GetLogs req w = ((None, Some e), w, [])) /\
       (forall req, verifyRequest (req_Header req) (Some (req_Body req)) = Returns (inr e) ->
                    PushLog req w = ((None, Some e), w, [])) /\
       (forall req, verifyRequest (req_Header req) (Some (req_Body req)) = Returns (inr e) ->
                    GetRecords MaxPullLimit s req w = ((None, Some e), w, [])) /\
       (forall req, verifyRequest (req_Header req) (Some (req_Body req)) = Returns (inr e) ->
                    PushRecord s req w = ((None, Some e), w, [])) /\
       (forall req, verifyRequest (req_Header req) (Some (req_Body req)) = Returns (inr e) ->
                    ExchangeEdges s req w = ((None, Some e), w, []))) /\
    (let refused := StatusMsg InvalidArgument "bad request" in
     (forall req, req_Header req = None ->
                  GetLogs req w = ((None, Some refused), w, [])) /\
     (forall req, req_Header req = None ->
                  PushLog req w = ((None, Some refused), w, [])) /\
     (forall req, req_Header req = None ->
                  GetRecords MaxPullLimit s req w = ((None, Some refused), w, [])) /\
     (forall req, req_Header req = None ->
                  PushRecord s req w = ((None, Some refused), w, [])) /\
     (forall req, req_Header req = None ->
                  ExchangeEdges s req w = ((None, Some refused), w, []))) /\
    ((forall req, req_Header req <> None -> req_Body req = None ->
                  GetLogs req w = (panicked, w, [])) /\
     (forall req, req_Header req <> None -> req_Body req = None ->
                  PushLog req w = (panicked, w, [])) /\
     (forall req, req_Header req <> None -> req_Body req = None ->
                  GetRecords MaxPullLimit s req w = (panicked, w, [])) /\
     (forall req, req_Header req <> None -> req_Body req = None ->
                  PushRecord s req w = (panicked, w, [])) /\
     (forall req, req_Header req <> None -> req_Body req = None ->
                  ExchangeEdges s req w = (panicked, w, []))).
Proof.
  intros w. split; [|split].
  - intros e. split_and!; intros req Ev.
    + unfold GetLogs. step_handler. rewrite (verified_refuses _ _ _ Ev). reflexivity.
    + unfold PushLog. step_handler. rewrite (verified_refuses _ _ _ Ev). reflexivity.
    + unfold GetRecords. step_handler. rewrite (verified_refuses _ _ _ Ev). reflexivity.
    + unfold PushRecord. step_handler. rewrite (verified_refuses _ _ _ Ev). reflexivity.
    + unfold ExchangeEdges. step_handler. rewrite (verified_refuses _ _ _ Ev). reflexivity.
  - cbv zeta. split_and!; intros req Hh.
    + unfold GetLogs. step_handler. rewrite (verified_no_header _ _ Hh). reflexivity.
    + unfold PushLog. step_handler. rewrite (verified_no_header _ _ Hh). reflexivity.
    + unfold GetRecords. step_handler. rewrite (verified_no_header _ _ Hh). reflexivity.
    + unfold PushRecord. step_handler. rewrite (verified_no_header _ _ Hh). reflexivity.
    + unfold ExchangeEdges. step_handler. rewrite (verified_no_header _ _ Hh). reflexivity.
  - split_and!; intros req Hh Hb.
    + unfold GetLogs. step_handler. rewrite (verified_no_body _ _ Hh Hb). reflexivity.
    + unfold PushLog. step_handler. rewrite (verified_no_body _ _ Hh Hb). reflexivity.
    + unfold GetRecords. step_handler. rewrite (verified_no_body _ _ Hh Hb). reflexivity.
    + unfold PushRecord. step_handler. rewrite (verified_no_body _ _ Hh Hb). reflexivity.
    + unfold ExchangeEdges. step_handler. rewrite (verified_no_body _ _ Hh Hb). reflexivity.
Qed.

(** *** [GetLogs] *)

(** X10. A verified [GetLogs] request with the right service key gets all
    local logs of the thread, in the order of the store, one reply log each:
    turning the reply back with [logFromProto] gives the logs of the store.
    If [GetThread] fails the RPC fails [Internal].  Either way the store is
    left as it was and no call is made. *)
Theorem GetLogs_returns_the_local_logs :
  forall (req : Request GetLogsRequest_Body) (pid : PeerID)
         (body : GetLogsRequest_Body) (w : W),
    passes req pid body ->
    checkServiceKey (gl_ThreadID body) (gl_ServiceKey body) w = None ->
    (forall info,
       store_GetThread w (gl_ThreadID body) = (info, None) ->
       exists reply,
         GetLogs req w = ((Some reply, None), w, []) /\
         logFromProto <$> glr_Logs reply = Logs info /\
         length (glr_Logs reply) = length (Logs info)) /\
    (forall info err,
       store_GetThread w (gl_ThreadID body) = (info, Some err) ->
       GetLogs req w = ((None, Some (StatusErr Internal err)), w, [])).
Proof.
  intros req pid body w Hp Hc. split.
  - intros info Hg. exists {| glr_Logs := map logToProto (Logs info) |}. split_and!.
    + unfold GetLogs. step_handler. rewrite (NetSpec.verified_passes _ _ _ _ Hp).
      rewrite Hc, Hg. reflexivity.
    + simpl. induction (Logs info) as [|l ls IH]; [reflexivity|].
      cbn [map]. rewrite fmap_cons. f_equal; [|exact IH].
      destruct l. unfold logFromProto, logToProto, addrsFromProto, addrsToProto. simpl.
      rewrite map_map. simpl. rewrite map_id. reflexivity.
    + simpl. apply length_map.
  - intros info err Hg. unfold GetLogs. step_handler.
    rewrite (NetSpec.verified_passes _ _ _ _ Hp). rewrite Hc, Hg. reflexivity.
Qed.

(** *** [PushRecord] and [pubsubHandler] *)


(** X12. [PushRecord] calls [PutRecord] at most once, and only for a
    verified request whose log is known locally and whose record decodes
    under the thread's service key, is not yet known, and carries a
    signature that verifies under the log's public key; the call is made
    for the thread, the log and the record of the request. *)
Theorem PutRecord_only_after_all_checks :
  forall (req : Request PushRecordRequest_Body) (w : W),
    (length (filter (fun e => storeWrite e = true) (PushRecord s req w).2) <= 1)%nat /\
    (forall t l c,
       PutRecord t l c ∈ (PushRecord s req w).2 ->
       exists pid body logpk key rec,
         passes req pid body /\
         t = pr_ThreadID body /\ l = pr_LogID body /\ c = rec_Cid rec /\
         store_PubKey w t l = inl (Some logpk) /\
         store_ServiceKey w t = inl key /\
         RecordFromProto (pr_Record body) key = inl rec /\
         net_isKnown w c = inl false /\
         rec_Verify rec logpk = None).
Proof.
  intros req w.
  destruct (verified_cases (A := PushRecordReply) req w)
    as [(pid & body & Hp & Hv)|(r & Hv & _)].
  2:{ unfold PushRecord. step_handler. rewrite Hv. simpl.
      split; [lia|intros t l c Hin; inversion Hin]. }
  destruct (store_PubKey w (pr_ThreadID body) (pr_LogID body)) as [[logpk|]|err] eqn:Epk.
  2,3: unfold PushRecord; step_handler; rewrite Hv; simpl; rewrite Epk; simpl;
       (split; [lia|intros t l c Hin; inversion Hin]).
  destruct (store_ServiceKey w (pr_ThreadID body)) as [key|err] eqn:Esk.
  2: unfold PushRecord; step_handler; rewrite Hv; simpl; rewrite Epk; simpl;
     rewrite Esk; simpl; (split; [lia|intros t l c Hin; inversion Hin]).
  destruct (RecordFromProto (pr_Record body) key) as [rec|err] eqn:Erec.
  2: unfold PushRecord; step_handler; rewrite Hv; simpl; rewrite Epk; simpl;
     rewrite Esk; simpl; rewrite Erec; simpl;
     (split; [lia|intros t l c Hin; inversion Hin]).
  destruct (net_isKnown w (rec_Cid rec)) as [[|]|err] eqn:Ekn.
  1,3: unfold PushRecord; step_handler; rewrite Hv; simpl; rewrite Epk; simpl;
       rewrite Esk; simpl; rewrite Erec; simpl; rewrite Ekn; simpl;
       try destruct (tStat s); simpl;
       (split; [lia|intros t l c Hin; list_cases]).
  destruct (rec_Verify rec logpk) as [err|] eqn:Ever.
  1: unfold PushRecord; step_handler; rewrite Hv; simpl; rewrite Epk; simpl;
     rewrite Esk; simpl; rewrite Erec; simpl; rewrite Ekn; simpl; rewrite Ever;
     (split; [simpl; lia|intros t l c Hin; inversion Hin]).
  rewrite (NetSpec.PushRecord_reaches_put _ _ _ _ _ _ _ _ Hp Epk Esk Erec Ekn Ever).
  unfold handler, putAndReport.
  destruct (net_PutRecord w (pr_ThreadID body) (pr_LogID body) rec) as [w' [err|]];
    destruct (tStat s); simpl; (split; [lia|]);
    intros t l c Hin; exists pid, body, logpk, key, rec;
    assert (PutRecord t l c = PutRecord (pr_ThreadID body) (pr_LogID body) (rec_Cid rec))
      as Heq by list_cases;
    injection Heq as -> -> ->; auto 10.
Qed.

(** X13. A record that comes in over pubsub for a log that is not known
    locally is logged and dropped: the handler changes nothing in the store
    and makes no call.  A record whose cid is already known is accepted
    without a log line, the store left as it was. *)
Theorem pubsub_record_before_its_log_is_dropped :
  forall (req : Request PushRecordRequest_Body) (pid : PeerID)
         (body : PushRecordRequest_Body) (w : W),
    passes req pid body ->
    (store_PubKey w (pr_ThreadID body) (pr_LogID body) = inl None ->
       pubsubHandler s req w = (w, [], Some (StatusMsg NotFound "log not found"))) /\
    (forall logpk key rec,
       store_PubKey w (pr_ThreadID body) (pr_LogID body) = inl (Some logpk) ->
       store_ServiceKey w (pr_ThreadID body) = inl key ->
       RecordFromProto (pr_Record body) key = inl rec ->
       net_isKnown w (rec_Cid rec) = inl true ->
       pubsubHandler s req w =
         (w, if tStat s then [Apply pid (pr_ThreadID body) threadStatusDownloadDone] else [],
          None)).
Proof.
  intros req pid body w Hp. unfold pubsubHandler, PushRecord. step_handler.
  rewrite (NetSpec.verified_passes _ _ _ _ Hp). split.
  - intros ->. reflexivity.
  - intros logpk key rec Hpk Hsk Hrec Hkn.
    rewrite Hpk; simpl. rewrite Hsk; simpl. rewrite Hrec; simpl. rewrite Hkn; simpl.
    destruct (tStat s); reflexivity.
Qed.

(** *** [PushLog] *)

Lemma verifyRequest_error_has_code {Body} `{!Marshaler Body}
    (header : option Header) (body : option (option Body)) e :
  verifyRequest header body = Returns (inr e) -> is_Some (codeOf e).
Proof.
  unfold verifyRequest.
  destruct header as [h|], body as [[b|]|]; try discriminate;
    try (intros [= <-]; simpl; eauto).
  destruct (Marshal b) as [payload|err]; [|intros [= <-]; simpl; eauto].
  destruct (pubkey_Verify _ _ _) as [[|] [verr|]]; try (intros [= <-]; simpl; eauto).
  destruct (IDFromPublicKey _) as [p|err]; [discriminate|intros [= <-]; simpl; eauto].
Qed.

Ltac case_all :=
  repeat (simpl; match goal with
                 | |- context [match ?x with _ => _ end] =>
                     lazymatch x with
                     | context [match _ with _ => _ end] => fail
                     | _ => destruct x eqn:?
                     end
                 end).

Ltac finish :=
  intros; simpl in *;
  repeat match goal with
         | |- _ <-> _ => split; intros
         | |- _ ∉ _ => intros ?
         | H : exists _, _ |- _ => destruct H
         | H : _ /\ _ |- _ => destruct H
         | H : _ ∈ _ |- _ =>
             progress (rewrite ?elem_of_cons, ?elem_of_nil, ?elem_of_app in H)
         end;
  try discriminate;
  first [ solve [naive_solver]
        | solve [do 2 eexists; rewrite ?elem_of_cons, ?elem_of_app, ?elem_of_cons; eauto 10]
        | solve [simpl; eauto] ].

(** X14. [PushLog] answers with the empty reply exactly when it has
    scheduled the record update for the caller, and it schedules nothing
    else: one [updateRecordsFromPeer], at low priority, on the records
    queue, as the last call it makes.  It never reports a status, and every
    error it returns carries a status code. *)
Theorem PushLog_schedules_iff_accepted :
  forall (req : Request PushLogRequest_Body) (w : W),
    ((PushLog req w).1.1 = (Some mkPushLogReply, None) <->
       exists p t, Schedule queueGetRecords p t callPriorityLow updateRecordsFromPeer
                     ∈ (PushLog req w).2) /\
    (forall q p t prio fn, Schedule q p t prio fn ∈ (PushLog req w).2 ->
       q = queueGetRecords /\ prio = callPriorityLow /\ fn = updateRecordsFromPeer /\
       last (PushLog req w).2 = Some (Schedule q p t prio fn)) /\
    (forall p t st, Apply p t st ∉ (PushLog req w).2) /\
    (forall e, (PushLog req w).1.1.2 = Some e ->
       (PushLog req w).1.1.1 = None /\ is_Some (codeOf e)).
Proof.
  intros req w.
  destruct (verified_cases (A := PushLogReply) req w)
    as [(pid & body & Hp & Hv)|(r & Hv & [->|(e & -> & He)])].
  2:{ unfold PushLog. step_handler. rewrite Hv. simpl. split_and!; finish. }
  2:{ pose proof (verifyRequest_error_has_code _ _ _ He) as Hcode.
      unfold PushLog. step_handler. rewrite Hv. simpl.
      split_and!; finish. }
  unfold PushLog, pickUpKeys. step_handler. rewrite Hv. simpl.
  destruct (store_GetThread w (pl_ThreadID body)) as [info gerr].
  case_all; split_and!; finish.
Qed.

(** *** The handlers that only read *)

Lemma passive_bind {X A B} (m : @M W X A) (k : A -> @M W X B) :
  passive m -> (forall a, passive (k a)) -> passive (m ≫= k).
Proof.
  intros Hm Hk w. unfold mbind, M_bind.
  destruct (Hm w) as [Hw He]. destruct (m w) as [[[a|x] w1] t1]; simpl in *; subst w1.
  - destruct (Hk a w) as [Hw' He']. destruct (k a w) as [[r w2] t2]. simpl in *.
    split; [exact Hw'|]. intros e Hin. apply elem_of_app in Hin as [Hin|Hin]; auto.
  - split; [reflexivity|exact He].
Qed.

Lemma passive_quiet {X A} (m : @M W X A) :
  (forall w, exists r, m w = (r, w, [])) -> passive m.
Proof.
  intros Hq w. destruct (Hq w) as [r ->]. simpl.
  split; [reflexivity|intros e Hin; inversion Hin].
Qed.

Lemma passive_exchangeEntry pid entry : passive (exchangeEntry s pid entry).
Proof.
  intros w. unfold exchangeEntry, localEdges. step_handler.
  case_all; split; try reflexivity; finish.
Qed.

Lemma passive_exchangeLoop pid entries : forall edges,
  passive (exchangeLoop s pid entries edges).
Proof.
  induction entries as [|entry rest IH]; intros edges.
  - apply passive_quiet. intros w. eexists. reflexivity.
  - simpl. apply passive_bind; [apply passive_exchangeEntry|]. intros e. apply IH.
Qed.

Lemma taskEvents_no_write pid reqd limit (w : W) tid logs e :
  e ∈ concat (taskEvents pid reqd limit w tid <$> logs) -> storeWrite e = false.
Proof.
  rewrite NetSpec.elem_of_concat. intros (evs & Hin & Hevs).
  apply list_elem_of_fmap in Hevs as (lg & -> & _).
  unfold taskEvents in Hin. destruct (fetchArgs reqd limit lg) as [[o m] d].
  destruct ((fetched reqd limit w tid lg).2) as [err|];
    [destruct (decide (err = ErrOffsetIsMissing))|]; finish.
Qed.

(** X15. [GetLogs], [GetRecords] and [ExchangeEdges] only read: whatever
    the request and whatever they answer, the store is left as it was and
    none of the calls they make writes to it ([GetLogs] makes no call at
    all). *)
Theorem reading_handlers_never_write :
  forall (w : W),
    (forall req, (GetLogs req w).1.2 = w /\ (GetLogs req w).2 = []) /\
    (forall req, (GetRecords MaxPullLimit s req w).1.2 = w /\
                 forall e, e ∈ (GetRecords MaxPullLimit s req w).2 -> storeWrite e = false) /\
    (forall req, (ExchangeEdges s req w).1.2 = w /\
                 forall e, e ∈ (ExchangeEdges s req w).2 -> storeWrite e = false).
Proof.
  intros w. split_and!; intros req.
  - unfold GetLogs. step_handler.
    destruct (verified_cases (A := GetLogsReply) req w)
      as [(pid & body & Hp & ->)|(r & -> & _)]; [|split; reflexivity].
    case_all; split; reflexivity.
  - destruct (verified_cases (A := GetRecordsReply) req w)
      as [(pid & body & Hp & Hv)|(r & Hv & _)].
    2:{ unfold GetRecords. step_handler. rewrite Hv. simpl. split; [reflexivity|finish]. }
    destruct (checkServiceKey (gr_ThreadID body) (gr_ServiceKey body) w) as [err|] eqn:Hc.
    { rewrite (NetSpec.GetRecords_refused _ _ _ _ _ _ _ Hp Hc). simpl.
      split; [reflexivity|finish]. }
    rewrite (NetSpec.GetRecords_after_check _ _ _ _ _ _ Hp Hc).
    destruct (headsChanged body w) as [[|] [herr|]]; simpl;
      try (split; [reflexivity|finish]).
    destruct (store_GetThread w (gr_ThreadID body)) as [info [gerr|]]; simpl;
      try (split; [reflexivity|finish]).
    case_bool_decide; simpl; try (split; [reflexivity|finish]).
    rewrite NetSpec.fetchAll_spec by reflexivity. simpl.
    split; [reflexivity|]. intros e Hin. apply elem_of_app in Hin as [Hin|Hin].
    + eapply taskEvents_no_write; eauto.
    + destruct (_ =? 0), (tStat s); finish.
  - unfold ExchangeEdges.
    match goal with |- context [handler ?m0 w] => set (m := m0) end.
    assert (passive m) as Hpass.
    { subst m. apply passive_bind.
      - apply passive_quiet. intros w0.
        destruct (verified_cases (A := ExchangeEdgesReply) req w0)
          as [(pid & body & _ & ->)|(r & -> & _)]; eauto.
      - intros [pid body]. apply passive_bind; [apply passive_exchangeLoop|].
        intros edges. apply passive_quiet. intros w0. eexists. reflexivity. }
    destruct (Hpass w) as [Hw He]. unfold handler.
    destruct (m w) as [[[r|r] w'] t]; simpl in *; auto.
Qed.

(** *** [ExchangeEdges] when an edge lookup fails *)

Lemma exchangeEntry_fails pid entry cause (w : W) :
  (localEdges (te_ThreadID entry) w).2 = Some cause ->
  cause <> errNoAddrsEdge -> cause <> errNoHeadsEdge ->
  exchangeEntry s pid entry w =
    (inr (None, Some (Errorf ("getting edges for " +:+ te_ThreadID entry) cause)), w, []).
Proof.
  intros Hl Ha Hh. unfold exchangeEntry. step_handler.
  destruct (localEdges (te_ThreadID entry) w) as [[al hl] err]. simpl in Hl. subst err.
  rewrite decide_False by exact Ha. rewrite decide_False by exact Hh. reflexivity.
Qed.

Lemma exchangeLoop_fails pid (w : W) entry post cause pre :
  edgesAnswered w pre ->
  (localEdges (te_ThreadID entry) w).2 = Some cause ->
  cause <> errNoAddrsEdge -> cause <> errNoHeadsEdge ->
  forall acc,
  exists outs : list (ExchangeEdgesReply_ThreadEdges * list Event),
    Forall2 (fun en out => exchangeEntry s pid en w = (inl out.1, w, out.2)) pre outs /\
    exchangeLoop s pid (pre ++ entry :: post) acc w =
      (inr (None, Some (Errorf ("getting edges for " +:+ te_ThreadID entry) cause)), w,
       concat outs.*2).
Proof.
  intros Hans Hl Ha Hh. induction pre as [|en pre IH]; intros acc.
  - exists []. split; [constructor|]. simpl. unfold mbind, M_bind.
    rewrite (exchangeEntry_fails _ _ _ _ Hl Ha Hh). reflexivity.
  - destruct (NetSpec.exchangeEntry_answered s pid en w) as (e & tr & He).
    { intros x Hx. apply Hans. apply list_elem_of_singleton in Hx. subst. left. }
    destruct (IH (fun x Hx => Hans x (list_elem_of_further _ _ _ Hx)) (acc ++ [e]))
      as (outs & Hall & Hloop).
    exists ((e, tr) :: outs). split; [constructor; [exact He|exact Hall]|].
    simpl. unfold mbind, M_bind. rewrite He, Hloop. reflexivity.
Qed.

(** X16. When the edge lookup for an entry of an [ExchangeEdges] request
    fails with an error that is not thread-not-found, the RPC returns no
    reply and that error, wrapped with the stage ("address edge" or "heads
    edge") and with the thread id; the entries after it are not looked at,
    and what was scheduled and reported for the entries before it stays. *)
Theorem ExchangeEdges_failure_keeps_earlier_calls :
  forall (req : Request ExchangeEdgesRequest_Body) (pid : PeerID)
         (body : ExchangeEdgesRequest_Body) (w : W)
         (pre post : list ExchangeEdgesRequest_Body_ThreadEntry)
         (entry : ExchangeEdgesRequest_Body_ThreadEntry) (err cause : error),
    passes req pid body ->
    ee_Threads body = pre ++ entry :: post ->
    edgesAnswered w pre ->
    errors_Is err ErrThreadNotFound = false ->
    (store_AddrsEdge w (te_ThreadID entry) = inr err /\ cause = Errorf "address edge" err) \/
    (exists al, store_AddrsEdge w (te_ThreadID entry) = inl al /\
                store_HeadsEdge w (te_ThreadID entry) = inr err /\
                cause = Errorf "heads edge" err) ->
    exists outs : list (ExchangeEdgesReply_ThreadEdges * list Event),
      Forall2 (fun en out => exchangeEntry s pid en w = (inl out.1, w, out.2)) pre outs /\
      ExchangeEdges s req w =
        ((None, Some (Errorf ("getting edges for " +:+ te_ThreadID entry) cause)), w,
         concat outs.*2).
Proof.
  intros req pid body w pre post entry err cause Hp Hsplit Hans Hnot Hcause.
  assert ((localEdges (te_ThreadID entry) w).2 = Some cause /\
          cause <> errNoAddrsEdge /\ cause <> errNoHeadsEdge) as (Hl & Ha & Hh).
  { unfold localEdges. destruct Hcause as [[Ea ->]|(al & Ea & Eh & ->)].
    - rewrite Ea, Hnot. simpl. split_and!; [reflexivity|discriminate..].
    - rewrite Ea, Eh, Hnot. simpl. split_and!; [reflexivity|discriminate..]. }
  destruct (exchangeLoop_fails pid w entry post cause pre Hans Hl Ha Hh [])
    as (outs & Hall & Hloop).
  exists outs. split; [exact Hall|].
  unfold ExchangeEdges. step_handler. rewrite (NetSpec.verified_passes _ _ _ _ Hp).
  rewrite Hsplit, Hloop. reflexivity.
Qed.

(** *** [GetRecords] and the pull limit *)

Lemma convertRecords_length_le (w : W) recs : forall acc,
  (length (convertRecords w recs acc).1 <= length acc + length recs)%nat.
Proof.
  induction recs as [|r rest IH]; intros acc; simpl; [lia|].
  destruct (RecordToProto w r) as [pr|e]; simpl; [|lia].
  specialize (IH (acc ++ [pr])). rewrite length_app in IH. simpl in IH. lia.
Qed.

Lemma fetchArgs_limit_le reqd limit lg :
  (fetchArgs reqd limit lg).1.2 <= limit.
Proof.
  unfold fetchArgs. destruct (reqd !! li_ID lg); simpl; [rewrite NetSpec.minInt_min|]; lia.
Qed.

Lemma taskEntry_records_le reqd limit (w : W) tid lg e :
  keepsLimit w ->
  taskEntry reqd limit w tid lg = Some e ->
  rl_LogID e = li_ID lg /\ (length (rl_Records e) <= Z.to_nat limit)%nat.
Proof.
  intros Hk He. split; [eapply NetSpec.taskEntry_LogID; eauto|].
  assert (rl_Records e = (converted reqd limit w tid lg).1) as ->.
  { unfold taskEntry in He.
    destruct (descriptor reqd lg), ((converted reqd limit w tid lg).1);
      try discriminate; injection He as <-; reflexivity. }
  unfold converted, fetched.
  pose proof (fetchArgs_limit_le reqd limit lg) as Hlim.
  destruct (fetchArgs reqd limit lg) as [[off lim] d]. simpl in Hlim.
  pose proof (convertRecords_length_le w (net_getLocalRecords w tid (li_ID lg) off lim).1 [])
    as Hc.
  pose proof (Hk tid (li_ID lg) off lim) as Hf. simpl in Hc.
  assert (Z.to_nat lim <= Z.to_nat limit)%nat by lia. lia.
Qed.

Lemma omap_taskEntry_bound reqd limit (w : W) tid logs :
  keepsLimit w ->
  (length (omap (taskEntry reqd limit w tid) logs) <= length logs)%nat /\
  (sum_list ((fun e => length (rl_Records e)) <$> omap (taskEntry reqd limit w tid) logs)
     <= length logs * Z.to_nat limit)%nat /\
  (forall e, e ∈ omap (taskEntry reqd limit w tid) logs ->
             exists lg, lg ∈ logs /\ rl_LogID e = li_ID lg).
Proof.
  intros Hk. induction logs as [|lg rest (IH1 & IH2 & IH3)].
  - simpl. split_and!; [lia|lia|]. intros e He. inversion He.
  - cbn [omap list_omap]. unfold fmap in *.
    destruct (taskEntry reqd limit w tid lg) as [e0|] eqn:E0.
    + destruct (taskEntry_records_le _ _ _ _ _ _ Hk E0) as [Hid Hle].
      unfold sum_list in *. cbn [list_fmap sum_list_with length]. unfold id in *.
      split_and!; [lia|rewrite Nat.mul_succ_l; lia|].
      intros e He. apply elem_of_cons in He as [->|He].
      * exists lg. split; [left|exact Hid].
      * destruct (IH3 e He) as (lg' & Hin & Hid'). exists lg'. split; [right|]; assumption.
    + cbn [length]. split_and!; [lia|rewrite Nat.mul_succ_l; lia|].
      intros e He. destruct (IH3 e He) as (lg' & Hin & Hid'). exists lg'.
      split; [right|]; assumption.
Qed.

Lemma omap_taskEntry_ids reqd limit (w : W) tid logs :
  rl_LogID <$> omap (taskEntry reqd limit w tid) logs ⊆+ li_ID <$> logs.
Proof.
  induction logs as [|lg rest IH]; [reflexivity|].
  cbn [omap list_omap]. rewrite fmap_cons.
  destruct (taskEntry reqd limit w tid lg) as [e0|] eqn:E0.
  - rewrite fmap_cons, (NetSpec.taskEntry_LogID _ _ _ _ _ _ E0).
    apply submseteq_skip. exact IH.
  - apply submseteq_cons. exact IH.
Qed.

(** X17. With [MaxPullLimit] not negative and a [getLocalRecords] that
    keeps to the limit it is given, a reply of [GetRecords] never carries
    more than [MaxPullLimit] records in all, whatever the request.  The log
    ids of its entries are, as a multiset, among the ids of the local logs
    of the thread: every entry is for a local log, and no local log
    accounts for more than one entry. *)
Theorem GetRecords_reply_within_pull_limit :
  forall (req : Request GetRecordsRequest_Body) (w : W) (reply : GetRecordsReply),
    0 <= MaxPullLimit ->
    keepsLimit w ->
    (GetRecords MaxPullLimit s req w).1.1.1 = Some reply ->
    Z.of_nat (totalRecords reply) <= MaxPullLimit /\
    (forall pid body, passes req pid body ->
       let logs := Logs (store_GetThread w (gr_ThreadID body)).1 in
       rl_LogID <$> grr_Logs reply ⊆+ li_ID <$> logs /\
       (length (grr_Logs reply) <= length logs)%nat /\
       forall e, e ∈ grr_Logs reply -> exists lg, lg ∈ logs /\ rl_LogID e = li_ID lg).
Proof.
  intros req w reply Hmax Hk Hrep.
  assert (forall pid body, passes req pid body ->
            reply = {| grr_Logs := [] |} \/
            (exists info, store_GetThread w (gr_ThreadID body) = (info, None) /\
               Logs info <> [] /\
               reply = {| grr_Logs :=
                 omap (taskEntry (requested (gr_Logs body))
                         (MaxPullLimit ÷ Z.of_nat (length (Logs info))) w (gr_ThreadID body))
                      (Logs info) |})) as Hshape.
  { intros pid body Hp.
    destruct (checkServiceKey (gr_ThreadID body) (gr_ServiceKey body) w) as [err|] eqn:Hc.
    { rewrite (NetSpec.GetRecords_refused _ _ _ _ _ _ _ Hp Hc) in Hrep.
      injection Hrep as <-. left. reflexivity. }
    rewrite (NetSpec.GetRecords_after_check _ _ _ _ _ _ Hp Hc) in Hrep.
    destruct (headsChanged body w) as [[|] [herr|]]; simpl in Hrep; try discriminate;
      try (injection Hrep as <-; left; reflexivity).
    destruct (store_GetThread w (gr_ThreadID body)) as [info [gerr|]] eqn:Hg;
      simpl in Hrep; try discriminate.
    case_bool_decide as Hlen; simpl in Hrep; [injection Hrep as <-; left; reflexivity|].
    rewrite NetSpec.fetchAll_spec in Hrep by reflexivity. simpl in Hrep.
    injection Hrep as <-. right. exists info. split; [reflexivity|].
    split; [|reflexivity]. intros Hnil. apply Hlen. rewrite Hnil. reflexivity. }
  destruct (verified_cases (A := GetRecordsReply) req w)
    as [(pid & body & Hp & Hv)|(r & Hv & [->|(e & -> & He)])].
  2,3: unfold GetRecords in Hrep; revert Hrep; step_handler; rewrite Hv; discriminate.
  split.
  - destruct (Hshape pid body Hp) as [->|(info & Hg & Hne & ->)];
      [unfold totalRecords; simpl; lia|].
    unfold totalRecords. simpl.
    destruct (omap_taskEntry_bound (requested (gr_Logs body))
                (MaxPullLimit ÷ Z.of_nat (length (Logs info))) w (gr_ThreadID body)
                (Logs info) Hk) as (_ & Hsum & _).
    assert (0 < Z.of_nat (length (Logs info))) as Hn
      by (destruct (Logs info); [congruence|simpl; lia]).
    rewrite Z.quot_div_nonneg in * by lia.
    pose proof (Z.mul_div_le MaxPullLimit _ Hn) as Hdiv.
    pose proof (Z.div_pos MaxPullLimit _ Hmax Hn) as Hpos.
    apply Nat2Z.inj_le in Hsum. rewrite Nat2Z.inj_mul, Z2Nat.id in Hsum by exact Hpos.
    lia.
  - intros pid' body' Hp' logs.
    assert (body' = body) as -> by (destruct Hp as [_ Hb], Hp' as [_ Hb']; congruence).
    destruct (Hshape pid body Hp) as [->|(info & Hg & Hne & ->)].
    + simpl. split; [apply submseteq_nil_l|]. split; [lia|]. intros e He. inversion He.
    + subst logs. rewrite Hg. simpl.
      destruct (omap_taskEntry_bound (requested (gr_Logs body))
                  (MaxPullLimit ÷ Z.of_nat (length (Logs info))) w (gr_ThreadID body)
                  (Logs info) Hk) as (Hlen & _ & Hin).
      split; [apply omap_taskEntry_ids|]. split; [exact Hlen|exact Hin].
Qed.

(** *** [newServer] *)

Lemma addAll_spec ts : forall (p : P) added,
  match addAll ts p added with
  | (q, calls, None) => calls = added ++ ts /\ Adds p ts q
  | (_, calls, Some err) =>
      exists k id pk q,
        ts !! k = Some id /\ calls = added ++ take (S k) ts /\
        Adds p (take k ts) pk /\ ps_Add pk id = (q, Some err)
  end.
Proof.
  induction ts as [|id rest IH]; intros p added.
  - simpl. rewrite app_nil_r. split; [reflexivity|constructor].
  - simpl. destruct (ps_Add p id) as [p1 [err|]] eqn:Ea.
    + exists 0%nat, id, p, p1. simpl. split_and!; [reflexivity..|constructor|exact Ea].
    + specialize (IH p1 (added ++ [id])).
      destruct (addAll rest p1 (added ++ [id])) as [[q c] [e|]].
      * destruct IH as (k & id' & pk & q' & Hk & Hc & Hadds & Hfail).
        exists (S k), id', pk, q'. simpl. split_and!; [exact Hk| |econstructor; eauto|exact Hfail].
        rewrite Hc, <- app_assoc. reflexivity.
      * destruct IH as [-> Hadds]. rewrite <- app_assoc.
        split; [reflexivity|econstructor; eauto].
Qed.

Lemma addAll_complete ts (p q : P) :
  Adds p ts q -> forall added, addAll ts p added = (q, added ++ ts, None).
Proof.
  induction 1 as [p|p p' q id rest Ha _ IH]; intros added; simpl.
  - rewrite app_nil_r. reflexivity.
  - rewrite Ha, IH, <- app_assoc. reflexivity.
Qed.

Lemma addAll_fails ts : forall (p pk q : P) k id err added,
  ts !! k = Some id -> Adds p (take k ts) pk -> ps_Add pk id = (q, Some err) ->
  addAll ts p added = (q, added ++ take (S k) ts, Some err).
Proof.
  induction ts as [|id0 rest IH]; intros p pk q k id err added Hk Hadds Hfail; [discriminate|].
  destruct k as [|k]; simpl in *.
  - injection Hk as ->. inversion Hadds; subst. rewrite Hfail. reflexivity.
  - inversion Hadds as [|? p' ? ? ? Ha Hrest]; subst.
    rewrite Ha, (IH _ _ _ _ _ _ _ Hk Hrest Hfail), <- app_assoc. reflexivity.
Qed.

(** X18. [newServer] without pubsub makes a server that has none and
    subscribes nothing.  A failure to make the pubsub or to list the
    threads is returned before any [Add].  Otherwise [Add] is called for
    the threads of the store in the order the store lists them, each on the
    pubsub as the [Add]s before it left it: when every [Add] succeeds the
    server is returned with that pubsub and the status registry of its net,
    [Add] having been called for all of them; when it fails, the error is
    that of the first [Add] that failed, the [Add]s before it succeeded, and
    [Add] is called for no thread after it. *)
Theorem newServer_subscribes_the_stored_threads :
  forall (tStatOfNet : bool) (w : W),
    newServer tStatOfNet false w =
      (inl ({| tStat := tStatOfNet; ps := false |}, None), []) /\
    (forall err, NewGossipSub = Some err ->
       newServer tStatOfNet true w = (inr err, [])) /\
    (forall err, NewGossipSub = None -> store_Threads w = inr err ->
       newServer tStatOfNet true w = (inr err, [])) /\
    (forall ts, NewGossipSub = None -> store_Threads w = inl ts ->
       (forall q, Adds NewPubSub ts q ->
          newServer tStatOfNet true w =
            (inl ({| tStat := tStatOfNet; ps := true |}, Some q), ts)) /\
       (forall srv p added, newServer tStatOfNet true w = (inl (srv, p), added) ->
          added = ts /\ srv = {| tStat := tStatOfNet; ps := true |} /\
          exists q, p = Some q /\ Adds NewPubSub ts q) /\
       (forall k id pk q err,
          ts !! k = Some id -> Adds NewPubSub (take k ts) pk ->
          ps_Add pk id = (q, Some err) ->
          newServer tStatOfNet true w = (inr err, take (S k) ts)) /\
       (forall err added, newServer tStatOfNet true w = (inr err, added) ->
          exists k id pk q,
            ts !! k = Some id /\ added = take (S k) ts /\
            Adds NewPubSub (take k ts) pk /\ ps_Add pk id = (q, Some err))).
Proof.
  intros tStatOfNet w. unfold newServer. split_and!.
  - reflexivity.
  - intros err ->. reflexivity.
  - intros err -> ->. reflexivity.
  - intros ts -> ->. pose proof (addAll_spec ts NewPubSub []) as Hspec.
    split_and!.
    + intros q Hadds. rewrite (addAll_complete _ _ _ Hadds). reflexivity.
    + destruct (addAll ts NewPubSub []) as [[p calls] [e|]]; simpl in Hspec;
        intros srv p' added Heq; [discriminate|].
      injection Heq as <- <- <-. destruct Hspec as [-> Hadds]. eauto.
    + intros k id pk q err Hk Hadds Hfail.
      rewrite (addAll_fails _ _ _ _ _ _ _ [] Hk Hadds Hfail). reflexivity.
    + destruct (addAll ts NewPubSub []) as [[p calls] [e|]]; simpl in Hspec;
        intros err added Heq; [|discriminate].
      injection Heq as <- <-. exact Hspec.
Qed.

(** *** [GetRecords] when the store fails *)

(** X19. After the service-key check, [GetRecords] hands a failure of the
    store back as it got it, without a status code, with no reply, and
    before any fetch: a failure of the heads-edge lookup other than
    thread-not-found, and any failure of [GetThread] once the heads count as
    changed.  ([GetLogs] reports a failure of [GetThread] as [Internal].) *)
Theorem GetRecords_store_errors_pass_through :
  forall (req : Request GetRecordsRequest_Body) (pid : PeerID)
         (body : GetRecordsRequest_Body) (w : W),
    passes req pid body ->
    checkServiceKey (gr_ThreadID body) (gr_ServiceKey body) w = None ->
    (forall err,
       store_HeadsEdge w (gr_ThreadID body) = inr err ->
       errors_Is err ErrThreadNotFound = false ->
       GetRecords MaxPullLimit s req w = ((None, Some err), w, [])) /\
    (forall info err,
       headsChanged body w = (true, None) ->
       store_GetThread w (gr_ThreadID body) = (info, Some err) ->
       GetRecords MaxPullLimit s req w = ((None, Some err), w, [])).
Proof.
  intros req pid body w Hp Hc. split.
  - intros err He Hnot. rewrite (NetSpec.GetRecords_after_check _ _ _ _ _ _ Hp Hc).
    unfold headsChanged. rewrite He, Hnot. reflexivity.
  - intros info err Hh Hg. rewrite (NetSpec.GetRecords_after_check _ _ _ _ _ _ Hp Hc).
    rewrite Hh, Hg. reflexivity.
Qed.

End MoreProperties.
End NetExtra.

(** ** The further properties at work *)

Module ExtraScenarios.
Import Util Pool Net Mem NetMore MoreData NetExtra.

Lemma poolHeld_lookup id s :
  ss poolHeld !! id = Some s -> (id = "T1" /\ s = free1) \/ (id = "T2" /\ s = held1).
Proof.
  unfold poolHeld. simpl. intros Hl.
  destruct (decide (id = "T1")) as [->|N1].
  - rewrite lookup_insert_eq in Hl. injection Hl as <-. auto.
  - rewrite lookup_insert_ne in Hl by congruence.
    destruct (decide (id = "T2")) as [->|N2].
    + rewrite lookup_insert_eq in Hl. injection Hl as <-. auto.
    + rewrite lookup_insert_ne in Hl by congruence. rewrite lookup_empty in Hl. discriminate.
Qed.

Lemma Stop_takes_every_semaphore_witness :
  StopIn ["T1"; "T2"] poolHeld =
    StopParked "T2" [] (through (through poolHeld "T1" (acquired free1)) "T2" (awaited held1)) /\
  StopReleased 2 (StopIn ["T1"; "T2"] poolHeld) =
    Some {| ss := held <$> ss poolHeld; semaCap := 1 |}.
Proof.
  split; [reflexivity|].
  destruct (UtilExtra.Stop_takes_every_semaphore poolHeld ["T1"; "T2"]) as (_ & _ & _ & Hall).
  - split.
    + apply NoDup_cons. split; [|apply NoDup_singleton].
      intros Hin. apply list_elem_of_singleton in Hin. discriminate.
    + intros id. split.
      * intros Hin. apply elem_of_cons in Hin as [->|Hin];
          [|apply list_elem_of_singleton in Hin as ->]; vm_compute; eauto.
      * intros [s Hl]. destruct (poolHeld_lookup id s Hl) as [[-> _] | [-> _]].
        -- left.
        -- right. left.
  - intros id s Hl. destruct (poolHeld_lookup id s Hl) as [[_ ->] | [_ ->]];
      split; simpl; lia.
  - exact Hall.
Defined.

(** On a pool whose semaphores are all free, [Stop] returns at once. *)
Example Stop_on_a_free_pool :
  StopIn ["T2"; "T1"] poolTwo =
    StopReturned {| ss := acquired <$> ss poolTwo; semaCap := 1 |}.
Proof. vm_compute. reflexivity. Qed.

Lemma GetLogs_returns_the_local_logs_witness :
  exists reply,
    GetLogs (signedBy alice getLogsT1) store0 = ((Some reply, None), store0, []) /\
    logFromProto <$> glr_Logs reply = [logA; logB].
Proof.
  destruct (GetLogs_returns_the_local_logs (signedBy alice getLogsT1) "alice" getLogsT1 store0)
    as [Hok _].
  - split; vm_compute; reflexivity.
  - vm_compute; reflexivity.
  - destruct (Hok info1 eq_refl) as (reply & Hrun & Hlogs & _).
    exists reply. split; [exact Hrun|exact Hlogs].
Defined.


Lemma pubsub_record_before_its_log_is_dropped_witness :
  pubsubHandler srv (signedBy alice pushUnknownLog) store0 =
    (store0, [], Some (StatusMsg NotFound "log not found")).
Proof.
  destruct (pubsub_record_before_its_log_is_dropped srv (signedBy alice pushUnknownLog)
              "alice" pushUnknownLog store0) as [Hdrop _].
  - split; vm_compute; reflexivity.
  - apply Hdrop. vm_compute. reflexivity.
Defined.

(** The one place where [PushRecord] writes: a new record with a good
    signature. *)
Example PushRecord_puts_once :
  filter (fun e => storeWrite e = true) (PushRecord srv (signedBy alice pushNew) store0).2 =
    [PutRecord "T1" "LA" "c3"].
Proof. vm_compute. reflexivity. Qed.

Lemma ExchangeEdges_failure_keeps_earlier_calls_witness :
  exists outs : list (ExchangeEdgesReply_ThreadEdges * list Event),
    @ExchangeEdges _ _ memFailingEdges _ srv (signedBy alice exchangeT9T1) storeFaulty =
      ((None,
        Some (Errorf ("getting edges for " +:+ "T1")
                     (Errorf "heads edge" (ErrOther "read failed")))),
       storeFaulty, concat outs.*2) /\
    length outs = 1%nat.
Proof.
  destruct (@ExchangeEdges_failure_keeps_earlier_calls _ _ memFailingEdges _ srv
              (signedBy alice exchangeT9T1) "alice" exchangeT9T1 storeFaulty
              [ {| te_ThreadID := "T9"; te_AddressEdge := 1; te_HeadsEdge := 2 |} ]
              [ {| te_ThreadID := "T3"; te_AddressEdge := 1; te_HeadsEdge := 2 |} ]
              {| te_ThreadID := "T1"; te_AddressEdge := 1; te_HeadsEdge := 2 |}
              (ErrOther "read failed")
              (Errorf "heads edge" (ErrOther "read failed")))
    as (outs & Hall & Hrun).
  - split; vm_compute; reflexivity.
  - reflexivity.
  - intros entry Hin. apply list_elem_of_singleton in Hin as ->. split.
    + intros err Ha. vm_compute in Ha. injection Ha as <-. reflexivity.
    + intros al err Ha. vm_compute in Ha. discriminate.
  - reflexivity.
  - right. exists localAddrs1. split_and!; vm_compute; reflexivity.
  - exists outs. split; [exact Hrun|].
    apply Forall2_length in Hall. simpl in Hall. congruence.
Defined.

Lemma GetRecords_reply_within_pull_limit_witness :
  exists reply,
    (GetRecords 10000 srv (signedBy alice getRecordsT1) store0).1.1.1 = Some reply /\
    Z.of_nat (totalRecords reply) <= 10000.
Proof.
  eexists. split; [vm_compute; reflexivity|].
  refine (proj1 (GetRecords_reply_within_pull_limit 10000 srv (signedBy alice getRecordsT1)
                   store0 _ _ _ _)).
  - lia.
  - intros tid lid off lim. simpl. unfold memGetLocalRecords.
    destruct (decide (off = Undef)); simpl; [rewrite length_take; lia|].
    destruct (after off _); simpl; [rewrite length_take; lia|lia].
  - vm_compute; reflexivity.
Defined.

Lemma GetRecords_store_errors_pass_through_witness :
  @GetRecords _ _ memFailingEdges _ 10000 srv (signedBy alice getRecordsT1) storeFaulty =
    ((None, Some (ErrOther "read failed")), storeFaulty, []).
Proof.
  destruct (@GetRecords_store_errors_pass_through _ _ memFailingEdges _ 10000 srv
              (signedBy alice getRecordsT1) "alice" getRecordsT1 storeFaulty) as [Hheads _].
  - split; vm_compute; reflexivity.
  - vm_compute; reflexivity.
  - apply Hheads; vm_compute; reflexivity.
Defined.

(** [newServer] on the in-memory store: both threads are subscribed, in
    the order of the store. *)
Example newServer_on_store0 :
  newServer (P := list ThreadID) true true store0 =
    (inl ({| tStat := true; ps := true |}, Some ["T1"; "T3"]), ["T1"; "T3"]).
Proof. vm_compute. reflexivity. Qed.

(** An [Add] that fails ends [newServer]: the thread with the empty id is
    refused, and [Add] is not called for [T3] after it. *)
Example newServer_add_fails :
  newServer (P := list ThreadID) true true
    {| threads := [("T1", emptyThread); (EmptyString, emptyThread); ("T3", emptyThread)];
       blocks := []; faulty := false |} =
    (inr (ErrOther "empty topic"), ["T1"; EmptyString]).
Proof. vm_compute. reflexivity. Qed.

(** A request with a header and no body: the handler panics in
    [verifyRequest]; without a header it is refused. *)
Example GetLogs_nil_body :
  GetLogs {| req_Header := Some {| h_PubKey := alice; h_Signature := [] |};
             req_Body := None |} store0 = (panicked, store0, []) /\
  GetLogs {| req_Header := None; req_Body := None |} store0 =
    ((None, Some (StatusMsg InvalidArgument "bad request")), store0, []).
Proof. split; reflexivity. Qed.

End ExtraScenarios.
